(** * repomix: file filter, concatenator and token-budget chunker

    A shallow embedding of [src/repomix/utils/parser.py] and of
    [is_binary_file] from [src/repomix/utils/file_operations.py], with the
    properties of the chunking engine stated and proved over it.

    Modelling conventions
    - a Python [str] is a [string]; characters are the code points below 256;
    - a Python [int] that can go negative (token arithmetic) is a [Z], lengths,
      indices and part numbers are [nat];
    - [Dict[str, str]] is a [gmap string string], and [sorted] over its keys
      is a merge sort by [String.le], the order of the code points;
    - the tokenizer ([tiktoken], reached through [count_tokens]) is a
      parameter of the chunker, the same at every call.  The section
      [Chunker] takes a tokenizer that answers on every text; the module
      [Raising] is the same code over a tokenizer that answers with a count
      or raises, as [tiktoken] does on a text that holds a special token,
      and [Raising.refines] relates the two: a run either raises what the
      tokenizer raised or is the run over the counts;
    - the three [while] loops of [split_long_line] carry an explicit loop
      bound; [None] means the bound was exhausted (or a [KeyError]), and the
      lemmas below show that this never happens;
    - the file system, [pathlib] and [mimetypes] are a record of functions;
      an exception that leaves a function is the left injection of a sum.

    Further on, the file embeds [split_text_into_chunks] and
    [truncate_text_by_tokens] of [spacy_utils.py], [parse_github_url] and
    [parse_multi_urls] of [git.py], [collect_files] of [file_operations.py],
    [validate_directories], [process_directory] and [combine_results] of
    [multi_directory.py], and [collect_content] of [files.py], each with the
    properties proved of it. *)

From Stdlib Require Import ZArith Lia List Ascii String.
From stdpp Require Import base option gmap strings list sorting pretty.

Local Open Scope Z_scope.

(** ** Python string primitives *)

Module PyStr.

(** The one-character string holding a line feed. *)
Definition nl_char : ascii := "010"%char.
Definition nl : string := String nl_char "".

(** [s[:n]] for [0 <= n]. *)
Fixpoint slice_to (n : nat) (s : string) : string :=
  match n, s with
  | O, _ => ""
  | S _, "" => ""
  | S n', String c s' => String c (slice_to n' s')
  end.

(** [s[n:]] for [0 <= n]. *)
Fixpoint slice_from (n : nat) (s : string) : string :=
  match n, s with
  | O, _ => s
  | S _, "" => ""
  | S n', String _ s' => slice_from n' s'
  end.

(** Truthiness of a string: [bool(s)]. *)
Definition nonempty (s : string) : bool :=
  match s with "" => false | String _ _ => true end.

(** [str.isspace] on one character, for the code points below 256:
    TAB, LF, VT, FF, CR, FS, GS, RS, US, SPACE, NEL and NBSP. *)
Definition isspace (c : ascii) : bool :=
  match c with
  | "009" | "010" | "011" | "012" | "013"
  | "028" | "029" | "030" | "031" | " "
  | "133" | "160" => true
  | _ => false
  end%char.

(** [s.lstrip()], [s.rstrip()] and [s.strip()]. *)
Fixpoint lstrip (s : string) : string :=
  match s with
  | "" => ""
  | String c s' => if isspace c then lstrip s' else s
  end.

Fixpoint rstrip (s : string) : string :=
  match s with
  | "" => ""
  | String c s' =>
      match rstrip s' with
      | "" => if isspace c then "" else String c ""
      | r => String c r
      end
  end.

Definition strip (s : string) : string := lstrip (rstrip s).

(** [s.split("\n")]: the list is never empty. *)
Fixpoint split_lines (s : string) : list string :=
  match s with
  | "" => [""]
  | String c s' =>
      if Ascii.eqb c nl_char then "" :: split_lines s'
      else
        match split_lines s' with
        | line :: rest => String c line :: rest
        | [] => [String c ""]
        end
  end.

(** ["\n".join(l)] is [String.concat nl l]. *)
Definition join_lines (l : list string) : string := String.concat nl l.

(** [f"{n:03d}"] for a natural number: decimal, zero-padded to width 3. *)
Definition zfill (width : nat) (s : string) : string :=
  Nat.iter (width - String.length s) (String "0"%char) s.

Definition pad3 (n : nat) : string := zfill 3 (pretty n).

(** [s.startswith(p)] *)
Fixpoint startswith (p s : string) : bool :=
  match p, s with
  | "", _ => true
  | String _ _, "" => false
  | String a p', String b s' => Ascii.eqb a b && startswith p' s'
  end.

End PyStr.

Import PyStr.

(** ** The chunker: [split_long_line] and [chunk_content] *)

Section Chunker.

(** [count_tokens] where it answers: [len(encoder.encode(text))], a
    length, hence a [nat].  The tokenizer that can raise is that of the
    module [Raising]. *)
Variable count_tokens : string → nat.

Definition tokens (text : string) : Z := Z.of_nat (count_tokens text).

(** [format_file_section]: [f"File: {filepath}\n{content}"]. *)
Definition format_file_section (filepath content : string) : string :=
  "File: " +:+ filepath +:+ nl +:+ content.

(** [f"{part_number:03d}_{filename}"] *)
Definition part_name (part_number : nat) (filename : string) : string :=
  pad3 part_number +:+ "_" +:+ filename.

(** *** [split_long_line] *)

(** The binary search, lines 177-183:
    [while left < right - 1: mid = (left + right) // 2; ...]. *)
Fixpoint bisect (fuel : nat) (current_part : string) (available_tokens : Z)
    (left right : nat) : option nat :=
  if Z.of_nat left <? Z.of_nat right - 1 then
    match fuel with
    | O => None
    | S fuel' =>
        let mid := ((left + right) / 2)%nat in
        if tokens (slice_to mid current_part) <=? available_tokens
        then bisect fuel' current_part available_tokens mid right
        else bisect fuel' current_part available_tokens left mid
    end
  else Some left.

(** The loop of lines 175-191:
    [while count_tokens(current_part) > available_tokens: ...], leaving
    with [break] once the forced-progress branch is taken. *)
Fixpoint shrink (fuel : nat) (remaining current_part : string)
    (available_tokens : Z) : option string :=
  if tokens current_part >? available_tokens then
    match fuel with
    | O => None
    | S fuel' =>
        left ← bisect (String.length current_part) current_part
                 available_tokens 0 (String.length current_part);
        let current_part := slice_to left current_part in
        if nonempty current_part
        then shrink fuel' remaining current_part available_tokens
        else
          Some
            (slice_to (Nat.max 1 (String.length remaining / 2)) remaining)
    end
  else Some current_part.

(** The outer loop of lines 167-203: [while remaining: ...]. *)
Fixpoint split_loop (fuel : nat) (line filename : string) (token_limit : Z)
    (remaining : string) (part_number : nat) (line_chunks : list string)
    : option (list string) :=
  if nonempty remaining then
    match fuel with
    | O => None
    | S fuel' =>
        let prefix := pad3 part_number in
        let header := format_file_section (prefix +:+ "_" +:+ filename) "" in
        let available_tokens := token_limit - tokens header in
        current_part ← shrink (S (String.length remaining)) remaining
                         remaining available_tokens;
        let chunk :=
          format_file_section (prefix +:+ "_" +:+ filename) current_part in
        let line_chunks := line_chunks ++ [chunk] in
        let remaining := slice_from (String.length current_part) remaining in
        let part_number := (part_number + 1)%nat in
        let remaining :=
          if (String.length remaining =? String.length line)%nat
          then slice_from 1 remaining else remaining in
        split_loop fuel' line filename token_limit remaining part_number
          line_chunks
    end
  else Some line_chunks.

Definition split_long_line (line filename : string) (part_number : nat)
    (token_limit : Z) : option (list string) :=
  split_loop (String.length line) line filename token_limit line
    part_number [].

(** *** [chunk_content] *)

(** The variables captured by [flush_current_chunk]. *)
Record state := State {
  chunks : list string;
  current_chunk : string;
  current_chunk_tokens : Z
}.

Definition flush_current_chunk (st : state) : state :=
  if nonempty (strip (current_chunk st))
  then State (chunks st ++ [strip (current_chunk st)]) "" 0
  else st.

(** Lines 235-244: does some line exceed what the file header leaves? *)
Definition has_long_lines (filename : string) (token_limit : Z)
    (lines : list string) : bool :=
  existsb
    (λ line,
       tokens line >? token_limit - tokens (format_file_section filename ""))
    lines.

(** The per-file variables of the line-by-line loops. *)
Record part_state := PartState {
  outer : state;
  part_number : nat;
  part_lines : list string;
  current_part_tokens : Z
}.

(** [flush_current_chunk()] followed by
    [chunks.append(format_file_section(f"{part_number:03d}_{filename}", body))]. *)
Definition append_part (filename : string) (n : nat) (body : string)
    (st : state) : state :=
  let st := flush_current_chunk st in
  State (chunks st ++ [format_file_section (part_name n filename) body])
    (current_chunk st) (current_chunk_tokens st).

(** Lines 276-292, repeated verbatim as lines 328-344. *)
Definition accumulate_line (filename : string) (token_limit : Z)
    (ps : part_state) (line : string) : part_state :=
  let header :=
    format_file_section (part_name (part_number ps) filename) "" in
  let header_tokens := tokens header in
  let line_tokens := tokens line in
  if current_part_tokens ps + line_tokens + header_tokens <=? token_limit
  then
    PartState (outer ps) (part_number ps) (part_lines ps ++ [line])
      (current_part_tokens ps + line_tokens)
  else
    match part_lines ps with
    | _ :: _ =>
        PartState
          (append_part filename (part_number ps)
             (join_lines (part_lines ps)) (outer ps))
          (part_number ps + 1) [line] line_tokens
    | [] =>
        PartState (append_part filename (part_number ps) line (outer ps))
          (part_number ps + 1) [] (current_part_tokens ps)
    end.

(** Lines 261-267: emit the accumulated lines before a long line. *)
Definition flush_part_lines (filename : string) (ps : part_state)
    : part_state :=
  match part_lines ps with
  | _ :: _ =>
      PartState
        (append_part filename (part_number ps)
           (join_lines (part_lines ps)) (outer ps))
        (part_number ps + 1) [] 0
  | [] => ps
  end.

(** The body of the loop of lines 253-292. *)
Definition split_line_step (filename : string) (token_limit : Z)
    (ps : part_state) (line : string) : option part_state :=
  let header :=
    format_file_section (part_name (part_number ps) filename) "" in
  let header_tokens := tokens header in
  let line_tokens := tokens line in
  if line_tokens >? token_limit - header_tokens then
    let ps := flush_part_lines filename ps in
    line_chunks ← split_long_line line filename (part_number ps) token_limit;
    Some
      (PartState
         (State (chunks (outer ps) ++ line_chunks)
            (current_chunk (outer ps)) (current_chunk_tokens (outer ps)))
         (part_number ps + length line_chunks) (part_lines ps)
         (current_part_tokens ps))
  else Some (accumulate_line filename token_limit ps line).

Fixpoint split_lines_loop (filename : string) (token_limit : Z)
    (ps : part_state) (lines : list string) : option part_state :=
  match lines with
  | [] => Some ps
  | line :: rest =>
      ps ← split_line_step filename token_limit ps line;
      split_lines_loop filename token_limit ps rest
  end.

(** Lines 295-298 and 347-350: emit what is left in [part_lines]. *)
Definition finish_parts (filename : string) (ps : part_state) : state :=
  match part_lines ps with
  | _ :: _ =>
      append_part filename (part_number ps) (join_lines (part_lines ps))
        (outer ps)
  | [] => outer ps
  end.

(** The body of the loop over the files, lines 230-350. *)
Definition process_file (token_limit : Z) (st : state)
    (filename content : string) : option state :=
  let lines := split_lines content in
  if has_long_lines filename token_limit lines then
    ps ← split_lines_loop filename token_limit (PartState st 1 [] 0) lines;
    Some (finish_parts filename ps)
  else
    let full_section := format_file_section filename content in
    let section_tokens := tokens full_section in
    if section_tokens <=? token_limit then
      if nonempty (current_chunk st) then
        let candidate := current_chunk st +:+ nl +:+ nl +:+ full_section in
        let candidate_tokens := tokens candidate in
        if candidate_tokens <=? token_limit
        then Some (State (chunks st) candidate candidate_tokens)
        else
          let st := flush_current_chunk st in
          Some (State (chunks st) full_section section_tokens)
      else Some (State (chunks st) full_section section_tokens)
    else
      let ps :=
        fold_left (accumulate_line filename token_limit) lines
          (PartState st 1 [] 0) in
      Some (finish_parts filename ps).

(** [sorted(content_by_file.keys())] *)
Definition sorted_keys (content_by_file : gmap string string)
    : list string :=
  merge_sort String.le (map_to_list content_by_file).*1.

Fixpoint process_files (token_limit : Z)
    (content_by_file : gmap string string) (st : state)
    (filenames : list string) : option state :=
  match filenames with
  | [] => Some st
  | filename :: rest =>
      content ← content_by_file !! filename;
      st ← process_file token_limit st filename content;
      process_files token_limit content_by_file st rest
  end.

Definition chunk_content (content_by_file : gmap string string)
    (token_limit : Z) : option (list string) :=
  st ← process_files token_limit content_by_file (State [] "" 0)
         (sorted_keys content_by_file);
  Some (chunks (flush_current_chunk st)).

End Chunker.

(** A character-level tokenizer, one token per character, to run the chunker
    on concrete inputs. *)
Definition char_tokens (text : string) : nat := String.length text.


(** ** The file filter and the concatenator *)

Module Files.

(** Exceptions that leave the functions below. *)
Inductive exception :=
| ValueError (msg : string)
| UnicodeDecodeError
| OSError.

(** What the functions observe of the file system and of [pathlib] and
    [mimetypes]; paths are strings. *)
Record filesystem := {
  (** [base / rel] *)
  joinpath : string → string → string;
  (** [path.exists()] *)
  path_exists : string → bool;
  (** [path.is_file()] *)
  is_file : string → bool;
  (** [list(path.rglob("*"))] *)
  rglob : string → list string;
  (** [path.match(pattern)], raising [ValueError] on a pattern it refuses
      (the empty pattern, [.]) *)
  path_match : string → string → exception + bool;
  (** [mimetypes.guess_type(str(path))[0]] *)
  guess_type : string → option string;
  (** the bytes of [open(path, "rb")], [None] when opening or reading raises *)
  read_bytes : string → option (list Byte.byte);
  (** [str(path.relative_to(base))], raising [ValueError] *)
  relative_to : string → string → exception + string;
  (** [path.read_text()] *)
  read_text : string → exception + string
}.

Section WithFileSystem.

Variable fs : filesystem.

(** [b"\0" in chunk] *)
Definition has_null_byte (chunk : list Byte.byte) : bool :=
  existsb (Byte.eqb Byte.x00) chunk.

(** [is_binary_file] of [file_operations.py]; every exception inside the
    [try] gives [True]. *)
Definition is_binary_file (file_path : string) : bool :=
  let mime_type := guess_type fs file_path in
  if match mime_type with
     | Some t => nonempty t && negb (startswith "text/" t)
     | None => false
     end
  then true
  else
    match read_bytes fs file_path with
    | Some bytes => has_null_byte (firstn 1024 bytes)
    | None => true
    end.

(** [target_dir.lstrip('/')] *)
Fixpoint lstrip_slash (s : string) : string :=
  match s with
  | String c s' => if Ascii.eqb c "/"%char then lstrip_slash s' else s
  | "" => ""
  end.

(** [any(file.match(pattern) for pattern in ignore_patterns)]: the
    patterns are tried in order, up to the first that matches or
    raises. *)
Fixpoint any_match (file : string) (ignore_patterns : list string)
    : exception + bool :=
  match ignore_patterns with
  | [] => inr false
  | pattern :: rest =>
      match path_match fs file pattern with
      | inl e => inl e
      | inr true => inr true
      | inr false => any_match file rest
      end
  end.

(** The loop of [glob_files], lines 37-52. *)
Fixpoint glob_loop (ignore_patterns : list string)
    (candidates : list string) (files : list string)
    : exception + list string :=
  match candidates with
  | [] => inr files
  | file :: rest =>
      if negb (is_file fs file) then glob_loop ignore_patterns rest files
      else
        match any_match file ignore_patterns with
        | inl e => inl e
        | inr true => glob_loop ignore_patterns rest files
        | inr false =>
            if is_binary_file file
            then glob_loop ignore_patterns rest files
            else glob_loop ignore_patterns rest (files ++ [file])
        end
  end.

Definition glob_files (base_path target_dir : string)
    (ignore_patterns : list string) (allow_missing : bool)
    : exception + list string :=
  let target_path := joinpath fs base_path (lstrip_slash target_dir) in
  if negb (path_exists fs target_path) then
    if allow_missing then inr []
    else inl (ValueError ("Target directory not found: " +:+ target_path))
  else glob_loop ignore_patterns (rglob fs target_path) [].

(** The loop of [concatenate_files], lines 132-151. *)
Fixpoint concatenate_loop (base_path : string) (files : list string)
    (result : list string) : exception + list string :=
  match files with
  | [] => inr result
  | file :: rest =>
      if is_binary_file file then concatenate_loop base_path rest result
      else
        match relative_to fs file base_path with
        | inl UnicodeDecodeError => concatenate_loop base_path rest result
        | inl e => inl e
        | inr relative_path =>
            match read_text fs file with
            | inl UnicodeDecodeError =>
                concatenate_loop base_path rest result
            | inl e => inl e
            | inr content =>
                let result :=
                  if (0 <? length result)%nat then result ++ [""]
                  else result in
                let result := result ++ ["File: " +:+ relative_path] in
                let result := result ++ [content] in
                concatenate_loop base_path rest result
            end
        end
  end.

(** The [metadata] dictionary, in insertion order, values formatted as
    by [f"{key}: {value}"]. *)
Definition metadata (now : string) (files : list string)
    (repository_url target_dir : string) : list (string * string) :=
  [ ("total_tokens", "0");
    ("file_count", pretty (length files));
    ("repository", repository_url);
    ("target_directory", target_dir);
    ("generated", now) ].

(** [concatenate_files]; [now] is [datetime.now().isoformat()]. *)
Definition concatenate_files (now : string) (files : list string)
    (base_path repository_url target_dir : string)
    : exception + string :=
  match files with
  | [] => inr ""
  | _ :: _ =>
      let result := ["# Metadata"] in
      let result :=
        fold_left (λ result kv, result ++ [kv.1 +:+ ": " +:+ kv.2])
          (metadata now files repository_url target_dir) result in
      match concatenate_loop base_path files result with
      | inl e => inl e
      | inr result => inr (join_lines result)
      end
  end.

End WithFileSystem.

End Files.

(** ** Vocabulary of the statements *)

(** The header line of part [n] of [filename], as [split_long_line] and the
    line loops build it. *)
Definition part_header (n : nat) (filename : string) : string :=
  format_file_section (part_name n filename) "".

(** The chunks [File: NNN_filename] carrying [bodies], numbered from [n]. *)
Fixpoint numbered (filename : string) (n : nat) (bodies : list string)
    : list string :=
  match bodies with
  | [] => []
  | body :: rest =>
      format_file_section (part_name n filename) body
        :: numbered filename (n + 1) rest
  end.

(** A text with its line feeds taken out: what is left of it "modulo the
    newline seams". *)
Fixpoint remove_newlines (s : string) : string :=
  match s with
  | "" => ""
  | String c s' =>
      if Ascii.eqb c nl_char then remove_newlines s'
      else String c (remove_newlines s')
  end.

(** All the strings of a list, one after the other: ["".join(bodies)]. *)
Definition concat_bodies (bodies : list string) : string :=
  foldr String.app "" bodies.

(** The text of a chunk after its first line: the chunk "with the header
    removed". *)
Fixpoint chunk_body (chunk : string) : string :=
  match chunk with
  | "" => ""
  | String c s' => if Ascii.eqb c nl_char then s' else chunk_body s'
  end.

Section Fragments.

Variable count_tokens : string → nat.
Variable token_limit : Z.
Variable filename : string.

(** How [split_long_line] cuts [remaining] into fragments, the first one
    under the header of part [n]: each fragment is a non-empty prefix of
    what remains, and it either fits what the part header leaves of the
    budget, or is the forced-progress prefix of
    [max(1, len(remaining) // 2)] characters, taken when the binary search
    is left with nothing, the first character alone being over what the
    header leaves. *)
Inductive fragments : nat → string → list string → Prop :=
| fragments_done n : fragments n "" []
| fragments_step n remaining k rest :
    (1 ≤ k ≤ String.length remaining)%nat →
    tokens count_tokens (slice_to k remaining)
      ≤ token_limit - tokens count_tokens (part_header n filename)
    ∨ (k = Nat.max 1 (String.length remaining / 2)
       ∧ token_limit - tokens count_tokens (part_header n filename)
         < tokens count_tokens (slice_to 1 remaining)) →
    fragments (n + 1) (slice_from k remaining) rest →
    fragments n remaining (slice_to k remaining :: rest).

End Fragments.



(** A string made of white space only: [not s.strip()]. *)
Fixpoint all_space (s : string) : bool :=
  match s with
  | "" => true
  | String c s' => isspace c && all_space s'
  end.

Section Layout.

Variable count_tokens : string → nat.
Variable token_limit : Z.

(** [current_part_tokens] for the lines [ls]: the sum of their token
    counts, line feeds not counted. *)
Fixpoint sum_tokens (ls : list string) : Z :=
  match ls with
  | [] => 0
  | line :: rest => tokens count_tokens line + sum_tokens rest
  end.

(** What the tests of lines 258 and 276 (and 328) leave true of the lines
    [ls] emitted as part [n] of [filename]: their token counts and that of
    the part header add up to the budget at most; or the part is a single
    line, put there without that test, which was within what the header of
    the part before left of the budget (line 258, when the file has a line
    that is too long) or within what the header of the file left of it
    (line 241, when it has none). *)
Definition part_within (filename : string) (n : nat) (ls : list string)
    : Prop :=
  sum_tokens ls + tokens count_tokens (part_header n filename) ≤ token_limit
  ∨ ∃ line,
      ls = [line]
      ∧ (((2 ≤ n)%nat
          ∧ tokens count_tokens line
            + tokens count_tokens (part_header (n - 1) filename)
            ≤ token_limit)
         ∨ tokens count_tokens line
           + tokens count_tokens (format_file_section filename "")
           ≤ token_limit).

(** A line that the test of line 258, under the header of part [n], or
    the test of line 241, under the header of the file, lets through. *)
Definition admitted (filename : string) (n : nat) (line : string) : Prop :=
  tokens count_tokens line + tokens count_tokens (part_header n filename)
    ≤ token_limit
  ∨ tokens count_tokens line
    + tokens count_tokens (format_file_section filename "")
    ≤ token_limit.

(** How the line-by-line loops turn the lines of a file into the bodies of
    its numbered parts, the first one being part [n]: a body is either a
    run of consecutive lines joined by line feeds, within the bounds of
    [part_within], or one of the fragments of a line handed to
    [split_long_line]. *)
Inductive parts_of (filename : string)
    : nat → list string → list string → Prop :=
| parts_done n : parts_of filename n [] []
| parts_joined n ls rest bodies :
    ls ≠ [] →
    part_within filename n ls →
    parts_of filename (n + 1) rest bodies →
    parts_of filename n (ls ++ rest) (join_lines ls :: bodies)
| parts_split n line rest frags bodies :
    fragments count_tokens token_limit filename n line frags →
    parts_of filename (n + length frags) rest bodies →
    parts_of filename n (line :: rest) (frags ++ bodies).

(** Where the chunks of the numbered parts of a file sit in the output: the
    chunks of [st] are those of [st0], then the numbered parts, with the
    accumulator of [st0] flushed among them at most once. *)
Definition laid_out (st0 : state) (filename : string)
    (bodies : list string) (st : state) : Prop :=
  ∃ l1 fl l2,
    chunks st = chunks st0 ++ l1 ++ fl ++ l2
    ∧ l1 ++ l2 = numbered filename 1 bodies
    ∧ ((fl = [] ∧ current_chunk st = current_chunk st0)
       ∨ (fl = [strip (current_chunk st0)]
          ∧ all_space (current_chunk st0) = false
          ∧ current_chunk st = "")).

(** The invariant of the line-by-line loops, [done] being the lines
    already visited: the lines still in [part_lines] are the last ones
    visited, the others went into the bodies of the parts emitted so far. *)
Definition loop_emitted (st0 : state) (filename : string)
    (done : list string) (ps : part_state) : Prop :=
  ∃ bodies emitted,
    done = emitted ++ part_lines ps
    ∧ parts_of filename 1 emitted bodies
    ∧ part_number ps = (1 + length bodies)%nat
    ∧ laid_out st0 filename bodies (outer ps).

(** With it, what is known of the lines still in [part_lines]:
    [current_part_tokens] is the sum of their token counts, and they are
    within the bounds of a part. *)
Definition loop_ok (st0 : state) (filename : string) (done : list string)
    (ps : part_state) : Prop :=
  loop_emitted st0 filename done ps
  ∧ current_part_tokens ps = sum_tokens (part_lines ps)
  ∧ (part_lines ps = []
     ∨ part_within filename (part_number ps) (part_lines ps)).

(** What processing one file in whole-file mode does to the state. *)
Definition whole_effect (filename content : string) (st st' : state)
    : Prop :=
  let section := format_file_section filename content in
  let candidate := current_chunk st +:+ nl +:+ nl +:+ section in
  tokens count_tokens section ≤ token_limit
  ∧ ((current_chunk st = ""
      ∧ chunks st' = chunks st ∧ current_chunk st' = section)
     ∨ (current_chunk st ≠ ""
        ∧ tokens count_tokens candidate ≤ token_limit
        ∧ chunks st' = chunks st ∧ current_chunk st' = candidate)
     ∨ (current_chunk st ≠ ""
        ∧ token_limit < tokens count_tokens candidate
        ∧ chunks st' = chunks (flush_current_chunk st)
        ∧ current_chunk st' = section)).

(** What processing one file line by line does to the state. *)
Definition parts_effect (filename content : string) (st st' : state)
    : Prop :=
  ∃ bodies,
    parts_of filename 1 (split_lines content) bodies
    ∧ laid_out st filename bodies st'.

(** What the whole-file mode adds after the text of an accumulator:
    nothing, or a blank line and further sections. *)
Definition extension (post : string) : Prop :=
  post = "" ∨ ∃ rest, post = nl +:+ nl +:+ "File: " +:+ rest.

(** How the state moves on: the chunks already emitted stay where they
    are, and an accumulator that holds text is either extended or emitted,
    trimmed, possibly after having been extended. *)
Definition evolves (st st' : state) : Prop :=
  chunks st `prefix_of` chunks st'
  ∧ (all_space (current_chunk st) = true
     ∨ ∃ post,
         extension post
         ∧ (current_chunk st' = current_chunk st +:+ post
            ∨ strip (current_chunk st +:+ post) ∈ chunks st')).

Variable content_by_file : gmap string string.

(** The texts the whole-file mode accumulates: sections of files of the
    mapping, separated by blank lines, each addition checked against the
    budget. *)
Inductive packed : string → Prop :=
| packed_first filename content :
    content_by_file !! filename = Some content →
    tokens count_tokens (format_file_section filename content)
      ≤ token_limit →
    packed (format_file_section filename content)
| packed_next acc filename content :
    packed acc →
    content_by_file !! filename = Some content →
    tokens count_tokens
      (acc +:+ nl +:+ nl +:+ format_file_section filename content)
      ≤ token_limit →
    packed (acc +:+ nl +:+ nl +:+ format_file_section filename content).

(** Where an emitted chunk comes from. *)
Inductive origin : string → Prop :=
| origin_packed acc :
    packed acc →
    tokens count_tokens acc ≤ token_limit →
    origin (strip acc)
| origin_lines filename content n before ls after :
    content_by_file !! filename = Some content →
    (1 ≤ n)%nat →
    ls ≠ [] →
    split_lines content = before ++ ls ++ after →
    part_within filename n ls →
    origin (format_file_section (part_name n filename) (join_lines ls))
| origin_fragment filename content n line pre remaining k :
    content_by_file !! filename = Some content →
    (1 ≤ n)%nat →
    line ∈ split_lines content →
    line = pre +:+ remaining →
    (1 ≤ k ≤ String.length remaining)%nat →
    tokens count_tokens (slice_to k remaining)
      ≤ token_limit - tokens count_tokens (part_header n filename)
    ∨ (k = Nat.max 1 (String.length remaining / 2)
       ∧ token_limit - tokens count_tokens (part_header n filename)
         < tokens count_tokens (slice_to 1 remaining)) →
    origin
      (format_file_section (part_name n filename) (slice_to k remaining)).

(** The invariant of the loop over the files. *)
Definition state_ok (st : state) : Prop :=
  Forall origin (chunks st)
  ∧ (current_chunk st = "" ∨ packed (current_chunk st)).

End Layout.


(** ** The properties claimed of the chunker, as they are worded *)

(** Every chunk is within the budget, unless its body is a single
    character. *)
Definition budget_respected (count_tokens : string → nat) (token_limit : Z)
    (out : list string) : Prop :=
  ∀ chunk, chunk ∈ out →
    tokens count_tokens chunk ≤ token_limit
    ∨ String.length (chunk_body chunk) = 1%nat.

(** No chunk starts or ends with white space. *)
Definition all_trimmed (out : list string) : Prop :=
  ∀ chunk, chunk ∈ out → strip chunk = chunk.

(** The bodies of the chunks, headers removed, give back the content up to
    line feeds. *)
Definition bodies_rebuild (content : string) (out : list string) : Prop :=
  remove_newlines (concat_bodies (chunk_body <$> out))
  = remove_newlines content.

(** Forced progress is minimal: every fragment emitted is one character. *)
Definition minimal_fragments (out : list string) : Prop :=
  ∀ chunk, chunk ∈ out → String.length (chunk_body chunk) = 1%nat.

(** Some chunk has an empty body under the header line of [filename]. *)
Definition has_empty_bodied_chunk (filename : string) (out : list string)
    : Prop :=
  ∃ chunk,
    chunk ∈ out
    ∧ startswith ("File: " +:+ filename) chunk = true
    ∧ chunk_body chunk = "".

(** [glob_files] fails, [allow_missing] being false. *)
Definition fails_when_missing (fs : Files.filesystem) (base_path : string)
    (target_dir : string) (ignore_patterns : list string) : Prop :=
  ∃ e,
    Files.glob_files fs base_path target_dir ignore_patterns false = inl e.


(** ** The chunker with a tokenizer that can raise

    [count_tokens] of [parser.py] is [len(encoder.encode(text))], and
    [tiktoken] raises [ValueError] on a text that holds one of its special
    tokens.  Nothing in [split_long_line] or [chunk_content] catches it.
    Here [count_tokens] answers with a count or with the exception, and the
    functions are those of the source once more, each call of [count_tokens]
    in its place, the one inside the [print] of line 194 included.  The
    functions of the section [Chunker] above are the same code for a
    tokenizer that always answers; [refines] below relates the two. *)

Module Raising.

(** The outcome of a run: [None] when a loop bound is exhausted (or on a
    [KeyError]), else the exception raised or the value returned. *)
Definition run (A : Type) : Type := option (Files.exception + A).

Definition ret {A : Type} (a : A) : run A := Some (inr a).

Definition bind {A B : Type} (m : run A) (k : A → run B) : run B :=
  match m with
  | None => None
  | Some (inl e) => Some (inl e)
  | Some (inr a) => k a
  end.

Notation "'let*' x ':=' m 'in' k" := (bind m (λ x, k))
  (at level 10, x name, m at level 100, k at level 200,
   format "'[v' 'let*'  x  ':='  m  'in' '/' k ']'").

Section Chunker.

(** [count_tokens]: [len(encoder.encode(text))], or what [encode]
    raises. *)
Variable count_tokens : string → Files.exception + nat.

Definition tokens (text : string) : run Z :=
  match count_tokens text with
  | inl e => Some (inl e)
  | inr n => Some (inr (Z.of_nat n))
  end.

(** *** [split_long_line] *)

(** The binary search, lines 177-183. *)
Fixpoint bisect (fuel : nat) (current_part : string)
    (available_tokens : Z) (left right : nat) : run nat :=
  if Z.of_nat left <? Z.of_nat right - 1 then
    match fuel with
    | O => None
    | S fuel' =>
        let mid := ((left + right) / 2)%nat in
        let* mid_tokens := tokens (slice_to mid current_part) in
        if mid_tokens <=? available_tokens
        then bisect fuel' current_part available_tokens mid right
        else bisect fuel' current_part available_tokens left mid
    end
  else ret left.

(** The loop of lines 175-191. *)
Fixpoint shrink (fuel : nat) (remaining current_part : string)
    (available_tokens : Z) : run string :=
  let* part_tokens := tokens current_part in
  if part_tokens >? available_tokens then
    match fuel with
    | O => None
    | S fuel' =>
        let* left := bisect (String.length current_part) current_part
                       available_tokens 0 (String.length current_part) in
        let current_part := slice_to left current_part in
        if nonempty current_part
        then shrink fuel' remaining current_part available_tokens
        else
          ret (slice_to (Nat.max 1 (String.length remaining / 2))
                 remaining)
    end
  else ret current_part.

(** The outer loop of lines 167-203; line 194 counts the tokens of the
    chunk for the message it prints. *)
Fixpoint split_loop (fuel : nat) (line filename : string)
    (token_limit : Z) (remaining : string) (part_number : nat)
    (line_chunks : list string) : run (list string) :=
  if nonempty remaining then
    match fuel with
    | O => None
    | S fuel' =>
        let prefix := pad3 part_number in
        let header :=
          format_file_section (prefix +:+ "_" +:+ filename) "" in
        let* header_tokens := tokens header in
        let available_tokens := token_limit - header_tokens in
        let* current_part := shrink (S (String.length remaining))
                               remaining remaining available_tokens in
        let chunk :=
          format_file_section (prefix +:+ "_" +:+ filename)
            current_part in
        let* _ := tokens chunk in
        let line_chunks := line_chunks ++ [chunk] in
        let remaining :=
          slice_from (String.length current_part) remaining in
        let part_number := (part_number + 1)%nat in
        let remaining :=
          if (String.length remaining =? String.length line)%nat
          then slice_from 1 remaining else remaining in
        split_loop fuel' line filename token_limit remaining part_number
          line_chunks
    end
  else ret line_chunks.

Definition split_long_line (line filename : string) (part_number : nat)
    (token_limit : Z) : run (list string) :=
  split_loop (String.length line) line filename token_limit line
    part_number [].

(** *** [chunk_content] *)

(** Lines 235-244: the loop that looks for a line that is too long, left
    with [break] at the first one. *)
Fixpoint has_long_lines (filename : string) (token_limit : Z)
    (lines : list string) : run bool :=
  match lines with
  | [] => ret false
  | line :: rest =>
      let header := format_file_section filename "" in
      let* line_tokens := tokens line in
      let* header_tokens := tokens header in
      if line_tokens >? token_limit - header_tokens then ret true
      else has_long_lines filename token_limit rest
  end.

(** Lines 276-292 and 328-344, the two counts being those of lines
    255-256 and 325-326. *)
Definition accumulate_line (filename : string) (token_limit : Z)
    (header_tokens line_tokens : Z) (ps : part_state) (line : string)
    : part_state :=
  if current_part_tokens ps + line_tokens + header_tokens <=? token_limit
  then
    PartState (outer ps) (part_number ps) (part_lines ps ++ [line])
      (current_part_tokens ps + line_tokens)
  else
    match part_lines ps with
    | _ :: _ =>
        PartState
          (append_part filename (part_number ps)
             (join_lines (part_lines ps)) (outer ps))
          (part_number ps + 1) [line] line_tokens
    | [] =>
        PartState (append_part filename (part_number ps) line (outer ps))
          (part_number ps + 1) [] (current_part_tokens ps)
    end.

(** The body of the loop of lines 253-292. *)
Definition split_line_step (filename : string) (token_limit : Z)
    (ps : part_state) (line : string) : run part_state :=
  let header :=
    format_file_section (part_name (part_number ps) filename) "" in
  let* header_tokens := tokens header in
  let* line_tokens := tokens line in
  if line_tokens >? token_limit - header_tokens then
    let ps := flush_part_lines filename ps in
    let* line_chunks := split_long_line line filename (part_number ps)
                          token_limit in
    ret
      (PartState
         (State (chunks (outer ps) ++ line_chunks)
            (current_chunk (outer ps)) (current_chunk_tokens (outer ps)))
         (part_number ps + length line_chunks) (part_lines ps)
         (current_part_tokens ps))
  else
    ret (accumulate_line filename token_limit header_tokens line_tokens
           ps line).

Fixpoint split_lines_loop (filename : string) (token_limit : Z)
    (ps : part_state) (lines : list string) : run part_state :=
  match lines with
  | [] => ret ps
  | line :: rest =>
      let* ps := split_line_step filename token_limit ps line in
      split_lines_loop filename token_limit ps rest
  end.

(** The body of the loop of lines 323-344. *)
Definition accumulate_step (filename : string) (token_limit : Z)
    (ps : part_state) (line : string) : run part_state :=
  let header :=
    format_file_section (part_name (part_number ps) filename) "" in
  let* header_tokens := tokens header in
  let* line_tokens := tokens line in
  ret (accumulate_line filename token_limit header_tokens line_tokens
         ps line).

Fixpoint accumulate_lines (filename : string) (token_limit : Z)
    (ps : part_state) (lines : list string) : run part_state :=
  match lines with
  | [] => ret ps
  | line :: rest =>
      let* ps := accumulate_step filename token_limit ps line in
      accumulate_lines filename token_limit ps rest
  end.

(** The body of the loop over the files, lines 230-350. *)
Definition process_file (token_limit : Z) (st : state)
    (filename content : string) : run state :=
  let lines := split_lines content in
  let* long := has_long_lines filename token_limit lines in
  if long : bool then
    let* ps := split_lines_loop filename token_limit
                 (PartState st 1 [] 0) lines in
    ret (finish_parts filename ps)
  else
    let full_section := format_file_section filename content in
    let* section_tokens := tokens full_section in
    if section_tokens <=? token_limit then
      if nonempty (current_chunk st) then
        let candidate :=
          current_chunk st +:+ nl +:+ nl +:+ full_section in
        let* candidate_tokens := tokens candidate in
        if candidate_tokens <=? token_limit
        then ret (State (chunks st) candidate candidate_tokens)
        else
          let st := flush_current_chunk st in
          ret (State (chunks st) full_section section_tokens)
      else ret (State (chunks st) full_section section_tokens)
    else
      let* ps := accumulate_lines filename token_limit
                   (PartState st 1 [] 0) lines in
      ret (finish_parts filename ps).

Fixpoint process_files (token_limit : Z)
    (content_by_file : gmap string string) (st : state)
    (filenames : list string) : run state :=
  match filenames with
  | [] => ret st
  | filename :: rest =>
      match content_by_file !! filename with
      | None => None
      | Some content =>
          let* st := process_file token_limit st filename content in
          process_files token_limit content_by_file st rest
      end
  end.

Definition chunk_content (content_by_file : gmap string string)
    (token_limit : Z) : run (list string) :=
  let* st := process_files token_limit content_by_file (State [] "" 0)
               (sorted_keys content_by_file) in
  ret (chunks (flush_current_chunk st)).

(** A run either raises something the tokenizer raised, or it does what
    the run [total] does, which is the same code over a tokenizer that
    always answers. *)
Definition refines {A : Type} (r : run A) (total : option A) : Prop :=
  (∃ e text, r = Some (inl e) ∧ count_tokens text = inl e)
  ∨ r = match total with
        | Some a => Some (inr a)
        | None => None
        end.

End Chunker.

End Raising.

(** The tokenizer [counts] gives each text the number of tokens
    [count_tokens] gives it, whenever [count_tokens] gives one. *)
Definition agrees (count_tokens : string → Files.exception + nat)
    (counts : string → nat) : Prop :=
  ∀ text n, count_tokens text = inr n → counts text = n.

(** The count where there is one, and zero elsewhere. *)
Definition answered (count_tokens : string → Files.exception + nat)
    (text : string) : nat :=
  match count_tokens text with
  | inr n => n
  | inl _ => 0%nat
  end.

(** One token per character, never raising. *)
Definition char_count (text : string) : Files.exception + nat :=
  inr (String.length text).

(** A substring test: [sub in s]. *)
Fixpoint holds (sub s : string) : bool :=
  startswith sub s
  || match s with
     | "" => false
     | String _ s' => holds sub s'
     end.

(** One token per character, raising, as [tiktoken] does, on a text that
    holds the special token [<|endoftext|>]. *)
Definition refusing_count (text : string) : Files.exception + nat :=
  if holds "<|endoftext|>" text
  then inl (Files.ValueError "disallowed special token <|endoftext|>")
  else inr (String.length text).

(** The blank-line separated sections of a list of files: the text of an
    accumulator of whole files. *)
Definition sections_text (files : list (string * string)) : string :=
  String.concat (nl +:+ nl)
    (map (λ file, format_file_section file.1 file.2) files).

(** [chunk_content] terminates without raising and returns a sequence that
    is not empty. *)
Definition returns_chunks (count_tokens : string → Files.exception + nat)
    (content_by_file : gmap string string) (token_limit : Z) : Prop :=
  ∃ out,
    Raising.chunk_content count_tokens content_by_file token_limit
    = Some (inr out)
    ∧ out ≠ [].

(** ** The ledger of a run: where every file went *)

(** The chunks of the accumulators [groups]: each is the text of the
    sections of its files, trimmed. *)
Definition accumulator_chunks (groups : list (list (string * string)))
    : list string :=
  map (λ group, strip (sections_text group)) groups.

(** The chunks of the files cut into parts: for each file, with its content
    and the bodies of its parts, the parts numbered from 1. *)
Definition part_chunks (cut : list (string * string * list string))
    : list string :=
  flat_map (λ entry, numbered entry.1.1 1 entry.2) cut.

(** What holds while the files are gone through: the chunks emitted are
    those of the accumulators flushed so far and of the files cut so far,
    the accumulator holds the sections of [pending], and the files [done]
    are those of the accumulators, of [pending] and of [cut]. *)
Definition ledger (content_by_file : gmap string string)
    (done : list string) (st : state)
    (groups : list (list (string * string)))
    (pending : list (string * string))
    (cut : list (string * string * list string)) : Prop :=
  chunks st ≡ₚ accumulator_chunks groups ++ part_chunks cut
  ∧ current_chunk st = sections_text pending
  ∧ Forall (λ group, group ≠ []) groups
  ∧ (List.concat groups ++ pending).*1 ++ map (λ entry, entry.1.1) cut
    ≡ₚ done
  ∧ Forall (λ file, content_by_file !! file.1 = Some file.2)
      (List.concat groups ++ pending)
  ∧ Forall
      (λ entry,
         content_by_file !! entry.1.1 = Some entry.1.2
         ∧ remove_newlines (concat_bodies entry.2)
           = remove_newlines entry.1.2
         ∧ numbered entry.1.1 1 entry.2 `sublist_of` chunks st)
      cut.


(** ** A small file system to run the filter and the concatenator on *)

(** Under [/repo/src]: a text file [a.txt], and [logo.txt], a file with a
    text extension whose third byte is null.  No pattern matches; the empty
    pattern and [.] are refused. *)
Definition demo_fs : Files.filesystem := {|
  Files.joinpath base rel := base +:+ "/" +:+ rel;
  Files.path_exists p := String.eqb p "/repo/src";
  Files.is_file p :=
    String.eqb p "/repo/src/a.txt" || String.eqb p "/repo/src/logo.txt";
  Files.rglob p :=
    if String.eqb p "/repo/src"
    then ["/repo/src/a.txt"; "/repo/src/logo.txt"] else [];
  Files.path_match p pattern :=
    if String.eqb pattern "" || String.eqb pattern "."
    then inl (Files.ValueError "empty pattern")
    else inr false;
  Files.guess_type p := Some "text/plain";
  Files.read_bytes p :=
    if String.eqb p "/repo/src/a.txt"
    then Some [Byte.x68; Byte.x69]
    else if String.eqb p "/repo/src/logo.txt"
    then Some [Byte.x89; Byte.x50; Byte.x00; Byte.x47]
    else None;
  Files.relative_to p base :=
    if startswith (base +:+ "/") p
    then inr (slice_from (String.length base + 1) p)
    else inl (Files.ValueError "not in the subpath");
  Files.read_text p :=
    if String.eqb p "/repo/src/a.txt" then inr "hi" else inl Files.OSError
|}.

(** A tree in which the target [/repo/notes.txt] is a regular file: the path
    exists, no directory is there, and [rglob] finds nothing under it. *)
Definition file_target_fs : Files.filesystem := {|
  Files.joinpath base rel := base +:+ "/" +:+ rel;
  Files.path_exists p := String.eqb p "/repo/notes.txt";
  Files.is_file p := String.eqb p "/repo/notes.txt";
  Files.rglob p := [];
  Files.path_match p pattern := inr false;
  Files.guess_type p := Some "text/plain";
  Files.read_bytes p := Some [];
  Files.relative_to p base := inl (Files.ValueError "not in the subpath");
  Files.read_text p := inr ""
|}.


(** ** Vocabulary for the concatenator *)

(** What the test on the ignore patterns gives for a file that [glob_files]
    or [collect_files] keeps or skips: the answer of [any], [false] where it
    raises. *)
Definition matched (fs : Files.filesystem) (ignore_patterns : list string)
    (file : string) : bool :=
  match Files.any_match fs file ignore_patterns with
  | inr b => b
  | inl _ => false
  end.

(** The exception, if any, that one candidate makes [glob_files] raise: that
    of the first pattern that raises before any pattern matches, for a
    regular file. *)
Definition candidate_error (fs : Files.filesystem)
    (ignore_patterns : list string) (file : string)
    : option Files.exception :=
  if negb (Files.is_file fs file) then None
  else
    match Files.any_match fs file ignore_patterns with
    | inl e => Some e
    | inr _ => None
    end.

(** The lines [concatenate_files] adds for one file: none for a file it
    passes over (binary, or raising [UnicodeDecodeError]), else a blank line,
    the [File:] line and the content. *)
Definition section_lines (fs : Files.filesystem) (base_path file : string)
    : list string :=
  if Files.is_binary_file fs file then []
  else
    match Files.relative_to fs file base_path, Files.read_text fs file with
    | inr relative_path, inr content =>
        [""; "File: " +:+ relative_path; content]
    | _, _ => []
    end.

(** The exception, if any, that one file makes [concatenate_files] raise. *)
Definition file_error (fs : Files.filesystem) (base_path file : string)
    : option Files.exception :=
  if Files.is_binary_file fs file then None
  else
    match Files.relative_to fs file base_path with
    | inl Files.UnicodeDecodeError => None
    | inl e => Some e
    | inr _ =>
        match Files.read_text fs file with
        | inl Files.UnicodeDecodeError => None
        | inl e => Some e
        | inr _ => None
        end
    end.

(** The six lines that open the text of [concatenate_files]. *)
Definition metadata_lines (now : string) (files : list string)
    (repository_url target_dir : string) : list string :=
  [ "# Metadata";
    "total_tokens: 0";
    "file_count: " +:+ pretty (length files);
    "repository: " +:+ repository_url;
    "target_directory: " +:+ target_dir;
    "generated: " +:+ now ].

(** ** Vocabulary for the chunker on one file *)

(** The output is the numbered parts of the file, and nothing else; their
    bodies are the content up to line feeds. *)
Definition cut_into_parts (count_tokens : string → nat) (token_limit : Z)
    (filename content : string) (out : list string) : Prop :=
  ∃ bodies,
    out = numbered filename 1 bodies
    ∧ parts_of count_tokens token_limit filename 1 (split_lines content)
        bodies
    ∧ remove_newlines (concat_bodies bodies) = remove_newlines content.


(** ** [spacy_utils.py]: splitting and truncating text *)

Module Spacy.

(** Where a slice bound [k] falls in a sequence of length [len]: counted
    from the end when negative, as in [s[:k]] and [s[k:]]. *)
Definition slice_bound (len : nat) (k : Z) : nat :=
  if 0 <=? k then Z.to_nat k else Z.to_nat (Z.max 0 (Z.of_nat len + k)).

(** [s[:k]] and [s[k:]] on strings, for any integer [k]. *)
Definition str_upto (k : Z) (s : string) : string :=
  slice_to (slice_bound (String.length s) k) s.

Definition str_from (k : Z) (s : string) : string :=
  slice_from (slice_bound (String.length s) k) s.

(** [l[:k]] and [l[k:]] on lists, for any integer [k]. *)
Definition list_upto {A : Type} (k : Z) (l : list A) : list A :=
  take (slice_bound (length l) k) l.

Definition list_from {A : Type} (k : Z) (l : list A) : list A :=
  drop (slice_bound (length l) k) l.

(** The loop of lines 76-78 of [split_text_into_chunks]:
    [while line: chunks.append(line[:chunk_size]); line = line[chunk_size:]],
    run for at most [fuel] rounds. *)
Fixpoint cut_line (fuel : nat) (chunk_size : Z) (line : string)
    (chunks : list string) : option (list string) :=
  if nonempty line then
    match fuel with
    | O => None
    | S fuel' =>
        cut_line fuel' chunk_size (str_from chunk_size line)
          (chunks ++ [str_upto chunk_size line])
    end
  else Some chunks.

(** The variables of the loop over the lines. *)
Record split_state := SplitState {
  chunks : list string;
  current_chunk : list string;
  current_size : Z
}.

(** Lines 68-71: save the current chunk if it has content. *)
Definition save_current (st : split_state) : split_state :=
  match current_chunk st with
  | _ :: _ =>
      SplitState (chunks st ++ [join_lines (current_chunk st)]) [] 0
  | [] => st
  end.

(** The body of the loop over the lines, lines 63-82. *)
Definition split_step (fuel : nat) (chunk_size : Z) (st : split_state)
    (line : string) : option split_state :=
  let line_size := Z.of_nat (String.length line) + 1 in
  if current_size st + line_size >? chunk_size then
    let st := save_current st in
    if line_size >? chunk_size then
      chunks ← cut_line fuel chunk_size line (chunks st);
      Some (SplitState chunks (current_chunk st) (current_size st))
    else
      Some
        (SplitState (chunks st) (current_chunk st ++ [line])
           (current_size st + line_size))
  else
    Some
      (SplitState (chunks st) (current_chunk st ++ [line])
         (current_size st + line_size)).

Fixpoint split_lines_loop (fuel : nat) (chunk_size : Z) (st : split_state)
    (lines : list string) : option split_state :=
  match lines with
  | [] => Some st
  | line :: rest =>
      st ← split_step fuel chunk_size st line;
      split_lines_loop fuel chunk_size st rest
  end.

(** [split_text_into_chunks]; [fuel] bounds the rounds of the inner
    [while] loop, and [None] means that the bound was reached. *)
Definition split_text_into_chunks (fuel : nat) (text : string)
    (chunk_size : Z) : option (list string) :=
  if Z.of_nat (String.length text) <=? chunk_size then Some [text]
  else
    st ← split_lines_loop fuel chunk_size (SplitState [] [] 0)
           (split_lines text);
    Some (chunks (save_current st)).

Section Truncate.

(** [nltk.tokenize.word_tokenize] *)
Variable word_tokenize : string → list string.

(** [truncate_text_by_tokens] *)
Definition truncate_text_by_tokens (text : string) (max_tokens : Z)
    : string :=
  let tokens := word_tokenize text in
  if Z.of_nat (length tokens) <=? max_tokens then text
  else
    let half_tokens := max_tokens / 2 in
    let start_tokens := list_upto half_tokens tokens in
    let end_tokens := list_from (- half_tokens) tokens in
    String.concat " " start_tokens +:+ "... "
    +:+ String.concat " " end_tokens.

End Truncate.

End Spacy.

(** A tokenizer that cuts at spaces, to run [truncate_text_by_tokens]. *)
Definition space_tokens (text : string) : list string := String.words text.

Section SpacyVocabulary.

Import Spacy.

(** The size the loop counts for a list of lines: one more than its length
    for each line. *)
Fixpoint counted_size (lines : list string) : Z :=
  match lines with
  | [] => 0
  | line :: rest => Z.of_nat (String.length line) + 1 + counted_size rest
  end.

(** What the loop holds of the text: the chunks saved, line feeds out,
    then the lines of the current chunk. *)
Definition held_text (st : split_state) : string :=
  remove_newlines (concat_bodies (chunks st))
  +:+ concat_bodies (current_chunk st).

Definition no_newline (line : string) : Prop := remove_newlines line = line.

(** The invariant for the sizes: the chunks saved are within the size, and
    [current_size] is the counted size of the current chunk, itself within
    the size when there is one. *)
Definition sizes_ok (chunk_size : Z) (st : split_state) : Prop :=
  Forall (λ c, Z.of_nat (String.length c) ≤ chunk_size) (chunks st)
  ∧ current_size st = counted_size (current_chunk st)
  ∧ current_size st ≤ chunk_size.

End SpacyVocabulary.


(** ** [parse_github_url] of [src/repomix/utils/git.py] *)

Module Git.

(** The exceptions that leave the functions of [git.py]. *)
Inductive exception :=
| ValueError (msg : string)
| IndexError.

Definition slash : ascii := "/"%char.

(** [s.rstrip(c)] for a one-character [c]. *)
Fixpoint rstrip_char (c : ascii) (s : string) : string :=
  match s with
  | "" => ""
  | String a s' =>
      match rstrip_char c s' with
      | "" => if Ascii.eqb a c then "" else String a ""
      | r => String a r
      end
  end.

(** [s.split(c)] for a one-character [c]: the list is never empty. *)
Fixpoint split_char (c : ascii) (s : string) : list string :=
  match s with
  | "" => [""]
  | String a s' =>
      if Ascii.eqb a c then "" :: split_char c s'
      else
        match split_char c s' with
        | part :: rest => String a part :: rest
        | [] => [String a ""]
        end
  end.

(** ['/'.join(l)] *)
Definition join_slash (l : list string) : string := String.concat "/" l.

Definition github : string := "https://github.com/".

Section ParseUrl.

(** [str(Path(url))] *)
Variable path_str : string → string.

(** What the [except Exception] clause raises, whatever was caught;
    [url] is by then the stripped one. *)
Definition invalid_url (url : string) : exception :=
  ValueError ("Invalid URL or path: " +:+ url).

Definition parse_github_url (url : string)
    : exception + (string * option string * string) :=
  let url := rstrip_char slash url in
  if negb (startswith github url) then inr (path_str url, None, "")
  else
    let parts := split_char slash url in
    if (length parts <? 5)%nat then inl (invalid_url url)
    else
      let repo_url := join_slash (take 5 parts) in
      if (5 <? length parts)%nat then
        match parts !! 5%nat with
        | None => inl (invalid_url url)
        | Some p5 =>
            if String.eqb p5 "tree" then
              if (length parts <? 7)%nat then inl (invalid_url url)
              else
                match parts !! 6%nat with
                | None => inl (invalid_url url)
                | Some branch =>
                    inr (repo_url, Some branch,
                         if (7 <? length parts)%nat
                         then "/" +:+ join_slash (drop 7 parts)
                         else "")
                end
            else inr (repo_url, None, "/" +:+ join_slash (drop 5 parts))
        end
      else inr (repo_url, None, "").

End ParseUrl.

(** [s.split(sep)] for a separator of one character or more: the
    occurrences of [sep] are found from the left and do not overlap.
    [skip] is the number of characters still to pass of the occurrence
    just found. *)
Fixpoint split_skip (sep : string) (skip : nat) (s : string)
    : list string :=
  match s with
  | "" => [""]
  | String a s' =>
      match skip with
      | S k => split_skip sep k s'
      | O =>
          if startswith sep s then
            "" :: split_skip sep (String.length sep - 1) s'
          else
            match split_skip sep 0 s' with
            | part :: rest => String a part :: rest
            | [] => [String a ""]
            end
      end
  end.

Definition split_str (sep s : string) : list string := split_skip sep 0 s.

(** [s.split(c, 1)]: cut at the first [c], if any. *)
Fixpoint split_once (c : ascii) (s : string) : list string :=
  match s with
  | "" => [""]
  | String a s' =>
      if Ascii.eqb a c then [""; s']
      else
        match split_once c s' with
        | part :: rest => String a part :: rest
        | [] => [String a ""]
        end
  end.

(** The dataclass [RepoInfo]. *)
Record RepoInfo := {
  repo_url : string;
  branch : string;
  target_dirs : list string
}.

(** What [parse_multi_urls] uses of [pathlib] and [os.path]; a path is
    given by the string it was made from. *)
Record pathlib := {
  (** [str(Path(url))] *)
  str_of : string → string;
  (** [Path(url).is_absolute()] *)
  is_absolute : string → bool;
  (** [str(Path(url).parent)] *)
  parent : string → string;
  (** [Path(url).name] *)
  name : string → string;
  (** [os.path.commonpath(paths)], raising [ValueError] *)
  commonpath : list string → exception + string;
  (** [str(Path(url).relative_to(base))], raising [ValueError] *)
  relative_to : string → string → exception + string
}.

(** [url[1:] if url.startswith('@') else url] *)
Definition strip_at (url : string) : string :=
  if startswith "@" url then slice_from 1 url else url.

(** The loop that checks the URLs after the first against its repository
    and branch. *)
Fixpoint check_urls (repo_url branch : string) (urls : list string)
    : exception + unit :=
  match urls with
  | [] => inr tt
  | url :: rest =>
      let parts := split_str "/tree/" url in
      if negb (length parts =? 2)%nat then
        inl (ValueError "Invalid GitHub URL format")
      else
        match parts !! 0%nat, parts !! 1%nat with
        | Some curr_repo, Some after =>
            match split_once slash after !! 0%nat with
            | Some curr_branch =>
                if negb (String.eqb curr_repo repo_url) then
                  inl (ValueError
                         "All URLs must be from the same repository")
                else if negb (String.eqb curr_branch branch) then
                  inl (ValueError "All URLs must use the same branch")
                else check_urls repo_url branch rest
            | None => inl IndexError
            end
        | _, _ => inl IndexError
        end
  end.

(** [[url.split('/tree/')[1].split('/', 1)[1] for url in cleaned_urls]] *)
Fixpoint tree_dirs (urls : list string) : exception + list string :=
  match urls with
  | [] => inr []
  | url :: rest =>
      match split_str "/tree/" url !! 1%nat with
      | None => inl IndexError
      | Some after =>
          match split_once slash after !! 1%nat with
          | None => inl IndexError
          | Some target_dir =>
              match tree_dirs rest with
              | inl e => inl e
              | inr dirs => inr (target_dir :: dirs)
              end
          end
      end
  end.

(** [[str(Path(url).relative_to(base)) for url in cleaned_urls]] *)
Fixpoint relative_dirs (pl : pathlib) (base : string) (urls : list string)
    : exception + list string :=
  match urls with
  | [] => inr []
  | url :: rest =>
      match relative_to pl url base with
      | inl e => inl e
      | inr target_dir =>
          match relative_dirs pl base rest with
          | inl e => inl e
          | inr dirs => inr (target_dir :: dirs)
          end
      end
  end.

Definition parse_multi_urls (pl : pathlib) (urls : list string)
    : exception + RepoInfo :=
  match urls with
  | [] => inl (ValueError "No URLs provided")
  | _ :: _ =>
      let cleaned_urls := map strip_at urls in
      let is_github := forallb (startswith github) cleaned_urls in
      let is_local :=
        forallb (λ url, negb (startswith github url)) cleaned_urls in
      if negb (is_github || is_local) then
        inl (ValueError "All URLs must be from the same repository")
      else if is_github then
        match cleaned_urls with
        | [] => inl IndexError
        | first_url :: others =>
            let parts := split_str "/tree/" first_url in
            if negb (length parts =? 2)%nat then
              inl (ValueError "Invalid GitHub URL format")
            else
              match parts !! 0%nat, parts !! 1%nat with
              | Some repo_url, Some after =>
                  match split_once slash after !! 0%nat with
                  | Some branch =>
                      match check_urls repo_url branch others with
                      | inl e => inl e
                      | inr _ =>
                          match tree_dirs cleaned_urls with
                          | inl e => inl e
                          | inr target_dirs =>
                              inr {| repo_url := repo_url;
                                     branch := branch;
                                     target_dirs := target_dirs |}
                          end
                      end
                  | None => inl IndexError
                  end
              | _, _ => inl IndexError
              end
        end
      else
        match cleaned_urls with
        | [] => inl IndexError
        | [url] =>
            if is_absolute pl url then
              inr {| repo_url := parent pl url;
                     branch := "master";
                     target_dirs := [name pl url] |}
            else
              let parts := split_once slash (str_of pl url) in
              match parts !! 0%nat with
              | None => inl IndexError
              | Some repo_url =>
                  inr {| repo_url := repo_url;
                         branch := "master";
                         target_dirs :=
                           match parts !! 1%nat with
                           | Some target_dir => [target_dir]
                           | None => ["."]
                           end |}
              end
        | first_url :: _ =>
            match commonpath pl (map (str_of pl) cleaned_urls) with
            | inl e => inl e
            | inr common_parent =>
                if negb (nonempty common_parent)
                   || String.eqb common_parent "."
                then
                  match split_once slash (str_of pl first_url) !! 0%nat
                  with
                  | None => inl IndexError
                  | Some repo_url =>
                      match relative_dirs pl repo_url cleaned_urls with
                      | inl e => inl e
                      | inr target_dirs =>
                          inr {| repo_url := repo_url;
                                 branch := "master";
                                 target_dirs := target_dirs |}
                      end
                  end
                else
                  match relative_dirs pl common_parent cleaned_urls with
                  | inl e => inl e
                  | inr target_dirs =>
                      inr {| repo_url := common_parent;
                             branch := "master";
                             target_dirs := target_dirs |}
                  end
            end
        end
  end.

End Git.

(** A string without the character [c]. *)
Fixpoint lacks (c : ascii) (s : string) : bool :=
  match s with
  | "" => true
  | String a s' => negb (Ascii.eqb a c) && lacks c s'
  end.

(** [/tree/<branch>] when there is a branch, nothing otherwise. *)
Definition tree_part (branch : option string) : string :=
  match branch with
  | Some b => "/tree/" +:+ b
  | None => ""
  end.

(** [url] is [repo/tree/branch] or [repo/tree/branch/...]: cut at [/tree/]
    it gives two parts, the repository and what follows, and the branch is
    what follows up to its first slash. *)
Definition tree_url (repo branch url : string) : Prop :=
  ∃ after,
    Git.split_str "/tree/" url = [repo; after]
    ∧ Git.split_once Git.slash after !! 0%nat = Some branch.

(** Nothing follows the branch of [url]. *)
Definition branch_only (url : string) : Prop :=
  ∃ repo after,
    Git.split_str "/tree/" url = [repo; after]
    ∧ lacks Git.slash after = true.

(** A [pathlib] for plain POSIX paths without [.] and [..], enough to run
    [parse_multi_urls] on a path. *)
Definition demo_pathlib : Git.pathlib := {|
  Git.str_of url := url;
  Git.is_absolute url := startswith "/" url;
  Git.parent url := Git.join_slash (removelast (Git.split_char Git.slash url));
  Git.name url := List.last (Git.split_char Git.slash url) "";
  Git.commonpath paths := inl (Git.ValueError "no common path");
  Git.relative_to url base :=
    if startswith (base +:+ "/") url
    then inr (slice_from (String.length base + 1) url)
    else inl (Git.ValueError "not in the subpath")
|}.


(** ** [collect_files] of [file_operations.py] and [multi_directory.py]

    The coroutines of [multi_directory.py] are modelled by what awaiting
    them gives; [os.walk] is a function of the directory. *)

Module MultiDir.

(** The exceptions that leave these functions: the [FileNotFoundError] of
    [collect_files], and what [Path.match] and [concatenate_files] let
    through. *)
Inductive exception :=
| FileNotFoundError (msg : string)
| Raised (e : Files.exception).

(** The dictionary [{"files": ..., "content": ...}]. *)
Record result := Result {
  files : list string;
  content : string
}.

(** Truthiness of [ignore_patterns]: neither [None] nor an empty list. *)
Definition given (ignore_patterns : option (list string)) : bool :=
  match ignore_patterns with
  | Some (_ :: _) => true
  | _ => false
  end.

Section WithFileSystem.

Variable fs : Files.filesystem.

(** [path.is_dir()] *)
Variable is_dir : string → bool.
(** [[(root, filenames) for root, _, filenames in os.walk(directory)]] *)
Variable walk : string → list (string * list string).
(** [Path(dir_path)] *)
Variable path_of : string → string.

(** The loop of [validate_directories]. *)
Fixpoint validate_loop (directories validated : list string)
    : Files.exception + list string :=
  match directories with
  | [] => inr validated
  | dir_path :: rest =>
      let path := path_of dir_path in
      if negb (Files.path_exists fs path) then
        inl (Files.ValueError
               ("Directory '" +:+ dir_path +:+ "' does not exist"))
      else if negb (is_dir path) then
        inl (Files.ValueError ("'" +:+ dir_path +:+ "' is not a directory"))
      else validate_loop rest (validated ++ [path])
  end.

Definition validate_directories (directories : list string)
    : Files.exception + list string :=
  validate_loop directories [].

(** [ignore_patterns and any(file_path.match(pattern) for ...)]: no
    pattern is tried when [ignore_patterns] is [None] or empty. *)
Definition skipped (ignore_patterns : option (list string))
    (file_path : string) : Files.exception + bool :=
  if given ignore_patterns
  then Files.any_match fs file_path (default [] ignore_patterns)
  else inr false.

(** The inner loop of [collect_files], over the file names of one
    [root]. *)
Fixpoint collect_names (ignore_patterns : option (list string))
    (root : string) (filenames files : list string)
    : Files.exception + list string :=
  match filenames with
  | [] => inr files
  | filename :: rest =>
      let file_path := Files.joinpath fs root filename in
      match skipped ignore_patterns file_path with
      | inl e => inl e
      | inr true => collect_names ignore_patterns root rest files
      | inr false =>
          collect_names ignore_patterns root rest (files ++ [file_path])
      end
  end.

(** The outer loop, over what [os.walk] yields. *)
Fixpoint collect_walk (ignore_patterns : option (list string))
    (walked : list (string * list string)) (files : list string)
    : Files.exception + list string :=
  match walked with
  | [] => inr files
  | (root, filenames) :: rest =>
      match collect_names ignore_patterns root filenames files with
      | inl e => inl e
      | inr files => collect_walk ignore_patterns rest files
      end
  end.

Definition collect_files (directory : string)
    (ignore_patterns : option (list string))
    : exception + list string :=
  if negb (Files.path_exists fs directory) then
    inl (FileNotFoundError ("Directory not found: " +:+ directory))
  else
    match collect_walk ignore_patterns (walk directory) [] with
    | inl e => inl (Raised e)
    | inr files => inr files
    end.

(** [process_directory]; [now] is [datetime.now().isoformat()] as
    [concatenate_files] reads it. *)
Definition process_directory (now directory repo_url target_dir : string)
    : exception + result :=
  match collect_files directory None with
  | inl e => inl e
  | inr [] => inr (Result [] "")
  | inr files =>
      match
        Files.concatenate_files fs now files directory repo_url target_dir
      with
      | inl e => inl (Raised e)
      | inr content => inr (Result files content)
      end
  end.

End WithFileSystem.

(** One round of the loop of [combine_results]. *)
Definition combine_step (acc : list string * list string) (r : result)
    : list string * list string :=
  let '(combined_files, combined_content) := acc in
  (combined_files ++ files r,
   if nonempty (content r) then combined_content ++ [content r]
   else combined_content).

Definition combine_results (results : list result) : result :=
  let '(combined_files, combined_content) :=
    fold_left combine_step results ([], []) in
  Result combined_files (String.concat (nl +:+ nl) combined_content).

End MultiDir.

(** Every file under a directory, as [os.walk] yields them. *)
Definition walked_files (fs : Files.filesystem)
    (walk : string → list (string * list string)) (directory : string)
    : list string :=
  flat_map (λ '(root, filenames), map (Files.joinpath fs root) filenames)
    (walk directory).

(** What the loops of [collect_files] give on the paths [paths], starting
    from [files]. *)
Definition collected (fs : Files.filesystem)
    (ignore_patterns : option (list string)) (paths files : list string)
    (outcome : Files.exception + list string) : Prop :=
  match outcome with
  | inr result =>
      Forall
        (λ file, ∃ b, MultiDir.skipped fs ignore_patterns file = inr b)
        paths
      ∧ result
        = files
          ++ List.filter
               (λ file,
                  negb (matched fs (default [] ignore_patterns) file))
               paths
  | inl e =>
      ∃ before file after,
        paths = before ++ file :: after
        ∧ Forall
            (λ file, ∃ b, MultiDir.skipped fs ignore_patterns file = inr b)
            before
        ∧ MultiDir.skipped fs ignore_patterns file = inl e
  end.

(** The [ValueError], if any, that one directory makes
    [validate_directories] raise. *)
Definition directory_error (fs : Files.filesystem) (is_dir : string → bool)
    (path_of : string → string) (dir_path : string)
    : option Files.exception :=
  if negb (Files.path_exists fs (path_of dir_path)) then
    Some (Files.ValueError ("Directory '" +:+ dir_path +:+ "' does not exist"))
  else if negb (is_dir (path_of dir_path)) then
    Some (Files.ValueError ("'" +:+ dir_path +:+ "' is not a directory"))
  else None.

(** [os.walk] over the demonstration tree. *)
Definition demo_walk (directory : string) : list (string * list string) :=
  if String.eqb directory "/repo/src"
  then [("/repo/src", ["a.txt"; "logo.txt"])]
  else [].

Definition demo_is_dir (path : string) : bool :=
  String.eqb path "/repo/src" || String.eqb path "/repo".


(** ** [collect_content] of [src/repomix/utils/files.py] *)

Module Collect.

(** What [collect_content] observes through [os] and [open]; [None] is
    an exception raised by the call. *)
Record os_view := {
  (** [[(root, files) for root, _, files in os.walk(directory)]] *)
  walk : string → list (string * list string);
  (** [os.path.join(root, file)] *)
  join : string → string → string;
  (** [os.path.getsize(file_path)] *)
  getsize : string → option Z;
  (** [open(file_path, 'rb').read(1024)] *)
  read_head : string → option (list Byte.byte);
  (** [open(file_path, 'r', encoding='utf-8')] succeeds *)
  opens : string → bool;
  (** [os.path.relpath(file_path, directory)] *)
  relpath : string → string → option string;
  (** [f.read()] on the file opened as text *)
  read : string → option string
}.

(** [s.replace(c, "")] for a one-character [c]. *)
Fixpoint remove_char (c : ascii) (s : string) : string :=
  match s with
  | "" => ""
  | String a s' =>
      if Ascii.eqb a c then remove_char c s' else String a (remove_char c s')
  end.

(** [sub in s] *)
Fixpoint contains (sub s : string) : bool :=
  startswith sub s
  || match s with
     | "" => false
     | String _ s' => contains sub s'
     end.

Definition star : ascii := "*"%char.

Section WithOs.

Variable os : os_view.

(** [any(pattern.replace("*", "") in file_path for pattern in ...)] *)
Definition ignored (ignore_patterns : list string) (file_path : string)
    : bool :=
  existsb (λ pattern, contains (remove_char star pattern) file_path)
    ignore_patterns.

(** The body of the [try], from the content so far to the content after
    it; the header is added before [f.read()] is called, and stays when
    [f.read()] raises. *)
Definition read_file_into (directory file_path content : string)
    : string :=
  match read_head os file_path with
  | None => content
  | Some head =>
      if Files.has_null_byte head then content
      else if negb (opens os file_path) then content
      else
        match relpath os file_path directory with
        | None => content
        | Some rel =>
            let content :=
              content +:+ nl +:+ nl +:+ "=== " +:+ rel +:+ " ===" +:+ nl
              +:+ nl in
            match read os file_path with
            | None => content
            | Some text => content +:+ text
            end
        end
  end.

(** The inner loop, over the files of one [root]. *)
Fixpoint collect_root (directory : string) (ignore_patterns : list string)
    (root : string) (files : list string) (content : string)
    : Files.exception + string :=
  match files with
  | [] => inr content
  | file :: rest =>
      let file_path := join os root file in
      if ignored ignore_patterns file_path then
        collect_root directory ignore_patterns root rest content
      else
        match getsize os file_path with
        | None => inl Files.OSError
        | Some size =>
            if size >? 1024 * 1024 then
              collect_root directory ignore_patterns root rest content
            else
              collect_root directory ignore_patterns root rest
                (read_file_into directory file_path content)
        end
  end.

(** The outer loop, over what [os.walk] yields. *)
Fixpoint collect_walk (directory : string) (ignore_patterns : list string)
    (walked : list (string * list string)) (content : string)
    : Files.exception + string :=
  match walked with
  | [] => inr content
  | (root, files) :: rest =>
      match collect_root directory ignore_patterns root files content with
      | inl e => inl e
      | inr content => collect_walk directory ignore_patterns rest content
      end
  end.

Definition collect_content (directory : string)
    (ignore_patterns : list string) : Files.exception + string :=
  match collect_walk directory ignore_patterns (walk os directory) "" with
  | inl e => inl e
  | inr content => inr (strip content)
  end.

End WithOs.

End Collect.

(** A string made of the character [c] only. *)
Fixpoint only (c : ascii) (s : string) : bool :=
  match s with
  | "" => true
  | String a s' => Ascii.eqb a c && only c s'
  end.

(** The paths [collect_content] goes through, in order. *)
Definition walked_paths (os : Collect.os_view) (directory : string)
    : list string :=
  flat_map (λ '(root, files), map (Collect.join os root) files)
    (Collect.walk os directory).

(** The path is not ignored and [os.path.getsize] raises on it. *)
Definition size_fails (os : Collect.os_view) (ignore_patterns : list string)
    (file_path : string) : bool :=
  negb (Collect.ignored ignore_patterns file_path)
  && match Collect.getsize os file_path with
     | None => true
     | Some _ => false
     end.

(** What one path adds to the content: nothing when it is ignored or larger
    than 1 MiB, else what the [try] adds. *)
Definition piece (os : Collect.os_view) (directory : string)
    (ignore_patterns : list string) (file_path : string) : string :=
  if Collect.ignored ignore_patterns file_path then ""
  else
    match Collect.getsize os file_path with
    | None => ""
    | Some size =>
        if size >? 1024 * 1024 then ""
        else Collect.read_file_into os directory file_path ""
    end.

(** A view of the demonstration tree for [collect_content]. *)
Definition demo_os : Collect.os_view := {|
  Collect.walk directory :=
    if String.eqb directory "/repo/src"
    then [("/repo/src", ["a.txt"; "logo.txt"])]
    else [];
  Collect.join root file := root +:+ "/" +:+ file;
  Collect.getsize file_path := Some 2;
  Collect.read_head file_path :=
    if String.eqb file_path "/repo/src/a.txt"
    then Some [Byte.x68; Byte.x69]
    else Some [Byte.x89; Byte.x50; Byte.x00; Byte.x47];
  Collect.opens file_path := true;
  Collect.relpath file_path directory :=
    Some (slice_from (String.length directory + 1) file_path);
  Collect.read file_path :=
    if String.eqb file_path "/repo/src/a.txt" then Some "hi" else None
|}.

(** ** Facts about the string primitives *)

Section StringFacts.

Lemma str_app_nil_l (s : string) : "" +:+ s = s.
Proof. done. Qed.

Lemma str_app_cons (c : ascii) (s1 s2 : string) :
  String c s1 +:+ s2 = String c (s1 +:+ s2).
Proof. done. Qed.

Lemma str_app_nil_r (s : string) : s +:+ "" = s.
Proof. induction s as [|c s IH]; [done|]. by rewrite str_app_cons, IH. Qed.

Lemma str_app_assoc (s1 s2 s3 : string) :
  (s1 +:+ s2) +:+ s3 = s1 +:+ (s2 +:+ s3).
Proof. induction s1 as [|c s1 IH]; [done|]. by rewrite !str_app_cons, IH. Qed.

Lemma str_length_app (s1 s2 : string) :
  String.length (s1 +:+ s2) = (String.length s1 + String.length s2)%nat.
Proof.
  induction s1 as [|c s1 IH]; [done|]. rewrite str_app_cons. simpl. by rewrite IH.
Qed.

Lemma nonempty_length (s : string) :
  nonempty s = true ↔ (0 < String.length s)%nat.
Proof. destruct s; simpl; split; (done || lia). Qed.

Lemma nonempty_false (s : string) : nonempty s = false ↔ s = "".
Proof. by destruct s. Qed.

Lemma slice_to_from (n : nat) (s : string) :
  slice_to n s +:+ slice_from n s = s.
Proof.
  revert s; induction n as [|n IH]; intros [|c s]; simpl; try done.
  by rewrite str_app_cons, IH.
Qed.

Lemma length_slice_to (n : nat) (s : string) :
  String.length (slice_to n s) = Nat.min n (String.length s).
Proof.
  revert s; induction n as [|n IH]; intros [|c s]; simpl; try done.
  by rewrite IH.
Qed.

Lemma length_slice_from (n : nat) (s : string) :
  String.length (slice_from n s) = (String.length s - n)%nat.
Proof.
  revert s; induction n as [|n IH]; intros [|c s]; simpl; try done.
Qed.

Lemma slice_to_all (n : nat) (s : string) :
  (String.length s ≤ n)%nat → slice_to n s = s.
Proof.
  revert s; induction n as [|n IH]; intros [|c s]; simpl; try done; [lia|].
  intros ?. rewrite IH; [done|lia].
Qed.

Lemma slice_to_slice_to (a b : nat) (s : string) :
  (a ≤ b)%nat → slice_to a (slice_to b s) = slice_to a s.
Proof.
  revert b s; induction a as [|a IH]; intros [|b] [|c s] ?; simpl;
    try done; [lia|].
  rewrite IH; [done|lia].
Qed.

Lemma all_space_app (s1 s2 : string) :
  all_space (s1 +:+ s2) = all_space s1 && all_space s2.
Proof.
  induction s1 as [|c s1 IH]; [done|]. rewrite str_app_cons. simpl.
  by rewrite IH, andb_assoc.
Qed.

Lemma lstrip_nonempty (s : string) :
  nonempty (lstrip s) = negb (all_space s).
Proof.
  induction s as [|c s IH]; [done|]. simpl. by destruct (isspace c).
Qed.

Lemma rstrip_all_space (s : string) : all_space (rstrip s) = all_space s.
Proof.
  induction s as [|c s IH]; [done|]. simpl.
  destruct (rstrip s) as [|c' r] eqn:Hr.
  - rewrite <- IH. simpl. destruct (isspace c) eqn:Hc; simpl; [done|].
    by rewrite Hc.
  - rewrite <- IH. done.
Qed.

Lemma strip_nonempty (s : string) :
  nonempty (strip s) = negb (all_space s).
Proof. unfold strip. by rewrite lstrip_nonempty, rstrip_all_space. Qed.

Lemma rstrip_cons (c : ascii) (s : string) :
  isspace c = false → rstrip (String c s) = String c (rstrip s).
Proof. intros Hc. simpl. rewrite Hc. by destruct (rstrip s). Qed.

Lemma rstrip_idemp (s : string) : rstrip (rstrip s) = rstrip s.
Proof.
  induction s as [|c s IH]; [done|]. simpl.
  destruct (rstrip s) as [|c' r] eqn:Hr.
  - destruct (isspace c) eqn:Hc; [done|]. simpl. by rewrite Hc.
  - change (rstrip (String c (String c' r)))
      with (match rstrip (String c' r) with
            | "" => if isspace c then "" else String c ""
            | r' => String c r'
            end).
    by rewrite IH.
Qed.

Lemma rstrip_suffix (s : string) :
  ∃ post, s = rstrip s +:+ post ∧ all_space post = true.
Proof.
  induction s as [|c s (post & IH & Hpost)]; [by exists ""|]. simpl.
  destruct (rstrip s) as [|c' r] eqn:Hr.
  - destruct (isspace c) eqn:Hc.
    + exists (String c s). split; [done|]. simpl. rewrite Hc.
      by rewrite <- rstrip_all_space, Hr.
    + exists s. split; [done|]. by rewrite <- rstrip_all_space, Hr.
  - exists post. split; [|done]. rewrite !str_app_cons.
    rewrite !str_app_cons in IH. by rewrite <- IH.
Qed.

Lemma lstrip_cons (c : ascii) (s : string) :
  isspace c = false → lstrip (String c s) = String c s.
Proof. intros Hc. simpl. by rewrite Hc. Qed.

Lemma str_concat_cons (sep a : string) (l : list string) :
  l ≠ [] → String.concat sep (a :: l) = a +:+ sep +:+ String.concat sep l.
Proof. by destruct l. Qed.

Lemma str_concat_app (sep : string) (l1 l2 : list string) :
  l1 ≠ [] → l2 ≠ [] →
  String.concat sep (l1 ++ l2)
  = String.concat sep l1 +:+ sep +:+ String.concat sep l2.
Proof.
  intros H1 H2. induction l1 as [|a l1 IH]; [done|].
  destruct l1 as [|b l1].
  - change ([a] ++ l2) with (a :: l2). by rewrite str_concat_cons.
  - change ((a :: b :: l1) ++ l2) with (a :: (b :: l1) ++ l2).
    rewrite !str_concat_cons by done. rewrite IH by done.
    by rewrite !str_app_assoc.
Qed.

Lemma str_concat_nonempty (sep : string) (l : list string) :
  l ≠ [] → Forall (λ s, nonempty s = true) l →
  nonempty (String.concat sep l) = true.
Proof.
  destruct l as [|a l]; [done|]. intros _ [Ha _]%Forall_cons.
  destruct l as [|b l]; [done|]. rewrite str_concat_cons by done.
  destruct a; [done|]. by rewrite str_app_cons.
Qed.

End StringFacts.

(** ** [split_long_line] terminates and cuts the line into fragments *)

Section SplitLongLine.

Variable count_tokens : string → nat.
Abbreviation tokens := (tokens count_tokens).

Local Arguments Nat.div : simpl never.

Lemma half_between (left right : nat) :
  Z.of_nat left < Z.of_nat right - 1 →
  (left < (left + right) / 2 < right)%nat.
Proof.
  intros H.
  pose proof (Nat.div_mod_eq (left + right) 2) as Hd.
  pose proof (Nat.mod_upper_bound (left + right) 2) as Hm.
  lia.
Qed.

Lemma bisect_spec fuel current_part available left right :
  (right - left ≤ fuel)%nat →
  ∃ l, bisect count_tokens fuel current_part available left right = Some l
       ∧ (left ≤ l)%nat
       ∧ (l < right ∨ l = left)%nat
       ∧ (l = left ∨ tokens (slice_to l current_part) ≤ available).
Proof.
  revert left right.
  induction fuel as [|fuel IH]; intros left right Hfuel; simpl.
  - destruct (Z.ltb_spec (Z.of_nat left) (Z.of_nat right - 1)); [lia|].
    exists left. auto with lia.
  - destruct (Z.ltb_spec (Z.of_nat left) (Z.of_nat right - 1)) as [Hlt|];
      [|exists left; auto with lia].
    apply half_between in Hlt.
    destruct (Z.leb_spec
                (tokens (slice_to ((left + right) / 2) current_part))
                available) as [Hfit|Hnofit].
    + destruct (IH ((left + right) / 2)%nat right) as (l & -> & ? & ? & ?);
        [lia|].
      exists l. repeat split; [lia|lia|]. right. by destruct H1 as [->|].
    + destruct (IH left ((left + right) / 2)%nat) as (l & -> & ? & ? & ?);
        [lia|].
      exists l. repeat split; [lia|lia|done].
Qed.

(** The binary search stops just below a prefix that is over the
    budget. *)
Lemma bisect_boundary fuel current_part available left right l :
  (left < right)%nat →
  available < tokens (slice_to right current_part) →
  bisect count_tokens fuel current_part available left right = Some l →
  available < tokens (slice_to (l + 1) current_part).
Proof.
  revert left right.
  induction fuel as [|fuel IH]; intros left right Hlr Hover; simpl.
  - destruct (Z.ltb_spec (Z.of_nat left) (Z.of_nat right - 1)); [done|].
    intros [= <-]. by replace (left + 1)%nat with right by lia.
  - destruct (Z.ltb_spec (Z.of_nat left) (Z.of_nat right - 1)) as [Hlt|].
    2:{ intros [= <-]. by replace (left + 1)%nat with right by lia. }
    apply half_between in Hlt.
    destruct (Z.leb_spec
                (tokens (slice_to ((left + right) / 2) current_part))
                available) as [Hfit|Hnofit].
    + apply IH; [lia|done].
    + apply IH; [lia|done].
Qed.

Lemma shrink_spec fuel remaining k available :
  (1 ≤ k ≤ String.length remaining)%nat →
  (k ≤ fuel)%nat →
  ∃ k', shrink count_tokens fuel remaining (slice_to k remaining) available
          = Some (slice_to k' remaining)
        ∧ (1 ≤ k' ≤ String.length remaining)%nat
        ∧ (tokens (slice_to k' remaining) ≤ available
           ∨ (k' = Nat.max 1 (String.length remaining / 2)
              ∧ available < tokens (slice_to 1 remaining))).
Proof.
  revert k. induction fuel as [|fuel IH]; intros k Hk Hfuel; [lia|].
  simpl.
  destruct (Z.gtb_spec (tokens (slice_to k remaining)) available) as [Hgt|];
    [|exists k; auto with lia].
  rewrite length_slice_to, Nat.min_l by lia.
  destruct (bisect_spec k (slice_to k remaining) available 0 k)
    as (l & Hbisect & _ & Hl & Hfit); [lia|].
  rewrite Hbisect.
  simpl. rewrite slice_to_slice_to by lia.
  destruct (nonempty (slice_to l remaining)) eqn:Hne.
  - apply nonempty_length in Hne. rewrite length_slice_to in Hne.
    assert (1 ≤ l)%nat by lia.
    apply IH; lia.
  - exists (Nat.max 1 (String.length remaining / 2)).
    split; [done|]. split.
    + pose proof (Nat.div_mod_eq (String.length remaining) 2). lia.
    + right. split; [done|].
      apply nonempty_false in Hne.
      apply (f_equal String.length) in Hne.
      rewrite length_slice_to in Hne. simpl in Hne.
      assert (l = 0%nat) as -> by lia.
      apply bisect_boundary in Hbisect; [|lia|].
      * by rewrite slice_to_slice_to in Hbisect by lia.
      * rewrite slice_to_slice_to by lia. lia.
Qed.

Lemma split_loop_spec fuel line filename limit remaining n line_chunks :
  (String.length remaining ≤ fuel)%nat →
  (String.length remaining ≤ String.length line)%nat →
  ∃ frags,
    split_loop count_tokens fuel line filename limit remaining n line_chunks
      = Some (line_chunks ++ numbered filename n frags)
    ∧ fragments count_tokens limit filename n remaining frags.
Proof.
  revert remaining n line_chunks.
  induction fuel as [|fuel IH]; intros remaining n line_chunks Hfuel Hline.
  - destruct remaining; simpl in *; [|lia].
    exists []. simpl. rewrite (right_id_L [] (++)). split; [done|constructor].
  - cbn [split_loop]. destruct (nonempty remaining) eqn:Hne.
    2:{ apply nonempty_false in Hne as ->. exists []. simpl.
        rewrite (right_id_L [] (++)). split; [done|constructor]. }
    apply nonempty_length in Hne.
    destruct (shrink_spec (S (String.length remaining)) remaining
                (String.length remaining)
                (limit - tokens (format_file_section
                            (pad3 n +:+ "_" +:+ filename) "")))
      as (k & Hshrink & Hk & Hfit); [lia..|].
    rewrite slice_to_all in Hshrink by lia. rewrite Hshrink.
    cbn [mbind option_bind].
    rewrite length_slice_to, Nat.min_l by lia.
    pose proof (length_slice_from k remaining) as Hlen.
    destruct (Nat.eqb_spec (String.length (slice_from k remaining))
                (String.length line)); [lia|].
    destruct (IH (slice_from k remaining) (n + 1)%nat
                (line_chunks ++
                   [format_file_section (pad3 n +:+ "_" +:+ filename)
                      (slice_to k remaining)]))
      as (frags & -> & Hfrags); [lia..|].
    exists (slice_to k remaining :: frags). split.
    + by rewrite <- (assoc_L (++)).
    + by constructor.
Qed.

Lemma split_long_line_spec line filename n limit :
  ∃ frags,
    split_long_line count_tokens line filename n limit
      = Some (numbered filename n frags)
    ∧ fragments count_tokens limit filename n line frags.
Proof.
  unfold split_long_line.
  destruct (split_loop_spec (String.length line) line filename limit line n [])
    as (frags & -> & ?); [done..|].
  by exists frags.
Qed.

End SplitLongLine.


(** ** What processing one file does to the state *)

Section LayoutFacts.

Variable count_tokens : string → nat.
Variable token_limit : Z.
Abbreviation tokens := (tokens count_tokens).
Abbreviation parts_of := (parts_of count_tokens token_limit).
Abbreviation loop_ok := (loop_ok count_tokens token_limit).

Lemma numbered_app filename n b1 b2 :
  numbered filename n (b1 ++ b2)
  = numbered filename n b1 ++ numbered filename (n + length b1) b2.
Proof.
  revert n. induction b1 as [|b b1 IH]; intros n; simpl.
  - by rewrite Nat.add_0_r.
  - rewrite IH. do 3 f_equal. lia.
Qed.

Lemma length_numbered filename n bodies :
  length (numbered filename n bodies) = length bodies.
Proof. revert n. induction bodies; intros n; simpl; auto. Qed.

Lemma sum_tokens_app (l1 l2 : list string) :
  sum_tokens count_tokens (l1 ++ l2)
  = sum_tokens count_tokens l1 + sum_tokens count_tokens l2.
Proof. induction l1 as [|a l1 IH]; simpl; lia. Qed.

Lemma parts_of_app filename n l1 b1 l2 b2 :
  parts_of filename n l1 b1 →
  parts_of filename (n + length b1) l2 b2 →
  parts_of filename n (l1 ++ l2) (b1 ++ b2).
Proof.
  induction 1
    as [n|n ls rest bodies Hls Hin _ IH|n line rest frags bodies Hfr _ IH];
    intros H2.
  - by rewrite Nat.add_0_r in H2.
  - rewrite <- (assoc_L (++)). simpl. constructor; [done..|].
    apply IH. simpl in H2.
    by replace (n + 1 + length bodies)%nat with (n + S (length bodies))%nat
      by lia.
  - simpl. rewrite <- (assoc_L (++)). constructor; [done|].
    apply IH. rewrite length_app in H2.
    by replace (n + length frags + length bodies)%nat
      with (n + (length frags + length bodies))%nat by lia.
Qed.

Lemma parts_of_joined filename n ls :
  ls ≠ [] →
  part_within count_tokens token_limit filename n ls →
  parts_of filename n ls [join_lines ls].
Proof.
  intros Hne Hin.
  pose proof (parts_joined count_tokens token_limit filename n ls [] []
                Hne Hin (parts_done _ _ _ _)) as H.
  by rewrite (right_id_L [] (++)) in H.
Qed.

Lemma parts_of_split filename n line frags :
  fragments count_tokens token_limit filename n line frags →
  parts_of filename n [line] frags.
Proof.
  intros Hfr.
  pose proof (parts_split count_tokens token_limit filename n line [] frags
                [] Hfr (parts_done _ _ _ _)) as H.
  by rewrite (right_id_L [] (++)) in H.
Qed.

Lemma has_long_lines_false filename lines :
  has_long_lines count_tokens filename token_limit lines = false →
  Forall
    (λ line,
       tokens line + tokens (format_file_section filename "")
       ≤ token_limit)
    lines.
Proof.
  unfold has_long_lines. induction lines as [|line lines IH]; [done|].
  cbn [existsb]. intros [Hline Hrest]%orb_false_iff.
  constructor; [|by apply IH].
  destruct (Z.gtb_spec (tokens line)
              (token_limit - tokens (format_file_section filename "")));
    [done|lia].
Qed.

Lemma flush_cases (st : state) :
  (all_space (current_chunk st) = true ∧ flush_current_chunk st = st)
  ∨ (all_space (current_chunk st) = false
     ∧ flush_current_chunk st
       = State (chunks st ++ [strip (current_chunk st)]) "" 0).
Proof.
  unfold flush_current_chunk. rewrite strip_nonempty.
  destruct (all_space (current_chunk st)); simpl; auto.
Qed.

Lemma laid_out_refl st0 filename : laid_out st0 filename [] st0.
Proof.
  exists [], [], []. simpl. rewrite (right_id_L [] (++)). auto.
Qed.

Lemma laid_out_append_part st0 filename bodies st body :
  laid_out st0 filename bodies st →
  laid_out st0 filename (bodies ++ [body])
    (append_part filename (1 + length bodies) body st).
Proof.
  intros (l1 & fl & l2 & Hch & Hnum & Hacc). unfold append_part.
  destruct (flush_cases st) as [[Hsp ->]|[Hsp ->]]; simpl.
  - exists l1, fl, (l2 ++ [format_file_section
                             (part_name (1 + length bodies) filename) body]).
    split; [|split; [|done]].
    + rewrite Hch. by rewrite <- !(assoc_L (++)).
    + rewrite numbered_app, <- Hnum. simpl. by rewrite <- (assoc_L (++)).
  - destruct Hacc as [[-> Hcc]|(_ & _ & Hcc)];
      [|by rewrite Hcc in Hsp].
    exists (l1 ++ l2), [strip (current_chunk st0)],
      [format_file_section (part_name (1 + length bodies) filename) body].
    split; [|split].
    + rewrite Hch, Hcc. simpl. by rewrite <- !(assoc_L (++)).
    + by rewrite numbered_app, <- Hnum.
    + right. by rewrite <- Hcc.
Qed.

Lemma laid_out_extend st0 filename bodies st more :
  laid_out st0 filename bodies st →
  laid_out st0 filename (bodies ++ more)
    (State (chunks st ++ numbered filename (1 + length bodies) more)
       (current_chunk st) (current_chunk_tokens st)).
Proof.
  intros (l1 & fl & l2 & Hch & Hnum & Hacc). simpl.
  exists l1, fl, (l2 ++ numbered filename (1 + length bodies) more).
  split; [|split; [|done]].
  - rewrite Hch. by rewrite <- !(assoc_L (++)).
  - rewrite numbered_app, <- Hnum. by rewrite <- (assoc_L (++)).
Qed.

Section OneFile.

Variable st0 : state.
Variable filename : string.

Abbreviation loop_emitted :=
  (loop_emitted count_tokens token_limit st0 filename).
Abbreviation part_within :=
  (part_within count_tokens token_limit filename).

Lemma loop_emitted_init : loop_emitted [] (PartState st0 1 [] 0).
Proof.
  exists [], []. repeat split; [constructor|apply laid_out_refl].
Qed.

Lemma loop_emitted_push done ps line z :
  loop_emitted done ps →
  loop_emitted (done ++ [line])
    (PartState (outer ps) (part_number ps) (part_lines ps ++ [line]) z).
Proof.
  intros (bodies & emitted & -> & Hparts & Hn & Hlay).
  exists bodies, emitted. simpl. by rewrite <- (assoc_L (++)).
Qed.

Lemma loop_emitted_flush_pending done ps z :
  loop_emitted done ps →
  part_lines ps ≠ [] →
  part_within (part_number ps) (part_lines ps) →
  loop_emitted done
    (PartState
       (append_part filename (part_number ps)
          (join_lines (part_lines ps)) (outer ps))
       (part_number ps + 1) [] z).
Proof.
  intros (bodies & emitted & -> & Hparts & Hn & Hlay) Hne Hin.
  exists (bodies ++ [join_lines (part_lines ps)]),
    (emitted ++ part_lines ps).
  simpl. rewrite (right_id_L [] (++)). split; [done|]. split; [|split].
  - apply parts_of_app; [done|]. apply parts_of_joined; [done|].
    by rewrite <- Hn.
  - rewrite length_app. simpl. lia.
  - rewrite Hn. by apply laid_out_append_part.
Qed.

Lemma loop_ok_init : loop_ok st0 filename [] (PartState st0 1 [] 0).
Proof. split; [apply loop_emitted_init|]. split; [done|by left]. Qed.

Lemma loop_ok_number done ps :
  loop_ok st0 filename done ps → (1 ≤ part_number ps)%nat.
Proof. intros [(bodies & emitted & _ & _ & -> & _) _]. lia. Qed.

Lemma accumulate_line_ok done ps line :
  loop_ok st0 filename done ps →
  admitted count_tokens token_limit filename (part_number ps) line →
  loop_ok st0 filename (done ++ [line])
    (accumulate_line count_tokens filename token_limit ps line).
Proof.
  intros Hok Hline. pose proof (loop_ok_number _ _ Hok) as Hn.
  destruct Hok as (Hem & Hcur & Hpending).
  unfold accumulate_line.
  destruct (Z.leb_spec
              (current_part_tokens ps + tokens line
               + tokens (format_file_section
                           (part_name (part_number ps) filename) ""))
              token_limit) as [Hfit|Hnofit].
  - split; [by apply loop_emitted_push|]. cbn [part_lines
      current_part_tokens part_number].
    rewrite sum_tokens_app, Hcur. cbn [sum_tokens].
    split; [lia|]. right. left.
    rewrite sum_tokens_app. cbn [sum_tokens]. unfold part_header. lia.
  - destruct (part_lines ps) as [|l ls] eqn:Hpl.
    + pose proof (loop_emitted_push done ps line
                    (current_part_tokens ps) Hem) as Hpush.
      rewrite Hpl in Hpush.
      apply (loop_emitted_flush_pending _ _ (current_part_tokens ps))
        in Hpush; [|done|].
      * split; [exact Hpush|]. cbn [part_lines current_part_tokens].
        split; [by rewrite Hcur|by left].
      * cbn [part_lines part_number].
        destruct Hline as [Hline|Hline].
        -- left. cbn [sum_tokens app]. lia.
        -- right. exists line. split; [done|]. by right.
    + destruct Hpending as [?|Hin]; [done|].
      pose proof (loop_emitted_flush_pending done ps 0 Hem) as Hfl.
      rewrite Hpl in Hfl. specialize (Hfl ltac:(done) Hin).
      apply (loop_emitted_push _ _ line (tokens line)) in Hfl.
      split; [exact Hfl|]. cbn [part_lines current_part_tokens
        part_number sum_tokens app].
      split; [lia|]. right. right. exists line. split; [done|].
      destruct Hline as [Hline|Hline]; [left|by right].
      split; [lia|]. by rewrite Nat.add_sub.
Qed.

Lemma flush_part_lines_ok done ps :
  loop_ok st0 filename done ps →
  loop_ok st0 filename done (flush_part_lines filename ps)
  ∧ part_lines (flush_part_lines filename ps) = [].
Proof.
  intros (Hem & Hcur & Hpending). unfold flush_part_lines.
  destruct (part_lines ps) as [|l ls] eqn:Hpl.
  - split; [|done]. split; [done|]. rewrite Hpl. split; [done|by left].
  - destruct Hpending as [?|Hin]; [done|].
    split; [|done].
    pose proof (loop_emitted_flush_pending done ps 0 Hem) as Hfl.
    rewrite Hpl in Hfl. split; [by apply Hfl|]. split; [done|by left].
Qed.

Lemma split_line_step_ok done ps line :
  loop_ok st0 filename done ps →
  ∃ ps', split_line_step count_tokens filename token_limit ps line
           = Some ps'
         ∧ loop_ok st0 filename (done ++ [line]) ps'.
Proof.
  intros Hok. unfold split_line_step.
  destruct (Z.gtb_spec (tokens line)
              (token_limit
               - tokens (format_file_section
                           (part_name (part_number ps) filename) "")))
    as [Hlong|Hshort].
  2:{ eexists. split; [done|]. apply accumulate_line_ok; [done|].
      left. unfold part_header. lia. }
  destruct (flush_part_lines_ok done ps Hok) as [Hok1 Hnil].
  destruct (split_long_line_spec count_tokens line filename
              (part_number (flush_part_lines filename ps)) token_limit)
    as (frags & -> & Hfrags).
  eexists; split; [done|].
  destruct Hok1 as ((bodies & emitted & -> & Hparts & Hn & Hlay)
                    & Hcur & _).
  split.
  - exists (bodies ++ frags), (emitted ++ [line]). simpl.
    rewrite Hnil, !(right_id_L [] (++)). split; [done|]. split; [|split].
    + apply parts_of_app; [done|]. rewrite <- Hn. by apply parts_of_split.
    + rewrite length_numbered, length_app. lia.
    + rewrite Hn. by apply laid_out_extend.
  - cbn [part_lines current_part_tokens]. rewrite Hnil in *.
    split; [done|by left].
Qed.

Lemma split_lines_loop_ok lines done ps :
  loop_ok st0 filename done ps →
  ∃ ps', split_lines_loop count_tokens filename token_limit ps lines
           = Some ps'
         ∧ loop_ok st0 filename (done ++ lines) ps'.
Proof.
  revert done ps. induction lines as [|line lines IH]; intros done ps Hok.
  - exists ps. by rewrite (right_id_L [] (++)).
  - simpl. destruct (split_line_step_ok done ps line Hok)
      as (ps1 & -> & Hok1).
    simpl. destruct (IH _ _ Hok1) as (ps' & -> & Hok').
    exists ps'. split; [done|]. by rewrite <- (assoc_L (++)) in Hok'.
Qed.

Lemma accumulate_lines_ok lines done ps :
  loop_ok st0 filename done ps →
  Forall
    (λ line,
       tokens line + tokens (format_file_section filename "")
       ≤ token_limit)
    lines →
  loop_ok st0 filename (done ++ lines)
    (fold_left (accumulate_line count_tokens filename token_limit)
       lines ps).
Proof.
  revert done ps.
  induction lines as [|line lines IH]; intros done ps Hok Hlines.
  - by rewrite (right_id_L [] (++)).
  - apply Forall_cons in Hlines as [Hline Hlines].
    simpl. rewrite (cons_middle line), (assoc_L (++)).
    apply IH; [|done]. apply accumulate_line_ok; [done|by right].
Qed.

Lemma finish_parts_ok done ps :
  loop_ok st0 filename done ps →
  ∃ bodies,
    parts_of filename 1 done bodies
    ∧ laid_out st0 filename bodies (finish_parts filename ps).
Proof.
  intros (Hem & Hcur & Hpending). unfold finish_parts.
  destruct (part_lines ps) as [|l ls] eqn:Hpl.
  - destruct Hem as (bodies & emitted & -> & Hparts & Hn & Hlay).
    exists bodies. by rewrite Hpl, (right_id_L [] (++)).
  - destruct Hpending as [?|Hin]; [done|].
    pose proof (loop_emitted_flush_pending done ps 0 Hem) as Hfl.
    rewrite Hpl in Hfl. specialize (Hfl ltac:(done) Hin).
    destruct Hfl as (bodies & emitted & -> & Hparts & Hn & Hlay).
    exists bodies. simpl in *. by rewrite (right_id_L [] (++)).
Qed.

End OneFile.

Lemma process_file_effect st filename content :
  ∃ st', process_file count_tokens token_limit st filename content = Some st'
         ∧ (whole_effect count_tokens token_limit filename content st st'
            ∨ parts_effect count_tokens token_limit filename content st st').
Proof.
  unfold process_file.
  destruct (has_long_lines _ _ _ _) eqn:Hlong.
  - destruct (split_lines_loop_ok st filename (split_lines content) []
                (PartState st 1 [] 0) (loop_ok_init st filename))
      as (ps & -> & Hok).
    eexists; split; [done|]. right. by apply finish_parts_ok in Hok.
  - destruct (Z.leb_spec (tokens (format_file_section filename content))
                token_limit) as [Hfit|Hnofit].
    + destruct (nonempty (current_chunk st)) eqn:Hne.
      * assert (current_chunk st ≠ "") by (by destruct (current_chunk st)).
        destruct (Z.leb_spec
                    (tokens (current_chunk st +:+ nl +:+ nl
                             +:+ format_file_section filename content))
                    token_limit).
        -- eexists; split; [done|]. left. split; [done|]. right. left. done.
        -- eexists; split; [done|]. left. split; [done|]. right. right. done.
      * apply nonempty_false in Hne.
        eexists; split; [done|]. left. split; [done|]. left. done.
    + eexists; split; [done|]. right.
      apply (finish_parts_ok st filename (split_lines content)).
      apply (accumulate_lines_ok st filename (split_lines content) []);
        [apply loop_ok_init|by apply has_long_lines_false].
Qed.

End LayoutFacts.


(** ** The loop over the files *)

Section RunFacts.

Variable count_tokens : string → nat.
Variable token_limit : Z.
Abbreviation tokens := (tokens count_tokens).
Abbreviation evolves := (evolves).
Abbreviation process_file := (process_file count_tokens token_limit).
Abbreviation process_files := (process_files count_tokens token_limit).

Lemma all_space_app_l (s1 s2 : string) :
  all_space (s1 +:+ s2) = true → all_space s1 = true.
Proof. rewrite all_space_app. by intros [? _]%andb_prop. Qed.

Lemma extension_nil : extension "".
Proof. by left. Qed.

Lemma extension_app post post' :
  extension post → extension post' → extension (post +:+ post').
Proof.
  intros [->|[rest ->]] H'; [done|]. right. exists (rest +:+ post').
  by rewrite !str_app_assoc.
Qed.

Lemma evolves_refl st : evolves st st.
Proof.
  split; [done|]. right. exists "". split; [apply extension_nil|].
  left. by rewrite str_app_nil_r.
Qed.

Lemma evolves_trans st1 st2 st3 :
  evolves st1 st2 → evolves st2 st3 → evolves st1 st3.
Proof.
  intros [Hp12 Ha12] [Hp23 Ha23]. split; [by etrans|].
  destruct Ha12 as [?|(post & Hext & [Hcc|Hin])]; [by left| |].
  - destruct Ha23 as [Hsp|(post' & Hext' & [Hcc'|Hin'])].
    + left. rewrite Hcc in Hsp. by apply all_space_app_l in Hsp.
    + right. exists (post +:+ post'). split; [by apply extension_app|].
      left. by rewrite Hcc', Hcc, str_app_assoc.
    + right. exists (post +:+ post'). split; [by apply extension_app|].
      right. by rewrite Hcc, str_app_assoc in Hin'.
  - right. exists post. split; [done|]. right.
    destruct Hp23 as [k ->]. apply elem_of_app. by left.
Qed.

Lemma flush_evolves st : evolves st (flush_current_chunk st).
Proof.
  destruct (flush_cases st) as [[Hsp ->]|[Hsp ->]]; [apply evolves_refl|].
  split; simpl; [by apply prefix_app_r|].
  right. exists "". split; [apply extension_nil|]. right.
  rewrite str_app_nil_r.
  apply elem_of_app. right. by apply list_elem_of_singleton.
Qed.

Lemma whole_effect_evolves filename content st st' :
  whole_effect count_tokens token_limit filename content st st' →
  evolves st st'.
Proof.
  intros [_ [(Hcc & Hch & _)|[(_ & _ & Hch & Hcc)|(_ & _ & Hch & Hcc)]]].
  - split; [by rewrite Hch|]. left. by rewrite Hcc.
  - split; [by rewrite Hch|]. right.
    exists (nl +:+ nl +:+ format_file_section filename content).
    split; [right; by eexists|]. left. by rewrite Hcc.
  - destruct (flush_evolves st) as [Hp Ha]. rewrite <- Hch in Hp.
    split; [done|].
    destruct (flush_cases st) as [[Hsp Hfl]|[Hsp Hfl]]; [by left|].
    right. exists "". split; [apply extension_nil|]. right.
    rewrite str_app_nil_r, Hch, Hfl. simpl.
    apply elem_of_app. right. by apply list_elem_of_singleton.
Qed.

Lemma parts_effect_evolves filename content st st' :
  parts_effect count_tokens token_limit filename content st st' →
  evolves st st'.
Proof.
  intros (bodies & _ & l1 & fl & l2 & Hch & _ & Hacc).
  split; [rewrite Hch; by apply prefix_app_r|].
  right. exists "". split; [apply extension_nil|]. rewrite str_app_nil_r.
  destruct Hacc as [[_ Hcc]|(-> & _ & _)]; [by left|right].
  rewrite Hch. set_solver.
Qed.

Lemma process_file_evolves st filename content st' :
  process_file st filename content = Some st' → evolves st st'.
Proof.
  destruct (process_file_effect count_tokens token_limit st filename content)
    as (st'' & -> & [H|H]); intros [= <-];
    eauto using whole_effect_evolves, parts_effect_evolves.
Qed.

(** *** The sorted keys are the keys *)

Lemma elem_of_sorted_keys (m : gmap string string) (f : string) :
  f ∈ sorted_keys m ↔ is_Some (m !! f).
Proof.
  unfold sorted_keys. rewrite merge_sort_Permutation.
  rewrite list_elem_of_fmap. split.
  - intros ([f' c] & -> & Hin). apply elem_of_map_to_list in Hin. by eexists.
  - intros [c Hc]. exists (f, c). split; [done|].
    by apply elem_of_map_to_list.
Qed.

Lemma sorted_keys_sorted (m : gmap string string) :
  Sorted String.le (sorted_keys m).
Proof. apply Sorted_merge_sort. apply _. Qed.

Lemma sorted_keys_NoDup (m : gmap string string) : NoDup (sorted_keys m).
Proof.
  unfold sorted_keys. rewrite merge_sort_Permutation.
  apply NoDup_fst_map_to_list.
Qed.

(** *** Chunks come from where [origin] says *)

Section Origin.

Variable content_by_file : gmap string string.
Abbreviation packed := (packed count_tokens token_limit content_by_file).
Abbreviation origin := (origin count_tokens token_limit content_by_file).
Abbreviation state_ok :=
  (state_ok count_tokens token_limit content_by_file).

Lemma packed_prefix acc : packed acc → ∃ rest, acc = "File: " +:+ rest.
Proof.
  induction 1 as [f c _ _|acc f c _ [rest ->] _ _]; [by eexists|].
  eexists. by rewrite str_app_assoc.
Qed.

Lemma packed_not_all_space acc : packed acc → all_space acc = false.
Proof. by intros [rest ->]%packed_prefix. Qed.

Lemma packed_tokens acc : packed acc → tokens acc ≤ token_limit.
Proof. by destruct 1. Qed.

Lemma fragments_origin filename content line n remaining frags pre :
  content_by_file !! filename = Some content →
  line ∈ split_lines content →
  fragments count_tokens token_limit filename n remaining frags →
  (1 ≤ n)%nat →
  line = pre +:+ remaining →
  Forall origin (numbered filename n frags).
Proof.
  intros Hf Hline Hfr. revert pre.
  induction Hfr as [n|n remaining k rest Hk Hfit _ IH]; intros pre Hn Hpre;
    simpl; constructor.
  - by eapply origin_fragment.
  - apply (IH (pre +:+ slice_to k remaining)); [lia|].
    by rewrite str_app_assoc, slice_to_from.
Qed.

Lemma parts_of_origin filename content n before lines bodies :
  content_by_file !! filename = Some content →
  parts_of count_tokens token_limit filename n lines bodies →
  split_lines content = before ++ lines →
  (1 ≤ n)%nat →
  Forall origin (numbered filename n bodies).
Proof.
  intros Hf Hparts. revert before.
  induction Hparts
    as [n|n ls rest bodies Hls Hin _ IH|n line rest frags bodies Hfr _ IH];
    intros before Hsplit Hn; simpl.
  - constructor.
  - constructor.
    + by eapply origin_lines.
    + apply (IH (before ++ ls)); [|lia]. by rewrite <- (assoc_L (++)).
  - rewrite numbered_app. apply Forall_app. split.
    + eapply (fragments_origin _ _ line _ _ _ ""); [done| |done..].
      rewrite Hsplit. apply elem_of_app. right. apply list_elem_of_here.
    + apply (IH (before ++ [line])); [|lia].
      by rewrite <- (assoc_L (++)).
Qed.

Lemma flush_state_ok st : state_ok st → state_ok (flush_current_chunk st).
Proof.
  intros [Hch Hcc].
  destruct (flush_cases st) as [[Hsp ->]|[Hsp ->]]; [done|].
  split; simpl; [|by left].
  apply Forall_app. split; [done|]. constructor; [|done].
  destruct Hcc as [Hcc|Hcc]; [by rewrite Hcc in Hsp|].
  constructor; [done|by apply packed_tokens].
Qed.

Lemma process_file_state_ok st filename content st' :
  content_by_file !! filename = Some content →
  state_ok st →
  process_file st filename content = Some st' →
  state_ok st'.
Proof.
  intros Hf [Hch Hcc].
  destruct (process_file_effect count_tokens token_limit st filename content)
    as (st'' & -> & Heff); intros [= <-].
  destruct Heff as [[Hfit Hw]|(bodies & Hparts & l1 & fl & l2 & Hl & Hnum & Hacc)].
  - destruct Hw as [(Hcc0 & Hc & Ha)|[(Hne & Hcand & Hc & Ha)|(Hne & _ & Hc & Ha)]];
      split; rewrite ?Hc, ?Ha; try done.
    + right. by constructor.
    + right. destruct Hcc as [?|?]; [done|]. by constructor.
    + by apply flush_state_ok.
    + right. by constructor.
  - assert (Forall origin (numbered filename 1 bodies)) as Hnew
      by (by eapply (parts_of_origin _ _ _ [])).

    rewrite <- Hnum in Hnew. apply Forall_app in Hnew as [Hl1 Hl2].
    split.
    + rewrite Hl. repeat (apply Forall_app; split); try done.
      destruct Hacc as [[-> _]|(-> & Hsp & _)]; [done|].
      constructor; [|done].
      destruct Hcc as [Hcc|Hcc]; [by rewrite Hcc in Hsp|].
      constructor; [done|by apply packed_tokens].
    + destruct Hacc as [[_ ->]|(_ & _ & ->)]; [done|by left].
Qed.

Lemma process_files_ok filenames st :
  (∀ f, f ∈ filenames → is_Some (content_by_file !! f)) →
  state_ok st →
  ∃ st', process_files content_by_file st filenames = Some st'
         ∧ state_ok st' ∧ evolves st st'.
Proof.
  revert st. induction filenames as [|f fs IH]; intros st Hkeys Hok.
  - exists st. eauto using evolves_refl.
  - destruct (Hkeys f) as [c Hc]; [set_solver|].
    simpl. rewrite Hc. simpl.
    destruct (process_file_effect count_tokens token_limit st f c)
      as (st1 & Hst1 & _).
    rewrite Hst1. simpl.
    destruct (IH st1) as (st' & -> & Hok' & Hev);
      [set_solver|by eapply process_file_state_ok|].
    exists st'. split; [done|]. split; [done|].
    eauto using evolves_trans, process_file_evolves.
Qed.

Lemma initial_state_ok : state_ok (State [] "" 0).
Proof. split; [constructor|by left]. Qed.

Lemma chunk_content_origin :
  ∃ out, chunk_content count_tokens content_by_file token_limit = Some out
         ∧ Forall origin out.
Proof.
  unfold chunk_content.
  destruct (process_files_ok (sorted_keys content_by_file) (State [] "" 0))
    as (st & -> & Hok & _);
    [by intros f ?%elem_of_sorted_keys|apply initial_state_ok|].
  eexists; split; [done|]. by apply flush_state_ok.
Qed.

End Origin.

End RunFacts.


(** ** What becomes of the text of a file *)

Section ContentFacts.

Variable count_tokens : string → nat.
Variable token_limit : Z.
Abbreviation tokens := (tokens count_tokens).

Lemma remove_newlines_app (s1 s2 : string) :
  remove_newlines (s1 +:+ s2) = remove_newlines s1 +:+ remove_newlines s2.
Proof.
  induction s1 as [|c s1 IH]; [done|]. rewrite str_app_cons. simpl.
  destruct (Ascii.eqb c nl_char); [done|]. by rewrite str_app_cons, IH.
Qed.

Lemma concat_bodies_cons (b : string) (l : list string) :
  concat_bodies (b :: l) = b +:+ concat_bodies l.
Proof. done. Qed.

Lemma concat_bodies_app (l1 l2 : list string) :
  concat_bodies (l1 ++ l2) = concat_bodies l1 +:+ concat_bodies l2.
Proof.
  induction l1 as [|b l1 IH]; [done|]. simpl.
  unfold concat_bodies in *. simpl. by rewrite IH, str_app_assoc.
Qed.

Lemma join_lines_cons (line : string) (ls : list string) :
  ls ≠ [] → join_lines (line :: ls) = line +:+ nl +:+ join_lines ls.
Proof. by destruct ls. Qed.

Lemma remove_newlines_join (ls : list string) :
  Forall (λ line, remove_newlines line = line) ls →
  remove_newlines (join_lines ls) = concat_bodies ls.
Proof.
  induction 1 as [|line ls Hline _ IH]; [done|].
  destruct ls as [|line' ls].
  - simpl. unfold concat_bodies. simpl. by rewrite str_app_nil_r.
  - rewrite join_lines_cons by done.
    rewrite !remove_newlines_app, IH, Hline. done.
Qed.

Lemma split_lines_not_nil (s : string) : split_lines s ≠ [].
Proof.
  induction s as [|c s IH]; simpl; [done|].
  destruct (Ascii.eqb c nl_char); [done|]. by destruct (split_lines s).
Qed.

Lemma split_lines_no_newline (s : string) :
  Forall (λ line, remove_newlines line = line) (split_lines s).
Proof.
  induction s as [|c s IH]; simpl; [by repeat constructor|].
  destruct (Ascii.eqb c nl_char) eqn:Hc; [by constructor|].
  destruct (split_lines s) as [|line rest].
  - constructor; [|done]. simpl. by rewrite Hc.
  - apply Forall_cons in IH as [Hline Hrest]. constructor; [|done].
    simpl. by rewrite Hc, Hline.
Qed.

Lemma concat_split_lines (s : string) :
  concat_bodies (split_lines s) = remove_newlines s.
Proof.
  induction s as [|c s IH]; simpl; [done|].
  destruct (Ascii.eqb c nl_char) eqn:Hc; [done|].
  destruct (split_lines s) as [|line rest]; simpl in *;
    unfold concat_bodies in *; simpl in *.
  - by rewrite <- IH.
  - by rewrite str_app_cons, IH.
Qed.

Lemma fragments_concat filename n remaining frags :
  fragments count_tokens token_limit filename n remaining frags →
  concat_bodies frags = remaining.
Proof.
  induction 1 as [n|n remaining k rest Hk Hfit _ IH]; [done|].
  unfold concat_bodies in *. simpl. by rewrite IH, slice_to_from.
Qed.

Lemma fragments_nonempty filename n remaining frags :
  fragments count_tokens token_limit filename n remaining frags →
  Forall (λ frag, frag ≠ "") frags.
Proof.
  induction 1 as [n|n remaining k rest Hk Hfit _ IH]; constructor; [|done].
  intros Heq. apply (f_equal String.length) in Heq.
  rewrite length_slice_to in Heq. simpl in Heq. lia.
Qed.

Lemma parts_of_text filename n lines bodies :
  parts_of count_tokens token_limit filename n lines bodies →
  Forall (λ line, remove_newlines line = line) lines →
  remove_newlines (concat_bodies bodies) = concat_bodies lines.
Proof.
  induction 1 as [n|n ls rest bodies Hls Hin _ IH|n line rest frags bodies Hfr _ IH];
    intros Hnl; [done|..].
  - apply Forall_app in Hnl as [Hls' Hrest].
    rewrite concat_bodies_cons, remove_newlines_app, IH by done.
    by rewrite remove_newlines_join, concat_bodies_app.
  - apply Forall_cons in Hnl as [Hline Hrest].
    rewrite concat_bodies_app, remove_newlines_app, IH by done.
    rewrite (fragments_concat _ _ _ _ Hfr), Hline. done.
Qed.

Lemma parts_of_not_nil filename n lines bodies :
  parts_of count_tokens token_limit filename n lines bodies →
  concat_bodies lines ≠ "" →
  bodies ≠ [].
Proof.
  induction 1 as [n|n ls rest bodies Hls Hin _ IH|n line rest frags bodies Hfr _ IH];
    intros Htext; [done..|].
  intros [-> ->]%app_eq_nil.
  apply fragments_concat in Hfr. simpl in Hfr. subst line.
  apply IH; [|done]. intros Hrest. by apply Htext.
Qed.

Abbreviation process_file := (process_file count_tokens token_limit).
Abbreviation process_files := (process_files count_tokens token_limit).

Lemma process_files_app (m : gmap string string) st l1 l2 :
  process_files m st (l1 ++ l2)
  = process_files m st l1 ≫= λ st', process_files m st' l2.
Proof.
  revert st. induction l1 as [|f l1 IH]; intros st; simpl; [done|].
  destruct (m !! f) as [c|]; simpl; [|done].
  destruct (process_file st f c) as [st1|]; simpl; [|done].
  apply IH.
Qed.

(** The run of [chunk_content], cut at the file [filename]. *)
Lemma chunk_content_at_file (m : gmap string string) filename content :
  m !! filename = Some content →
  ∃ st1 st2 st3,
    state_ok count_tokens token_limit m st1
    ∧ process_file st1 filename content = Some st2
    ∧ evolves st2 st3
    ∧ chunk_content count_tokens m token_limit
      = Some (chunks (flush_current_chunk st3)).
Proof.
  intros Hf.
  assert (filename ∈ sorted_keys m) as Hin
    by (apply elem_of_sorted_keys; by eexists).
  apply list_elem_of_split in Hin as (l1 & l2 & Hkeys).
  assert (∀ f, f ∈ l1 ++ filename :: l2 → is_Some (m !! f)) as Hall.
  { intros f Hfin. rewrite <- Hkeys in Hfin.
    by apply elem_of_sorted_keys in Hfin. }
  destruct (process_files_ok count_tokens token_limit m l1 (State [] "" 0))
    as (st1 & Hst1 & Hok1 & _);
    [intros f ?; apply Hall; set_solver|apply initial_state_ok|].
  destruct (process_file_effect count_tokens token_limit st1 filename content)
    as (st2 & Hst2 & _).
  destruct (process_files_ok count_tokens token_limit m l2 st2)
    as (st3 & Hst3 & _ & Hev);
    [intros f ?; apply Hall; set_solver
    |by eapply process_file_state_ok|].
  exists st1, st2, st3. do 3 (split; [done|]).
  unfold chunk_content. rewrite Hkeys, process_files_app, Hst1. simpl.
  rewrite Hf. simpl. rewrite Hst2. simpl. by rewrite Hst3.
Qed.

Lemma elem_of_flush chunk st :
  chunk ∈ chunks st → chunk ∈ chunks (flush_current_chunk st).
Proof.
  intros Hin. destruct (flush_cases st) as [[_ ->]|[_ ->]]; [done|].
  simpl. apply elem_of_app. by left.
Qed.

(** A section held by the accumulator ends up in a chunk. *)
Lemma section_emitted st2 st3 pre sec :
  current_chunk st2 = pre +:+ sec →
  all_space sec = false →
  evolves st2 st3 →
  ∃ post,
    extension post
    ∧ strip (pre +:+ sec +:+ post) ∈ chunks (flush_current_chunk st3).
Proof.
  intros Hcc Hsec [_ Hev].
  assert (all_space (current_chunk st2) = false) as Hns.
  { rewrite Hcc, all_space_app, Hsec. by destruct (all_space pre). }
  destruct Hev as [Hsp|(post & Hext & [Hcc3|Hin])]; [congruence|..];
    exists post; (split; [done|]); rewrite <- str_app_assoc, <- Hcc.
  - destruct (flush_cases st3) as [[Hsp _]|[_ ->]].
    + rewrite Hcc3, all_space_app, Hns in Hsp. done.
    + simpl. rewrite Hcc3. apply elem_of_app. right.
      by apply list_elem_of_singleton.
  - by apply elem_of_flush.
Qed.

(** Chunks emitted while a file is processed stay in the output. *)
Lemma sublist_emitted st2 st3 l :
  l `sublist_of` chunks st2 →
  evolves st2 st3 →
  l `sublist_of` chunks (flush_current_chunk st3).
Proof.
  intros Hl [[k Hk] _].
  assert (chunks st3 `sublist_of` chunks (flush_current_chunk st3)) as Hfl.
  { destruct (flush_cases st3) as [[_ ->]|[_ ->]]; [done|].
    simpl. by apply sublist_inserts_r. }
  etrans; [|exact Hfl]. rewrite Hk. by apply sublist_inserts_r.
Qed.

Lemma section_not_all_space filename content :
  all_space (format_file_section filename content) = false.
Proof. done. Qed.

End ContentFacts.


(** ** The chunker that can raise does what the chunker that cannot does *)

Section Simulation.

Variable count_tokens : string → Files.exception + nat.
Variable counts : string → nat.
Hypothesis counts_agree : agrees count_tokens counts.

Abbreviation refines := (Raising.refines count_tokens).

Local Arguments Nat.div : simpl never.

Lemma refines_ret {A : Type} (a : A) : refines (Raising.ret a) (Some a).
Proof. by right. Qed.

Lemma refines_stuck {A : Type} : refines (None : Raising.run A) None.
Proof. by right. Qed.

Lemma refines_tokens {A : Type} (text : string) (k : Z → Raising.run A)
    (total : option A) :
  refines (k (tokens counts text)) total →
  refines (Raising.bind (Raising.tokens count_tokens text) k) total.
Proof.
  unfold Raising.tokens, tokens.
  destruct (count_tokens text) as [e|n] eqn:Hcount; simpl.
  - intros _. left. by exists e, text.
  - by rewrite (counts_agree _ _ Hcount).
Qed.

Lemma refines_bind {A B : Type} (r : Raising.run A) (total : option A)
    (k : A → Raising.run B) (k' : A → option B) :
  refines r total →
  (∀ a, refines (k a) (k' a)) →
  refines (Raising.bind r k) (total ≫= k').
Proof.
  intros [(e & text & -> & He)| ->] Hk.
  - left. by exists e, text.
  - destruct total as [a|]; simpl; [apply Hk|by right].
Qed.

Lemma refines_bind_some {A B : Type} (r : Raising.run A) (a : A)
    (k : A → Raising.run B) (total : option B) :
  refines r (Some a) →
  refines (k a) total →
  refines (Raising.bind r k) total.
Proof.
  intros [(e & text & -> & He)| ->] Hk; [|done].
  left. by exists e, text.
Qed.

Lemma refines_bisect fuel current_part available left right :
  refines
    (Raising.bisect count_tokens fuel current_part available left right)
    (bisect counts fuel current_part available left right).
Proof.
  revert left right. induction fuel as [|fuel IH]; intros left right;
    simpl.
  - destruct (_ <? _); [apply refines_stuck|apply refines_ret].
  - destruct (_ <? _); [|apply refines_ret].
    apply refines_tokens. destruct (_ <=? _); apply IH.
Qed.

Lemma refines_shrink fuel remaining current_part available :
  refines (Raising.shrink count_tokens fuel remaining current_part available)
    (shrink counts fuel remaining current_part available).
Proof.
  revert current_part. induction fuel as [|fuel IH]; intros current_part;
    simpl.
  - apply refines_tokens.
    destruct (_ >? _); [apply refines_stuck|apply refines_ret].
  - apply refines_tokens. destruct (_ >? _); [|apply refines_ret].
    apply refines_bind; [apply refines_bisect|]. intros left.
    destruct (nonempty _); [apply IH|apply refines_ret].
Qed.

Lemma refines_split_loop fuel line filename token_limit remaining n
    line_chunks :
  refines
    (Raising.split_loop count_tokens fuel line filename token_limit
       remaining n line_chunks)
    (split_loop counts fuel line filename token_limit remaining n
       line_chunks).
Proof.
  revert remaining n line_chunks.
  induction fuel as [|fuel IH]; intros remaining n line_chunks;
    cbn [Raising.split_loop split_loop].
  - destruct (nonempty remaining); [apply refines_stuck|apply refines_ret].
  - destruct (nonempty remaining); [|apply refines_ret].
    apply refines_tokens.
    apply refines_bind; [apply refines_shrink|]. intros current_part.
    apply refines_tokens. apply IH.
Qed.

Lemma refines_split_long_line line filename n token_limit :
  refines (Raising.split_long_line count_tokens line filename n token_limit)
    (split_long_line counts line filename n token_limit).
Proof. apply refines_split_loop. Qed.

Lemma refines_has_long_lines filename token_limit lines :
  refines (Raising.has_long_lines count_tokens filename token_limit lines)
    (Some (has_long_lines counts filename token_limit lines)).
Proof.
  unfold has_long_lines.
  induction lines as [|line lines IH];
    cbn [Raising.has_long_lines existsb]; [apply refines_ret|].
  do 2 apply refines_tokens.
  destruct (_ >? _); cbn [orb]; [apply refines_ret|apply IH].
Qed.

Lemma accumulate_line_counts filename token_limit ps line :
  Raising.accumulate_line filename token_limit
    (tokens counts
       (format_file_section (part_name (part_number ps) filename) ""))
    (tokens counts line) ps line
  = accumulate_line counts filename token_limit ps line.
Proof. reflexivity. Qed.

Lemma refines_split_line_step filename token_limit ps line :
  refines (Raising.split_line_step count_tokens filename token_limit ps line)
    (split_line_step counts filename token_limit ps line).
Proof.
  unfold Raising.split_line_step, split_line_step.
  do 2 apply refines_tokens.
  destruct (_ >? _).
  - apply refines_bind; [apply refines_split_long_line|].
    intros line_chunks. apply refines_ret.
  - rewrite accumulate_line_counts. apply refines_ret.
Qed.

Lemma refines_split_lines_loop filename token_limit ps lines :
  refines
    (Raising.split_lines_loop count_tokens filename token_limit ps lines)
    (split_lines_loop counts filename token_limit ps lines).
Proof.
  revert ps. induction lines as [|line lines IH]; intros ps;
    cbn [Raising.split_lines_loop split_lines_loop]; [apply refines_ret|].
  apply refines_bind; [apply refines_split_line_step|apply IH].
Qed.

Lemma refines_accumulate_lines filename token_limit ps lines :
  refines
    (Raising.accumulate_lines count_tokens filename token_limit ps lines)
    (Some (fold_left (accumulate_line counts filename token_limit) lines ps)).
Proof.
  revert ps. induction lines as [|line lines IH]; intros ps;
    cbn [Raising.accumulate_lines fold_left]; [apply refines_ret|].
  eapply refines_bind_some; [|apply IH].
  unfold Raising.accumulate_step. do 2 apply refines_tokens.
  rewrite accumulate_line_counts. apply refines_ret.
Qed.

Lemma refines_process_file token_limit st filename content :
  refines (Raising.process_file count_tokens token_limit st filename content)
    (process_file counts token_limit st filename content).
Proof.
  unfold Raising.process_file, process_file.
  eapply refines_bind_some; [apply refines_has_long_lines|].
  destruct (has_long_lines counts filename token_limit
              (split_lines content)).
  - apply refines_bind; [apply refines_split_lines_loop|].
    intros ps. apply refines_ret.
  - apply refines_tokens. destruct (_ <=? _).
    + destruct (nonempty (current_chunk st)); [|apply refines_ret].
      apply refines_tokens. destruct (_ <=? _); apply refines_ret.
    + eapply refines_bind_some; [apply refines_accumulate_lines|].
      apply refines_ret.
Qed.

Lemma refines_process_files token_limit content_by_file st filenames :
  refines
    (Raising.process_files count_tokens token_limit content_by_file st
       filenames)
    (process_files counts token_limit content_by_file st filenames).
Proof.
  revert st. induction filenames as [|filename rest IH]; intros st;
    cbn [Raising.process_files process_files]; [apply refines_ret|].
  destruct (content_by_file !! filename) as [content|];
    [|apply refines_stuck].
  cbn [mbind option_bind].
  apply refines_bind; [apply refines_process_file|apply IH].
Qed.

Lemma refines_chunk_content content_by_file token_limit :
  refines (Raising.chunk_content count_tokens content_by_file token_limit)
    (chunk_content counts content_by_file token_limit).
Proof.
  unfold Raising.chunk_content, chunk_content.
  apply refines_bind; [apply refines_process_files|].
  intros st. apply refines_ret.
Qed.

(** What a run returns, the run over [counts] returns. *)
Lemma refines_returned {A : Type} (r : Raising.run A) (total : option A)
    (a : A) :
  refines r total → r = Some (inr a) → total = Some a.
Proof.
  intros [(e & text & -> & _)| ->]; [done|].
  destruct total; [|done]. by intros [= ->].
Qed.

(** A run whose counterpart over [counts] returns does not get stuck: it
    returns the same, or raises what the tokenizer raised. *)
Lemma refines_total {A : Type} (r : Raising.run A) (a : A) :
  refines r (Some a) →
  r = Some (inr a)
  ∨ ∃ e text, r = Some (inl e) ∧ count_tokens text = inl e.
Proof. intros [?| ->]; [by right|by left]. Qed.

End Simulation.

Lemma answered_agrees (count_tokens : string → Files.exception + nat) :
  agrees count_tokens (answered count_tokens).
Proof. intros text n Hn. unfold answered. by rewrite Hn. Qed.


(** ** Every file goes into the output once *)

Section LedgerFacts.

Variable count_tokens : string → nat.
Variable token_limit : Z.
Variable content_by_file : gmap string string.

Abbreviation ledger := (ledger content_by_file).

Lemma sections_text_snoc (files : list (string * string))
    (file : string * string) :
  files ≠ [] →
  sections_text (files ++ [file])
  = sections_text files +:+ nl +:+ nl
    +:+ format_file_section file.1 file.2.
Proof.
  intros Hne. unfold sections_text. rewrite map_app.
  rewrite str_concat_app; [|by destruct files|done].
  by rewrite !str_app_assoc.
Qed.

Lemma sections_text_prefix (files : list (string * string)) :
  files ≠ [] → ∃ rest, sections_text files = "File: " +:+ rest.
Proof.
  destruct files as [|file files]; [done|]. intros _.
  unfold sections_text. cbn [map].
  destruct files as [|file' files].
  - by eexists.
  - rewrite str_concat_cons by done. unfold format_file_section.
    eexists. by rewrite !str_app_assoc.
Qed.

Lemma sections_text_empty (files : list (string * string)) :
  sections_text files = "" → files = [].
Proof.
  destruct files as [|file files]; [done|]. intros Hempty.
  destruct (sections_text_prefix (file :: files)) as [rest Hrest]; [done|].
  by rewrite Hrest in Hempty.
Qed.

Lemma sections_text_not_space (files : list (string * string)) :
  files ≠ [] → all_space (sections_text files) = false.
Proof. by intros [rest ->]%sections_text_prefix. Qed.

Lemma accumulator_chunks_snoc groups group :
  accumulator_chunks (groups ++ [group])
  = accumulator_chunks groups ++ [strip (sections_text group)].
Proof. unfold accumulator_chunks. by rewrite map_app. Qed.

Lemma part_chunks_snoc cut entry :
  part_chunks (cut ++ [entry])
  = part_chunks cut ++ numbered entry.1.1 1 entry.2.
Proof.
  unfold part_chunks. rewrite flat_map_app. simpl.
  by rewrite (right_id_L [] (++)).
Qed.

Lemma concat_snoc {A : Type} (ls : list (list A)) (l : list A) :
  List.concat (ls ++ [l]) = List.concat ls ++ l.
Proof. rewrite concat_app. simpl. by rewrite (right_id_L [] (++)). Qed.

Lemma cut_stays st st' (cut : list (string * string * list string)) :
  chunks st `sublist_of` chunks st' →
  Forall
    (λ entry,
       content_by_file !! entry.1.1 = Some entry.1.2
       ∧ remove_newlines (concat_bodies entry.2)
         = remove_newlines entry.1.2
       ∧ numbered entry.1.1 1 entry.2 `sublist_of` chunks st)
    cut →
  Forall
    (λ entry,
       content_by_file !! entry.1.1 = Some entry.1.2
       ∧ remove_newlines (concat_bodies entry.2)
         = remove_newlines entry.1.2
       ∧ numbered entry.1.1 1 entry.2 `sublist_of` chunks st')
    cut.
Proof.
  intros Hsub Hall. eapply Forall_impl; [exact Hall|].
  intros entry (? & ? & ?). split; [done|]. split; [done|]. by etrans.
Qed.

(** Flushing the accumulator closes the pending group. *)
Lemma ledger_flush done st groups pending cut :
  ledger done st groups pending cut →
  ∃ groups',
    ledger done (flush_current_chunk st) groups' [] cut
    ∧ List.concat groups' = List.concat groups ++ pending.
Proof.
  intros (Hch & Hcc & Hgroups & Hdone & Hfiles & Hcut).
  destruct (flush_cases st) as [[Hsp ->]|[Hsp ->]].
  - assert (pending = []) as ->.
    { destruct pending as [|file pending]; [done|].
      rewrite Hcc, sections_text_not_space in Hsp; done. }
    exists groups. split; [|by rewrite (right_id_L [] (++))].
    by split_and!.
  - assert (pending ≠ []) as Hne.
    { intros ->. by rewrite Hcc in Hsp. }
    exists (groups ++ [pending]). split; [|apply concat_snoc].
    split_and!.
    + cbn [chunks]. rewrite accumulator_chunks_snoc, Hch, Hcc.
      rewrite <- !(assoc_L (++)). f_equiv. apply Permutation_app_comm.
    + done.
    + apply Forall_app. split; [done|by constructor].
    + by rewrite concat_snoc, (right_id_L [] (++)).
    + by rewrite concat_snoc, (right_id_L [] (++)).
    + eapply (cut_stays st); [|done]. cbn [chunks].
      by apply sublist_inserts_r.
Qed.

Lemma ledger_start groups cut done st file :
  content_by_file !! file.1 = Some file.2 →
  ledger done st groups [] cut →
  ∀ st',
    chunks st' = chunks st →
    current_chunk st' = format_file_section file.1 file.2 →
    ledger (done ++ [file.1]) st' groups [file] cut.
Proof.
  intros Hfile (Hch & Hcc & Hgroups & Hdone & Hfiles & Hcut) st' Hch' Hcc'.
  split_and!.
  - by rewrite Hch'.
  - by rewrite Hcc'.
  - done.
  - rewrite (right_id_L [] (++)) in Hdone. rewrite <- Hdone.
    rewrite fmap_app. cbn [fmap list_fmap].
    rewrite <- !(assoc_L (++)). f_equiv.
    apply Permutation_app_comm.
  - rewrite (right_id_L [] (++)) in Hfiles.
    apply Forall_app. split; [done|by constructor].
  - eapply (cut_stays st); [by rewrite Hch'|done].
Qed.

Lemma ledger_whole done st st' filename content groups pending cut :
  content_by_file !! filename = Some content →
  whole_effect count_tokens token_limit filename content st st' →
  ledger done st groups pending cut →
  ∃ groups' pending',
    ledger (done ++ [filename]) st' groups' pending' cut.
Proof.
  intros Hfile [_ Hw] Hledger.
  destruct Hw as [(Hcc0 & Hch & Hcc)|[(Hne & _ & Hch & Hcc)
                                      |(Hne & _ & Hch & Hcc)]].
  - assert (pending = []) as ->.
    { destruct Hledger as (_ & Hp & _). rewrite Hcc0 in Hp.
      by apply sections_text_empty. }
    exists groups, [(filename, content)].
    by apply (ledger_start groups cut done st (filename, content)).
  - destruct Hledger as (Hchunks & Hp & Hgroups & Hdone & Hfiles & Hcut).
    assert (pending ≠ []) as Hpending.
    { intros ->. by rewrite Hp in Hne. }
    exists groups, (pending ++ [(filename, content)]). split_and!.
    + by rewrite Hch.
    + rewrite Hcc, Hp. by rewrite sections_text_snoc.
    + done.
    + rewrite <- Hdone. rewrite !fmap_app. cbn [fmap list_fmap].
      rewrite <- !(assoc_L (++)). do 2 f_equiv.
      apply Permutation_app_comm.
    + rewrite (assoc_L (++)). apply Forall_app. split; [done|].
      by constructor.
    + eapply (cut_stays st); [by rewrite Hch|done].
  - destruct (ledger_flush _ _ _ _ _ Hledger) as (groups' & Hfl & Hconcat).
    exists groups', [(filename, content)].
    apply (ledger_start groups' cut done (flush_current_chunk st)
             (filename, content)); done.
Qed.

Lemma ledger_parts done st st' filename content groups pending cut :
  content_by_file !! filename = Some content →
  parts_effect count_tokens token_limit filename content st st' →
  ledger done st groups pending cut →
  ∃ groups' pending' cut',
    ledger (done ++ [filename]) st' groups' pending' cut'.
Proof.
  intros Hfile (bodies & Hparts & l1 & fl & l2 & Hch & Hnum & Hacc)
    Hledger.
  assert (remove_newlines (concat_bodies bodies) = remove_newlines content)
    as Hrebuild.
  { rewrite (parts_of_text _ _ _ _ _ _ Hparts), concat_split_lines;
      [done|apply split_lines_no_newline]. }
  assert (numbered filename 1 bodies `sublist_of` chunks st') as Hsub.
  { rewrite Hch, <- Hnum. apply sublist_inserts_l, sublist_app; [done|].
    by apply sublist_inserts_l. }
  assert (chunks st `sublist_of` chunks st') as Hgrow.
  { rewrite Hch. by apply sublist_inserts_r. }
  destruct Hacc as [[-> Hcc]|(-> & Hsp & Hcc)].
  - destruct Hledger as (Hchunks & Hp & Hgroups & Hdone & Hfiles & Hcut).
    exists groups, pending, (cut ++ [(filename, content, bodies)]).
    split_and!.
    + rewrite Hch, part_chunks_snoc, Hchunks. cbn [app fst snd].
      rewrite Hnum. by rewrite (assoc_L (++)).
    + by rewrite Hcc.
    + done.
    + rewrite (map_app _ cut). cbn [map fst]. rewrite (assoc_L (++)).
      by rewrite Hdone.
    + done.
    + apply Forall_app. split; [by eapply cut_stays|].
      by repeat constructor.
  - destruct (ledger_flush _ _ _ _ _ Hledger) as (groups' & Hfl & Hconcat).
    destruct Hledger as (_ & _ & _ & _ & _ & Hcut0).
    destruct (flush_cases st) as [[Hsp' _]|[_ Hflush]]; [congruence|].
    rewrite Hflush in Hfl.
    destruct Hfl as (Hchunks & _ & Hgroups & Hdone & Hfiles & _).
    cbn [chunks] in Hchunks.
    exists groups', [], (cut ++ [(filename, content, bodies)]).
    split_and!.
    + rewrite Hch, part_chunks_snoc. cbn [fst snd].
      rewrite <- Hnum.
      rewrite (assoc_L (++) (accumulator_chunks groups')), <- Hchunks.
      rewrite <- !(assoc_L (++)). f_equiv.
      rewrite !(assoc_L (++)). f_equiv. apply Permutation_app_comm.
    + by rewrite Hcc.
    + done.
    + rewrite (map_app _ cut). cbn [map fst]. rewrite (assoc_L (++)).
      by rewrite Hdone.
    + done.
    + apply Forall_app. split; [by eapply cut_stays|].
      by repeat constructor.
Qed.

Lemma process_files_ledger filenames done st groups pending cut st' :
  process_files count_tokens token_limit content_by_file st filenames
    = Some st' →
  ledger done st groups pending cut →
  ∃ groups' pending' cut',
    ledger (done ++ filenames) st' groups' pending' cut'.
Proof.
  revert done st groups pending cut.
  induction filenames as [|filename rest IH];
    intros done st groups pending cut.
  - intros [= <-] Hledger. rewrite (right_id_L [] (++)). eauto.
  - cbn [process_files].
    destruct (content_by_file !! filename) as [content|] eqn:Hfile;
      [|done].
    cbn [mbind option_bind].
    destruct (process_file_effect count_tokens token_limit st filename
                content) as (st1 & -> & Heff).
    cbn [mbind option_bind]. intros Hrest Hledger.
    rewrite (cons_middle filename), (assoc_L (++)).
    destruct Heff as [Hw|Hp].
    + destruct (ledger_whole _ _ _ _ _ _ _ _ Hfile Hw Hledger)
        as (groups1 & pending1 & Hledger1).
      by eapply IH.
    + destruct (ledger_parts _ _ _ _ _ _ _ _ Hfile Hp Hledger)
        as (groups1 & pending1 & cut1 & Hledger1).
      by eapply IH.
Qed.

Lemma chunk_content_ledger out :
  chunk_content count_tokens content_by_file token_limit = Some out →
  ∃ groups cut,
    out ≡ₚ accumulator_chunks groups ++ part_chunks cut
    ∧ Forall (λ group, group ≠ []) groups
    ∧ (List.concat groups).*1 ++ map (λ entry, entry.1.1) cut
      ≡ₚ sorted_keys content_by_file
    ∧ Forall (λ file, content_by_file !! file.1 = Some file.2)
        (List.concat groups)
    ∧ Forall
        (λ entry,
           content_by_file !! entry.1.1 = Some entry.1.2
           ∧ remove_newlines (concat_bodies entry.2)
             = remove_newlines entry.1.2
           ∧ numbered entry.1.1 1 entry.2 `sublist_of` out)
        cut.
Proof.
  unfold chunk_content.
  destruct (process_files count_tokens token_limit content_by_file
              (State [] "" 0) (sorted_keys content_by_file))
    as [st|] eqn:Hrun; [|done].
  cbn [mbind option_bind]. intros [= <-].
  assert (ledger [] (State [] "" 0) [] [] []) as Hstart
    by (by split_and!).
  destruct (process_files_ledger _ _ _ _ _ _ _ Hrun Hstart)
    as (groups & pending & cut & Hledger).
  destruct (ledger_flush _ _ _ _ _ Hledger)
    as (groups' & (Hch & _ & Hgroups & Hdone & Hfiles & Hcut) & _).
  exists groups', cut. rewrite !(right_id_L [] (++)) in *.
  by split_and!.
Qed.

End LedgerFacts.


(** ** The chunker: budget, trimming, headers *)

Section ChunkerTheorems.

Variable count_tokens : string → nat.
Abbreviation tokens := (tokens count_tokens).

Lemma rstrip_file_prefix (rest : string) :
  rstrip ("File: " +:+ rest) = "File:" +:+ rstrip (" " +:+ rest).
Proof.
  change ("File: " +:+ rest)
    with (String "F" (String "i" (String "l" (String "e"
            (String ":" (" " +:+ rest)))))).
  by rewrite !rstrip_cons.
Qed.

Lemma strip_file_prefix (rest : string) :
  strip ("File: " +:+ rest) = "File:" +:+ rstrip (" " +:+ rest).
Proof. unfold strip. by rewrite rstrip_file_prefix. Qed.

Lemma strip_strip_file_prefix (rest : string) :
  strip (strip ("File: " +:+ rest)) = strip ("File: " +:+ rest).
Proof.
  rewrite strip_file_prefix. unfold strip.
  change ("File:" +:+ rstrip (" " +:+ rest))
    with (String "F" (String "i" (String "l" (String "e"
            (String ":" (rstrip (" " +:+ rest))))))).
  by rewrite !rstrip_cons, rstrip_idemp.
Qed.

(** C10, amended. [chunk_content] returns, and each chunk it returns starts
    with [File:] and is either the text of the accumulator trimmed by
    [flush_current_chunk], which has no white space at either end and is
    not empty, or a numbered part of a file of the mapping, appended as it
    is, without trimming. *)
Theorem chunks_headed_flushes_trimmed (content_by_file : gmap string string)
    (token_limit : Z) :
  ∃ out,
    chunk_content count_tokens content_by_file token_limit = Some out
    ∧ ∀ chunk, chunk ∈ out →
        startswith "File:" chunk = true
        ∧ ((∃ acc, chunk = strip acc ∧ strip chunk = chunk ∧ chunk ≠ "")
           ∨ (∃ filename n body,
                is_Some (content_by_file !! filename)
                ∧ (1 ≤ n)%nat
                ∧ chunk = format_file_section (part_name n filename) body)).
Proof.
  destruct (chunk_content_origin count_tokens token_limit content_by_file)
    as (out & Hout & Horigin).
  exists out. split; [done|]. intros chunk Hin.
  rewrite Forall_forall in Horigin.
  destruct (Horigin chunk Hin)
    as [acc Hacc Htok|f c n before ls after Hf Hn Hls Hsplit Hwithin
       |f c n line pre rem k Hf Hn Hl Hp Hk Hfit].
  - apply packed_prefix in Hacc as [rest ->]. split.
    + rewrite strip_file_prefix. reflexivity.
    + left. eexists. split; [done|]. split.
      * apply strip_strip_file_prefix.
      * rewrite strip_file_prefix. discriminate.
  - split; [reflexivity|]. right. exists f, n, (join_lines ls). eauto.
  - split; [reflexivity|]. right. exists f, n, (slice_to k rem). eauto.
Qed.

(** With a tokenizer for which trimming never adds tokens, every chunk
    that is not a numbered part is within the budget. *)
Corollary whole_file_chunks_within_budget
    (content_by_file : gmap string string) (token_limit : Z) :
  (∀ text, tokens (strip text) ≤ tokens text) →
  ∃ out,
    chunk_content count_tokens content_by_file token_limit = Some out
    ∧ ∀ chunk, chunk ∈ out →
        tokens chunk ≤ token_limit
        ∨ (∃ filename n body,
             is_Some (content_by_file !! filename)
             ∧ (1 ≤ n)%nat
             ∧ chunk = format_file_section (part_name n filename) body).
Proof.
  intros Hstrip.
  destruct (chunk_content_origin count_tokens token_limit content_by_file)
    as (out & Hout & Horigin).
  exists out. split; [done|]. intros chunk Hin.
  rewrite Forall_forall in Horigin.
  destruct (Horigin chunk Hin)
    as [acc Hacc Htok|f c n before ls after Hf Hn Hls Hsplit Hwithin
       |f c n line pre rem k Hf Hn Hl Hp Hk Hfit].
  - left. etrans; [apply Hstrip|done].
  - right. exists f, n, (join_lines ls). eauto.
  - right. exists f, n, (slice_to k rem). eauto.
Qed.

(** The chunker is a function of its inputs. *)
Remark chunk_content_deterministic (content_by_file : gmap string string)
    (token_limit : Z) (out1 out2 : list string) :
  chunk_content count_tokens content_by_file token_limit = Some out1 →
  chunk_content count_tokens content_by_file token_limit = Some out2 →
  out1 = out2.
Proof. congruence. Qed.

End ChunkerTheorems.

Section ChunkBudget.

Variable count_tokens : string → Files.exception + nat.
Variable counts : string → nat.

(** C1, amended. Whenever [chunk_content] returns, each chunk it returns
    is of one of the three kinds of [origin], with the bound that the code
    has checked for it, [counts] being the number of tokens of each text
    that [count_tokens] answers on.  The chunk is the trimmed text of an
    accumulator, made of the sections of files of the mapping separated by
    blank lines, whose token count is within the budget.  Or it is a
    fragment of a line of a file, cut by [split_long_line] under its part
    header: a fragment that fits what the header leaves of the budget, or
    the forced-progress prefix of [max(1, len(remaining) // 2)]
    characters, forced only when the first character alone is over what
    the header leaves.  Or it is a run of consecutive lines of a file
    joined under a part header: the token counts of the lines and of the
    header add up to the budget at most, line feeds not counted, unless
    the part is a single line, which is then within what the header of the
    part before, or the header of the file, leaves of the budget.  The
    token count of the chunk itself is not bounded. *)
Theorem chunk_budget_by_origin (content_by_file : gmap string string)
    (token_limit : Z) (out : list string) :
  agrees count_tokens counts →
  Raising.chunk_content count_tokens content_by_file token_limit
    = Some (inr out) →
  ∀ chunk, chunk ∈ out →
    (∃ acc,
       packed counts token_limit content_by_file acc
       ∧ tokens counts acc ≤ token_limit
       ∧ chunk = strip acc)
    ∨ (∃ filename content n line pre remaining k,
         content_by_file !! filename = Some content
         ∧ (1 ≤ n)%nat
         ∧ line ∈ split_lines content
         ∧ line = pre +:+ remaining
         ∧ (1 ≤ k ≤ String.length remaining)%nat
         ∧ chunk = format_file_section (part_name n filename)
                     (slice_to k remaining)
         ∧ (tokens counts (slice_to k remaining)
              ≤ token_limit - tokens counts (part_header n filename)
            ∨ (k = Nat.max 1 (String.length remaining / 2)
               ∧ token_limit - tokens counts (part_header n filename)
                 < tokens counts (slice_to 1 remaining))))
    ∨ (∃ filename content n before ls after,
         content_by_file !! filename = Some content
         ∧ (1 ≤ n)%nat
         ∧ ls ≠ []
         ∧ split_lines content = before ++ ls ++ after
         ∧ chunk = format_file_section (part_name n filename)
                     (join_lines ls)
         ∧ (sum_tokens counts ls + tokens counts (part_header n filename)
              ≤ token_limit
            ∨ ∃ line,
                ls = [line]
                ∧ (((2 ≤ n)%nat
                    ∧ tokens counts line
                      + tokens counts (part_header (n - 1) filename)
                      ≤ token_limit)
                   ∨ tokens counts line
                     + tokens counts (format_file_section filename "")
                     ≤ token_limit))).
Proof.
  intros Hagree Hrun chunk Hin.
  apply (refines_returned count_tokens _ _ _
           (refines_chunk_content count_tokens counts Hagree _ _)) in Hrun.
  destruct (chunk_content_origin counts token_limit content_by_file)
    as (out' & Hout & Horigin).
  rewrite Hrun in Hout. injection Hout as <-.
  rewrite Forall_forall in Horigin.
  destruct (Horigin chunk Hin)
    as [acc Hacc Htok|f c n before ls after Hf Hn Hls Hsplit Hwithin
       |f c n line pre rem k Hf Hn Hl Hp Hk Hfit].
  - left. by exists acc.
  - right. right. by exists f, c, n, before, ls, after.
  - right. left. by exists f, c, n, line, pre, rem, k.
Qed.

End ChunkBudget.

(** C1 as stated fails: with one token per character and a budget of 5, less
    than any header, the first fragment forced out of the line [abcdefgh] is
    [abcd], four characters and not one, in a chunk of 16 tokens. *)
Lemma forced_progress_exceeds_budget :
  ∃ out,
    chunk_content char_tokens {[ "f" := "abcdefgh" ]} 5 = Some out
    ∧ ¬ budget_respected char_tokens 5 out.
Proof.
  eexists. split; [vm_compute; reflexivity|].
  intros Hclaim.
  destruct (Hclaim (format_file_section "001_f" "abcd")) as [Hle|Hlen].
  - apply list_elem_of_here.
  - vm_compute in Hle. by apply Hle.
  - vm_compute in Hlen. discriminate Hlen.
Qed.

Lemma chunk_budget_by_origin_witness :
  (∃ acc,
     packed char_tokens 20
       {[ "f" := "aaaa" +:+ nl +:+ "bbbb" +:+ nl
                 +:+ "cccccccccccccccccccc" ]} acc
     ∧ tokens char_tokens acc ≤ 20
     ∧ format_file_section "001_f" ("aaaa" +:+ nl +:+ "bbbb") = strip acc)
  ∨ (∃ filename content n line pre remaining k,
       ({[ "f" := "aaaa" +:+ nl +:+ "bbbb" +:+ nl
                  +:+ "cccccccccccccccccccc" ]} : gmap string string)
         !! filename = Some content
       ∧ (1 ≤ n)%nat
       ∧ line ∈ split_lines content
       ∧ line = pre +:+ remaining
       ∧ (1 ≤ k ≤ String.length remaining)%nat
       ∧ format_file_section "001_f" ("aaaa" +:+ nl +:+ "bbbb")
         = format_file_section (part_name n filename)
             (slice_to k remaining)
       ∧ (tokens char_tokens (slice_to k remaining)
            ≤ 20 - tokens char_tokens (part_header n filename)
          ∨ (k = Nat.max 1 (String.length remaining / 2)
             ∧ 20 - tokens char_tokens (part_header n filename)
               < tokens char_tokens (slice_to 1 remaining))))
  ∨ (∃ filename content n before ls after,
       ({[ "f" := "aaaa" +:+ nl +:+ "bbbb" +:+ nl
                  +:+ "cccccccccccccccccccc" ]} : gmap string string)
         !! filename = Some content
       ∧ (1 ≤ n)%nat
       ∧ ls ≠ []
       ∧ split_lines content = before ++ ls ++ after
       ∧ format_file_section "001_f" ("aaaa" +:+ nl +:+ "bbbb")
         = format_file_section (part_name n filename) (join_lines ls)
       ∧ (sum_tokens char_tokens ls
          + tokens char_tokens (part_header n filename) ≤ 20
          ∨ ∃ line,
              ls = [line]
              ∧ (((2 ≤ n)%nat
                  ∧ tokens char_tokens line
                    + tokens char_tokens (part_header (n - 1) filename)
                    ≤ 20)
                 ∨ tokens char_tokens line
                   + tokens char_tokens (format_file_section filename "")
                   ≤ 20))).
Proof.
  apply (chunk_budget_by_origin char_count char_tokens
           {[ "f" := "aaaa" +:+ nl +:+ "bbbb" +:+ nl
                     +:+ "cccccccccccccccccccc" ]} 20
           [ format_file_section "001_f" ("aaaa" +:+ nl +:+ "bbbb");
             format_file_section "002_f" "cccccccc";
             format_file_section "003_f" "cccccccc";
             format_file_section "004_f" "cccc" ]).
  - intros text n [= <-]. reflexivity.
  - vm_compute. reflexivity.
  - apply list_elem_of_here.
Defined.

(** C10 as stated fails: with one token per character and a budget of 13,
    the line [xx yyy] is cut into one-character fragments, and the third
    chunk is the header of part 3 followed by a space. *)
Lemma part_chunk_ends_with_space :
  ∃ out,
    chunk_content char_tokens {[ "f" := "xx yyy" ]} 13 = Some out
    ∧ ¬ all_trimmed out.
Proof.
  eexists. split; [vm_compute; reflexivity|].
  intros Hclaim.
  specialize (Hclaim (format_file_section "003_f" " ")).
  assert (strip (format_file_section "003_f" " ")
          ≠ format_file_section "003_f" " ") as Hne by (by vm_compute).
  apply Hne, Hclaim.
  do 2 apply list_elem_of_further. apply list_elem_of_here.
Qed.


(** ** The chunker: termination, content, empty files, order *)

Section ContentTheorems.

Variable count_tokens : string → nat.
Variable token_limit : Z.
Abbreviation tokens := (tokens count_tokens).
Abbreviation process_file := (process_file count_tokens token_limit).

Lemma all_space_app_r (s1 s2 : string) :
  all_space s2 = false → all_space (s1 +:+ s2) = false.
Proof. intros H. by rewrite all_space_app, H, andb_false_r. Qed.

Lemma process_file_whole st filename content :
  has_long_lines count_tokens filename token_limit (split_lines content)
    = false →
  tokens (format_file_section filename content) ≤ token_limit →
  ∃ st', process_file st filename content = Some st'
         ∧ whole_effect count_tokens token_limit filename content st st'.
Proof.
  intros Hlong Hfit. unfold process_file.
  rewrite Hlong.
  destruct (Z.leb_spec (tokens (format_file_section filename content))
              token_limit) as [_|?]; [|lia].
  destruct (nonempty (current_chunk st)) eqn:Hne.
  - assert (current_chunk st ≠ "") by (by destruct (current_chunk st)).
    destruct (Z.leb_spec
                (tokens (current_chunk st +:+ nl +:+ nl
                         +:+ format_file_section filename content))
                token_limit).
    + eexists; split; [done|]. split; [done|]. right. left. done.
    + eexists; split; [done|]. split; [done|]. right. right. done.
  - apply nonempty_false in Hne.
    eexists; split; [done|]. split; [done|]. left. done.
Qed.

Lemma whole_effect_emitted filename content st1 st2 st3 :
  whole_effect count_tokens token_limit filename content st1 st2 →
  evolves st2 st3 →
  ∃ pre post,
    (pre = "" ∨ ∃ acc, pre = acc +:+ nl +:+ nl)
    ∧ extension post
    ∧ strip (pre +:+ format_file_section filename content +:+ post)
        ∈ chunks (flush_current_chunk st3).
Proof.
  intros [_ Hw] Hev.
  assert (∃ pre, (pre = "" ∨ ∃ acc, pre = acc +:+ nl +:+ nl)
                 ∧ current_chunk st2
                   = pre +:+ format_file_section filename content)
    as (pre & Hpre & Hcc).
  { destruct Hw as [(_ & _ & ->)|[(_ & _ & _ & ->)|(_ & _ & _ & ->)]].
    - exists "". auto.
    - exists (current_chunk st1 +:+ nl +:+ nl). split; [eauto|].
      by rewrite !str_app_assoc.
    - exists "". auto. }
  destruct (section_emitted st2 st3 pre _ Hcc
              (section_not_all_space filename content) Hev)
    as (post & Hext & Hin).
  by exists pre, post.
Qed.

Lemma productive_after_file st1 st2 filename content :
  remove_newlines content ≠ "" →
  process_file st1 filename content = Some st2 →
  chunks st2 ≠ [] ∨ all_space (current_chunk st2) = false.
Proof.
  intros Htext Hst2.
  destruct (process_file_effect count_tokens token_limit st1 filename content)
    as (st2' & Hst2' & Heff).
  rewrite Hst2 in Hst2'. injection Hst2' as <-.
  destruct Heff as [[_ Hw]|(bodies & Hparts & l1 & fl & l2 & Hch & Hnum & _)].
  - right.
    destruct Hw as [(_ & _ & ->)|[(_ & _ & _ & ->)|(_ & _ & _ & ->)]];
      try done.
    rewrite <- !str_app_assoc. by apply all_space_app_r.
  - left. rewrite Hch.
    assert (bodies ≠ []) as Hne.
    { eapply parts_of_not_nil; [done|]. by rewrite concat_split_lines. }
    destruct bodies as [|b bodies]; [done|]. simpl in Hnum.
    intros Hnil. apply app_eq_nil in Hnil as [_ Hnil].
    apply app_eq_nil in Hnil as [-> Hnil].
    apply app_eq_nil in Hnil as [_ ->]. done.
Qed.

Lemma productive_at_end st2 st3 :
  chunks st2 ≠ [] ∨ all_space (current_chunk st2) = false →
  evolves st2 st3 →
  chunks (flush_current_chunk st3) ≠ [].
Proof.
  intros Hprod [[k Hk] Hev].
  assert (∀ chunk, chunk ∈ chunks (flush_current_chunk st3) →
          chunks (flush_current_chunk st3) ≠ []) as Hin
    by (intros chunk Hc Hnil; rewrite Hnil in Hc; by apply elem_of_nil in Hc).
  destruct Hprod as [Hch|Hns].
  - destruct (chunks st2) as [|c l] eqn:Hc2; [done|].
    apply (Hin c), elem_of_flush. rewrite Hk.
    apply elem_of_app. left. apply list_elem_of_here.
  - destruct Hev as [?|(post & _ & [Hcc|Hemitted])]; [congruence|..].
    + destruct (flush_cases st3) as [[Hsp _]|[_ ->]].
      * rewrite Hcc, all_space_app, Hns in Hsp. done.
      * simpl. by intros [_ ?]%app_eq_nil.
    + by apply (Hin _ (elem_of_flush _ _ Hemitted)).
Qed.

Lemma chunk_content_total (content_by_file : gmap string string) :
  (∃ out,
     chunk_content count_tokens content_by_file token_limit = Some out
     ∧ ((∃ filename content,
           content_by_file !! filename = Some content
           ∧ remove_newlines content ≠ "") →
        out ≠ []))
  ∧ (∀ line filename n,
       ∃ frags,
         split_long_line count_tokens line filename n token_limit
           = Some (numbered filename n frags)
         ∧ concat_bodies frags = line
         ∧ Forall (λ frag, frag ≠ "") frags
         ∧ fragments count_tokens token_limit filename n line frags).
Proof.
  split.
  - destruct (chunk_content_origin count_tokens token_limit content_by_file)
      as (out & Hout & _).
    exists out. split; [done|]. intros (filename & content & Hf & Htext).
    destruct (chunk_content_at_file count_tokens token_limit content_by_file
                filename content Hf)
      as (st1 & st2 & st3 & _ & Hst2 & Hev & Hout').
    rewrite Hout in Hout'. injection Hout' as ->.
    eapply productive_at_end; [|done].
    by eapply productive_after_file.
  - intros line filename n.
    destruct (split_long_line_spec count_tokens line filename n token_limit)
      as (frags & Hsplit & Hfrags).
    exists frags. split; [done|].
    eauto using fragments_concat, fragments_nonempty.
Qed.


End ContentTheorems.

Section ContentRaising.

Variable count_tokens : string → Files.exception + nat.
Variable counts : string → nat.

Lemma strip_sections_text (group : list (string * string)) :
  group ≠ [] →
  ∃ post,
    sections_text group = strip (sections_text group) +:+ post
    ∧ all_space post = true.
Proof.
  intros [rest Hrest]%sections_text_prefix. rewrite Hrest.
  rewrite strip_file_prefix, <- rstrip_file_prefix.
  apply rstrip_suffix.
Qed.



End ContentRaising.


(** ** The chunker on concrete inputs, and the order of the chunks *)

Lemma sorted_keys_pair (a b x y : string) :
  a ≠ b → String.le a b → sorted_keys (<[a := x]> {[b := y]}) = [a; b].
Proof.
  intros Hne Hle. unfold sorted_keys.
  apply (Sorted_unique String.le).
  - apply Sorted_merge_sort. apply _.
  - by repeat constructor.
  - rewrite merge_sort_Permutation.
    rewrite map_to_list_insert by (by apply lookup_singleton_ne).
    by rewrite map_to_list_singleton.
Qed.

(** C2, on the code. The file [a] sorts before the file [b]; [a] fits the
    budget as a whole and waits in the accumulator; the content of [b] is one
    line, too long for the budget. The fragments of the line of [b] are then
    appended to the output without the accumulator being flushed first, and
    the chunk of [a] is emitted after all the chunks of [b]. *)
Theorem accumulator_emitted_after_split_line (count_tokens : string → nat)
    (token_limit : Z) (a b x line : string) :
  a ≠ b →
  String.le a b →
  has_long_lines count_tokens a token_limit (split_lines x) = false →
  tokens count_tokens (format_file_section a x) ≤ token_limit →
  split_lines line = [line] →
  line ≠ "" →
  tokens count_tokens line
    > token_limit - tokens count_tokens (format_file_section b "") →
  tokens count_tokens line
    > token_limit - tokens count_tokens (part_header 1 b) →
  ∃ frags,
    frags ≠ []
    ∧ fragments count_tokens token_limit b 1 line frags
    ∧ chunk_content count_tokens (<[a := x]> {[b := line]}) token_limit
      = Some (numbered b 1 frags ++ [strip (format_file_section a x)]).
Proof.
  intros Hne Hle Hshort Hfit Hline Hnonempty Hlong Hlong1.
  destruct (split_long_line_spec count_tokens line b 1 token_limit)
    as (frags & Hsplit & Hfrags).
  exists frags. split; [|split; [done|]].
  { intros ->. apply fragments_concat in Hfrags. by subst line. }
  unfold chunk_content. rewrite sorted_keys_pair by done.
  cbn [process_files].
  rewrite lookup_insert_eq. cbn [mbind option_bind].
  destruct (process_file_whole count_tokens token_limit (State [] "" 0) a x
              Hshort Hfit) as (st & Hst & _ & Hw).
  rewrite Hst. cbn [mbind option_bind].
  destruct Hw as [(_ & Hch & Hcc)|[(? & _)|(? & _)]]; try done.
  simpl in Hch.
  rewrite lookup_insert_ne, lookup_singleton_eq by done.
  cbn [mbind option_bind].
  unfold process_file. rewrite Hline.
  assert (has_long_lines count_tokens b token_limit [line] = true) as ->.
  { simpl. rewrite orb_false_r. by apply Z.gtb_gt. }
  cbn [split_lines_loop]. unfold split_line_step.
  cbn [part_number part_lines outer].
  assert ((tokens count_tokens line
             >? token_limit
                - tokens count_tokens
                    (format_file_section (part_name 1 b) ""))
          = true) as -> by (by apply Z.gtb_gt).
  unfold flush_part_lines. cbn [part_number part_lines outer].
  rewrite Hsplit. cbn [mbind option_bind]. unfold finish_parts.
  cbn [part_number part_lines outer].
  destruct (flush_cases
              (State (chunks st ++ numbered b 1 frags) (current_chunk st)
                 (current_chunk_tokens st))) as [[Hsp _]|[_ ->]].
  - simpl in Hsp. by rewrite Hcc in Hsp.
  - simpl. by rewrite Hch, Hcc.
Qed.

Lemma accumulator_emitted_after_split_line_witness :
  ∃ frags,
    frags ≠ []
    ∧ fragments char_tokens 20 "b" 1 "yyyyyyyyyyyyyyyyyyyy" frags
    ∧ chunk_content char_tokens
        (<["a" := "x"]> {[ "b" := "yyyyyyyyyyyyyyyyyyyy" ]}) 20
      = Some (numbered "b" 1 frags ++ [strip (format_file_section "a" "x")]).
Proof.
  apply (accumulator_emitted_after_split_line char_tokens 20 "a" "b" "x"
           "yyyyyyyyyyyyyyyyyyyy").
  - discriminate.
  - exact I.
  - reflexivity.
  - apply Z.leb_le. reflexivity.
  - reflexivity.
  - discriminate.
  - apply Z.gtb_gt. reflexivity.
  - apply Z.gtb_gt. reflexivity.
Defined.

(** The same run, evaluated: three chunks of [b], then the chunk of [a]. *)
Example chunk_of_a_after_chunks_of_b :
  chunk_content char_tokens
    (<["a" := "x"]> {[ "b" := "yyyyyyyyyyyyyyyyyyyy" ]}) 20
  = Some [ format_file_section "001_b" "yyyyyyyy";
           format_file_section "002_b" "yyyyyyyy";
           format_file_section "003_b" "yyyy";
           format_file_section "a" "x" ].
Proof. vm_compute. reflexivity. Qed.

(** The inputs of [tests/test_chunking.py], one token per character: two
    small files make one chunk; of three small files under a budget sized
    for two, the first two are packed and the third is left alone. *)
Example two_small_files_one_chunk :
  chunk_content char_tokens
    (<["file1.py" := "print('hello world')"]>
       {[ "file2.py" := "print('another file')" ]}) 4000
  = Some [ format_file_section "file1.py" "print('hello world')"
           +:+ nl +:+ nl
           +:+ format_file_section "file2.py" "print('another file')" ].
Proof. vm_compute. reflexivity. Qed.

Example three_small_files_two_chunks :
  chunk_content char_tokens
    (<["a.py" := "print('first')"]>
       (<["b.py" := "print('second')"]> {[ "c.py" := "print('third')" ]}))
    60
  = Some [ format_file_section "a.py" "print('first')"
           +:+ nl +:+ nl
           +:+ format_file_section "b.py" "print('second')";
           format_file_section "c.py" "print('third')" ].
Proof. vm_compute. reflexivity. Qed.

(** Lines whose tokens add up to the budget are joined into a part whose
    line feeds are not counted: here 21 tokens under a budget of 20. *)
Example joined_lines_over_budget :
  chunk_content char_tokens
    {[ "f" := "aaaa" +:+ nl +:+ "bbbb" +:+ nl +:+ "cccccccccccccccccccc" ]}
    20
  = Some [ format_file_section "001_f" ("aaaa" +:+ nl +:+ "bbbb");
           format_file_section "002_f" "cccccccc";
           format_file_section "003_f" "cccccccc";
           format_file_section "004_f" "cccc" ]
  ∧ tokens char_tokens
      (format_file_section "001_f" ("aaaa" +:+ nl +:+ "bbbb")) = 21.
Proof. split; vm_compute; reflexivity. Qed.



(** The forced fragment is not the smallest one: under a budget of 5
    tokens, which no header fits, the first fragment forced out of
    [print('hello')] is its first half, seven characters and not one. *)
Lemma forced_fragment_is_half_the_line :
  ∃ out,
    chunk_content char_tokens {[ "test.py" := "print('hello')" ]} 5 = Some out
    ∧ format_file_section "001_test.py" "print('" ∈ out
    ∧ ¬ minimal_fragments out.
Proof.
  eexists. split; [vm_compute; reflexivity|].
  assert (format_file_section "001_test.py" "print('"
            ∈ [ format_file_section "001_test.py" "print('";
                format_file_section "002_test.py" "hel";
                format_file_section "003_test.py" "lo";
                format_file_section "004_test.py" "'";
                format_file_section "005_test.py" ")" ]) as Hin
    by apply list_elem_of_here.
  split; [exact Hin|].
  intros Hclaim. specialize (Hclaim _ Hin). vm_compute in Hclaim.
  discriminate Hclaim.
Qed.

(** A file that holds one line feed, under a budget of one token, which no
    header fits, gives no chunk at all. *)
Lemma newline_only_file_gives_no_chunk :
  ({[ "f" := nl ]} : gmap string string) ≠ ∅
  ∧ (∀ filename content,
       ({[ "f" := nl ]} : gmap string string) !! filename = Some content →
       content ≠ "")
  ∧ 0 < 1
  ∧ chunk_content char_tokens {[ "f" := nl ]} 1 = Some [].
Proof.
  split; [apply map_non_empty_singleton|]. split; [|split; [lia|]].
  - intros filename content [_ <-]%lookup_singleton_Some. discriminate.
  - vm_compute. reflexivity.
Qed.




(** Under a budget of one token, which the header of the empty file does not
    fit, the empty file leaves no chunk. *)
Lemma empty_file_dropped_under_small_budget :
  0 < 1 ∧ chunk_content char_tokens {[ "f" := "" ]} 1 = Some [].
Proof. split; [lia|]. vm_compute. reflexivity. Qed.



(** ** The file filter and the concatenator *)

Section FilesTheorems.

Import Files.

Variable fs : filesystem.

Lemma glob_loop_elem ignore_patterns candidates files result file :
  glob_loop fs ignore_patterns candidates files = inr result →
  file ∈ result →
  file ∈ files ∨ is_binary_file fs file = false.
Proof.
  revert files. induction candidates as [|c cs IH]; intros files; simpl.
  { intros [= <-]. by left. }
  destruct (negb (is_file fs c)); [apply IH|].
  destruct (any_match fs c ignore_patterns) as [e|[|]]; [done|apply IH|].
  destruct (is_binary_file fs c) eqn:Hbin; [apply IH|].
  intros Hrun Hres. destruct (IH _ Hrun Hres) as [Hin|?]; [|by right].
  apply elem_of_app in Hin as [?|Heq%list_elem_of_singleton]; [by left|].
  subst. by right.
Qed.

Lemma glob_loop_raises ignore_patterns candidates files e :
  glob_loop fs ignore_patterns candidates files = inl e →
  ∃ file,
    file ∈ candidates ∧ is_file fs file = true
    ∧ any_match fs file ignore_patterns = inl e.
Proof.
  revert files. induction candidates as [|c cs IH]; intros files; simpl;
    [done|].
  assert (∀ files',
    glob_loop fs ignore_patterns cs files' = inl e →
    ∃ file,
      file ∈ c :: cs ∧ is_file fs file = true
      ∧ any_match fs file ignore_patterns = inl e) as Hrest.
  { intros files' (file & Hin & Hfile)%IH. exists file.
    split; [by apply list_elem_of_further|done]. }
  destruct (is_file fs c) eqn:Hc; cbn [negb]; [|apply Hrest].
  destruct (any_match fs c ignore_patterns) as [e'|[|]] eqn:Hmatch.
  - intros [= <-]. exists c. split; [apply list_elem_of_here|done].
  - apply Hrest.
  - destruct (is_binary_file fs c); apply Hrest.
Qed.

Lemma concatenate_loop_skips base before file after result :
  is_binary_file fs file = true →
  concatenate_loop fs base (before ++ file :: after) result
  = concatenate_loop fs base (before ++ after) result.
Proof.
  intros Hbin. revert result.
  induction before as [|f before IH]; intros result; simpl.
  - by rewrite Hbin.
  - destruct (is_binary_file fs f); [apply IH|].
    destruct (relative_to fs f base) as [e|rel];
      [destruct e; try done; apply IH|].
    destruct (read_text fs f) as [e|content];
      [destruct e; try done; apply IH|apply IH].
Qed.

(** C5. When a MIME type is guessed for the file and it does not start
    with [text/], or when the file cannot be read, or when its first 1024
    bytes hold a null byte, and only then, [is_binary_file] answers [True]
    (the guess, when there is one, is not the empty string). A file with a
    null byte in its first 1024 bytes is therefore never in what
    [glob_files] returns, and [concatenate_files] passes over it: the file
    list with it and the file list without it give the same sections. *)
Theorem binary_files_detected_and_left_out (file : string) :
  guess_type fs file ≠ Some "" →
  (is_binary_file fs file = true ↔
     (∃ mime_type,
        guess_type fs file = Some mime_type
        ∧ startswith "text/" mime_type = false)
     ∨ read_bytes fs file = None
     ∨ (∃ bytes,
          read_bytes fs file = Some bytes
          ∧ has_null_byte (firstn 1024 bytes) = true))
  ∧ (∀ bytes,
       read_bytes fs file = Some bytes →
       has_null_byte (firstn 1024 bytes) = true →
       (∀ base_path target_dir ignore_patterns allow_missing files,
          glob_files fs base_path target_dir ignore_patterns allow_missing
            = inr files →
          file ∉ files)
       ∧ (∀ base_path before after result,
            concatenate_loop fs base_path (before ++ file :: after) result
            = concatenate_loop fs base_path (before ++ after) result)).
Proof.
  intros Hguess.
  assert (is_binary_file fs file = true ↔
     (∃ mime_type,
        guess_type fs file = Some mime_type
        ∧ startswith "text/" mime_type = false)
     ∨ read_bytes fs file = None
     ∨ (∃ bytes,
          read_bytes fs file = Some bytes
          ∧ has_null_byte (firstn 1024 bytes) = true)) as Hiff.
  { unfold is_binary_file.
    destruct (guess_type fs file) as [t|] eqn:Ht.
    - destruct (startswith "text/" t) eqn:Hstart; cbn [negb].
      + rewrite andb_false_r.
        destruct (read_bytes fs file) as [bytes|].
        * split; [intros ?; right; right; by exists bytes|].
          intros [(t' & Ht' & Hno)|[Hnone|(bytes' & Hb & Hnull)]].
          -- injection Ht' as <-. congruence.
          -- discriminate Hnone.
          -- by injection Hb as <-.
        * split; [by right; left|done].
      + assert (nonempty t = true) as ->
          by (destruct t; [by destruct Hguess|done]).
        cbn [andb]. split; [|done]. intros _. left. by exists t.
    - destruct (read_bytes fs file) as [bytes|].
      + split; [intros ?; right; right; by exists bytes|].
        intros [(t' & Ht' & Hno)|[Hnone|(bytes' & Hb & Hnull)]].
        * discriminate Ht'.
        * discriminate Hnone.
        * by injection Hb as <-.
      + split; [by right; left|done]. }
  split; [done|]. intros bytes Hread Hnull.
  assert (is_binary_file fs file = true) as Hbin.
  { apply Hiff. right. right. by exists bytes. }
  split.
  - intros base_path target_dir ignore_patterns allow_missing files.
    unfold glob_files. destruct (negb _).
    + destruct allow_missing; [|done]. intros [= <-]. apply not_elem_of_nil.
    + intros Hrun Hres.
      destruct (glob_loop_elem _ _ _ _ _ Hrun Hres) as [Hin|Hno];
        [|congruence].
      by apply not_elem_of_nil in Hin.
  - intros. by apply concatenate_loop_skips.
Qed.


Lemma concatenate_loop_appends base files result result' :
  concatenate_loop fs base files result = inr result' →
  ∃ extra, result' = result ++ extra.
Proof.
  revert result. induction files as [|f files IH]; intros result; simpl.
  - intros [= <-]. exists []. by rewrite (right_id_L [] (++)).
  - destruct (is_binary_file fs f); [apply IH|].
    destruct (relative_to fs f base) as [e|rel];
      [destruct e; try done; apply IH|].
    destruct (read_text fs f) as [e|content];
      [destruct e; try done; apply IH|].
    intros (extra & ->)%IH.
    destruct (0 <? length result)%nat;
      eexists; by rewrite <- !(assoc_L (++)).
Qed.

Lemma join_lines_app (l1 l2 : list string) :
  l1 ≠ [] → l2 ≠ [] →
  join_lines (l1 ++ l2) = join_lines l1 +:+ nl +:+ join_lines l2.
Proof.
  intros Hl1 Hl2. induction l1 as [|a l1 IH]; [done|].
  destruct l1 as [|b l1].
  - simpl. by destruct l2.
  - change ((a :: b :: l1) ++ l2) with (a :: ((b :: l1) ++ l2)).
    rewrite join_lines_cons by (by intros [? _]%app_eq_nil).
    rewrite IH by done.
    rewrite (join_lines_cons a (b :: l1)) by done.
    by rewrite !str_app_assoc.
Qed.

(** C7, amended. For a list of files that is not empty, when
    [concatenate_files] returns, its text starts with the line
    [# Metadata] and the five lines [total_tokens: 0],
    [file_count: <number of input files>], [repository: ...],
    [target_directory: ...] and [generated: ...], in this order; what
    follows, if anything, starts on a new line. *)
Theorem metadata_section_first (now : string) (files : list string)
    (base_path repository_url target_dir text : string) :
  files ≠ [] →
  concatenate_files fs now files base_path repository_url target_dir
    = inr text →
  ∃ rest,
    text
    = join_lines
        [ "# Metadata";
          "total_tokens: 0";
          "file_count: " +:+ pretty (length files);
          "repository: " +:+ repository_url;
          "target_directory: " +:+ target_dir;
          "generated: " +:+ now ]
      +:+ rest
    ∧ (rest = "" ∨ startswith nl rest = true).
Proof.
  intros Hne. unfold concatenate_files.
  destruct files as [|f files]; [done|]. cbn [fold_left metadata fst snd app].
  destruct (concatenate_loop _ _ _ _) as [e|result] eqn:Hloop; [done|].
  intros [= <-].
  apply concatenate_loop_appends in Hloop as [extra ->].
  destruct extra as [|x extra].
  - exists "". rewrite (right_id_L [] (++)), str_app_nil_r. auto.
  - rewrite join_lines_app by done.
    eexists. split; [reflexivity|]. by right.
Qed.

(** C9, on the code. The first file of the list, when it is not binary and
    can be read, is given a blank line before its [File:] line, like every
    other file: [result] already holds the metadata lines when the test
    [len(result) > 0] is made. *)
Theorem blank_line_before_first_file (now : string)
    (file : string) (rest : list string)
    (base_path repository_url target_dir relative_path content : string) :
  is_binary_file fs file = false →
  relative_to fs file base_path = inr relative_path →
  read_text fs file = inr content →
  concatenate_files fs now (file :: rest) base_path repository_url
    target_dir
  = match
      concatenate_loop fs base_path rest
        [ "# Metadata";
          "total_tokens: 0";
          "file_count: " +:+ pretty (length (file :: rest));
          "repository: " +:+ repository_url;
          "target_directory: " +:+ target_dir;
          "generated: " +:+ now;
          "";
          "File: " +:+ relative_path;
          content ]
    with
    | inl e => inl e
    | inr result => inr (join_lines result)
    end.
Proof.
  intros Hbin Hrel Hread. unfold concatenate_files.
  cbn [fold_left metadata fst snd app concatenate_loop].
  by rewrite Hbin, Hrel, Hread.
Qed.

End FilesTheorems.

Lemma binary_files_detected_and_left_out_witness :
  Files.guess_type demo_fs "/repo/src/logo.txt" ≠ Some ""
  ∧ Files.is_binary_file demo_fs "/repo/src/logo.txt" = true
  ∧ Files.glob_files demo_fs "/repo" "/src" ["*.pyc"] false
    = inr ["/repo/src/a.txt"].
Proof.
  assert (Files.guess_type demo_fs "/repo/src/logo.txt" ≠ Some "") as Hguess
    by discriminate.
  split; [exact Hguess|].
  destruct (binary_files_detected_and_left_out demo_fs "/repo/src/logo.txt"
              Hguess) as [Hiff _].
  split; [|reflexivity].
  apply Hiff. right. right. eexists. split; reflexivity.
Defined.



(** C7 as stated fails: for the empty list [concatenate_files] returns the
    empty string, with no metadata. *)
Lemma no_metadata_for_empty_list :
  Files.concatenate_files demo_fs "2024-01-01T00:00:00" [] "/repo/src"
    "https://github.com/test/repo" "/test/dir" = inr ""
  ∧ startswith "# Metadata" "" = false.
Proof. split; reflexivity. Qed.

Lemma metadata_section_first_witness :
  ∃ rest,
    join_lines
      [ "# Metadata"; "total_tokens: 0"; "file_count: 2";
        "repository: https://github.com/test/repo";
        "target_directory: /test/dir";
        "generated: 2024-01-01T00:00:00"; "";
        "File: a.txt"; "hi" ]
    = join_lines
        [ "# Metadata"; "total_tokens: 0";
          "file_count: " +:+ pretty (length ["/repo/src/a.txt";
                                            "/repo/src/logo.txt"]);
          "repository: " +:+ "https://github.com/test/repo";
          "target_directory: " +:+ "/test/dir";
          "generated: " +:+ "2024-01-01T00:00:00" ]
      +:+ rest
    ∧ (rest = "" ∨ startswith nl rest = true).
Proof.
  apply (metadata_section_first demo_fs "2024-01-01T00:00:00"
           ["/repo/src/a.txt"; "/repo/src/logo.txt"] "/repo/src"
           "https://github.com/test/repo" "/test/dir").
  - discriminate.
  - vm_compute. reflexivity.
Defined.

Lemma blank_line_before_first_file_witness :
  Files.concatenate_files demo_fs "2024-01-01T00:00:00" ["/repo/src/a.txt"]
    "/repo/src" "https://github.com/test/repo" "/test/dir"
  = inr
      (join_lines
         [ "# Metadata"; "total_tokens: 0"; "file_count: 1";
           "repository: https://github.com/test/repo";
           "target_directory: /test/dir";
           "generated: 2024-01-01T00:00:00"; "";
           "File: a.txt"; "hi" ]).
Proof.
  rewrite (blank_line_before_first_file demo_fs "2024-01-01T00:00:00"
             "/repo/src/a.txt" [] "/repo/src" "https://github.com/test/repo"
             "/test/dir" "a.txt" "hi"); reflexivity.
Defined.


(** ** More on the file filter and the concatenator *)

Section FilesMore.

Import Files.

Variable fs : filesystem.

Lemma glob_loop_closed ignore_patterns candidates files :
  match glob_loop fs ignore_patterns candidates files with
  | inr result =>
      Forall (λ file, candidate_error fs ignore_patterns file = None)
        candidates
      ∧ result
        = files
          ++ List.filter
               (λ file,
                  is_file fs file
                  && negb (matched fs ignore_patterns file)
                  && negb (is_binary_file fs file))
               candidates
  | inl e =>
      ∃ before file after,
        candidates = before ++ file :: after
        ∧ Forall (λ file, candidate_error fs ignore_patterns file = None)
            before
        ∧ candidate_error fs ignore_patterns file = Some e
  end.
Proof.
  revert files. induction candidates as [|c cs IH]; intros files.
  { simpl. by rewrite (right_id_L [] (++)). }
  assert
    ((∃ e, candidate_error fs ignore_patterns c = Some e
           ∧ glob_loop fs ignore_patterns (c :: cs) files = inl e)
     ∨ (candidate_error fs ignore_patterns c = None
        ∧ is_file fs c && negb (matched fs ignore_patterns c)
          && negb (is_binary_file fs c) = false
        ∧ glob_loop fs ignore_patterns (c :: cs) files
          = glob_loop fs ignore_patterns cs files)
     ∨ (candidate_error fs ignore_patterns c = None
        ∧ is_file fs c && negb (matched fs ignore_patterns c)
          && negb (is_binary_file fs c) = true
        ∧ glob_loop fs ignore_patterns (c :: cs) files
          = glob_loop fs ignore_patterns cs (files ++ [c])))
    as [(e & Hc & ->)|[(Hc & Hkeep & ->)|(Hc & Hkeep & ->)]].
  { unfold candidate_error, matched. cbn [glob_loop].
    destruct (is_file fs c); cbn [negb andb]; [|by right; left].
    destruct (any_match fs c ignore_patterns) as [e|[|]]; cbn [negb andb].
    - left. by exists e.
    - by right; left.
    - destruct (is_binary_file fs c); cbn [negb];
        [by right; left|by right; right]. }
  - exists [], c, cs. by repeat split.
  - specialize (IH files).
    destruct (glob_loop fs ignore_patterns cs files) as [e|result].
    + destruct IH as (before & file & after & -> & Hall & Hfile).
      exists (c :: before), file, after. split; [done|].
      split; [by constructor|done].
    + destruct IH as [Hall ->]. split; [by constructor|].
      cbn [List.filter]. by rewrite Hkeep.
  - specialize (IH (files ++ [c])).
    destruct (glob_loop fs ignore_patterns cs (files ++ [c]))
      as [e|result].
    + destruct IH as (before & file & after & -> & Hall & Hfile).
      exists (c :: before), file, after. split; [done|].
      split; [by constructor|done].
    + destruct IH as [Hall ->]. split; [by constructor|].
      cbn [List.filter]. rewrite Hkeep. by rewrite <- (assoc_L (++)).
Qed.

(** X1. When the target directory exists, [glob_files] either returns or
    raises what [Path.match] raises on an ignore pattern.  It returns when
    no regular file among the candidates makes a pattern raise before one
    matches, and the result is then, in the order in which [rglob] yields
    them, exactly the paths that are regular files, match none of the
    ignore patterns and are not binary.  It raises the exception of the
    first candidate, in that order, that is a regular file and on which a
    pattern raises. *)
Theorem glob_files_is_a_filter (base_path target_dir : string)
    (ignore_patterns : list string) (allow_missing : bool) :
  path_exists fs (joinpath fs base_path (lstrip_slash target_dir)) = true →
  match
    glob_files fs base_path target_dir ignore_patterns allow_missing
  with
  | inr files =>
      Forall (λ file, candidate_error fs ignore_patterns file = None)
        (rglob fs (joinpath fs base_path (lstrip_slash target_dir)))
      ∧ files
        = List.filter
            (λ file,
               is_file fs file
               && negb (matched fs ignore_patterns file)
               && negb (is_binary_file fs file))
            (rglob fs (joinpath fs base_path (lstrip_slash target_dir)))
  | inl e =>
      ∃ before file after,
        rglob fs (joinpath fs base_path (lstrip_slash target_dir))
        = before ++ file :: after
        ∧ Forall (λ file, candidate_error fs ignore_patterns file = None)
            before
        ∧ candidate_error fs ignore_patterns file = Some e
  end.
Proof.
  intros Hex. unfold glob_files. rewrite Hex. cbn [negb].
  apply (glob_loop_closed ignore_patterns
           (rglob fs (joinpath fs base_path (lstrip_slash target_dir))) []).
Qed.

Lemma concatenate_loop_app base l1 l2 result :
  concatenate_loop fs base (l1 ++ l2) result
  = match concatenate_loop fs base l1 result with
    | inl e => inl e
    | inr result' => concatenate_loop fs base l2 result'
    end.
Proof.
  revert result. induction l1 as [|f l1 IH]; intros result; simpl; [done|].
  destruct (is_binary_file fs f); [apply IH|].
  destruct (relative_to fs f base) as [e|rel];
    [destruct e; try done; apply IH|].
  destruct (read_text fs f) as [e|content];
    [destruct e; try done; apply IH|apply IH].
Qed.

Lemma concatenate_loop_sections base files result result' :
  result ≠ [] →
  concatenate_loop fs base files result = inr result' →
  result' = result ++ flat_map (section_lines fs base) files.
Proof.
  revert result. induction files as [|f files IH]; intros result Hne; simpl.
  - intros [= <-]. by rewrite (right_id_L [] (++)).
  - unfold section_lines at 1.
    destruct (is_binary_file fs f); [by apply IH|].
    destruct (relative_to fs f base) as [e|rel].
    { destruct e; try done. by apply IH. }
    destruct (read_text fs f) as [e|content].
    { destruct e; try done. by apply IH. }
    assert ((0 <? length result)%nat = true) as ->.
    { apply Nat.ltb_lt. destruct result; [done|simpl; lia]. }
    intros Hloop. apply IH in Hloop.
    + rewrite Hloop. by rewrite <- !(assoc_L (++)).
    + by intros [_ ?]%app_eq_nil.
Qed.

Lemma concatenate_loop_ok base files result :
  Forall (λ f, file_error fs base f = None) files →
  ∃ result', concatenate_loop fs base files result = inr result'.
Proof.
  revert result. induction files as [|f files IH]; intros result Hall;
    simpl; [by eexists|].
  apply Forall_cons in Hall as [Hf Hall]. unfold file_error in Hf.
  destruct (is_binary_file fs f); [by apply IH|].
  destruct (relative_to fs f base) as [e|rel];
    [destruct e; try done; by apply IH|].
  destruct (read_text fs f) as [e|content];
    [destruct e; try done; by apply IH|by apply IH].
Qed.

Lemma concatenate_loop_error base f files result e :
  file_error fs base f = Some e →
  concatenate_loop fs base (f :: files) result = inl e.
Proof.
  unfold file_error. simpl.
  destruct (is_binary_file fs f); [done|].
  destruct (relative_to fs f base) as [e'|rel];
    [destruct e'; by intros [= <-]|].
  destruct (read_text fs f) as [e'|content];
    [destruct e'; by intros [= <-]|done].
Qed.

Lemma concatenate_loop_fails base files result e :
  concatenate_loop fs base files result = inl e ↔
  ∃ before file after,
    files = before ++ file :: after
    ∧ Forall (λ f, file_error fs base f = None) before
    ∧ file_error fs base file = Some e.
Proof.
  split.
  - revert result. induction files as [|f files IH]; intros result;
      [done|].
    destruct (file_error fs base f) as [e'|] eqn:Herr.
    + rewrite (concatenate_loop_error _ _ _ _ _ Herr). intros [= <-].
      exists [], f, files. by repeat split.
    + change (f :: files) with ([f] ++ files).
      rewrite concatenate_loop_app.
      destruct (concatenate_loop_ok base [f] result) as [r ->];
        [by repeat constructor|].
      intros (before & file & after & -> & Hall & Hfile)%IH.
      exists (f :: before), file, after. repeat split; [|done].
      by constructor.
  - intros (before & file & after & -> & Hall & Hfile).
    rewrite concatenate_loop_app.
    destruct (concatenate_loop_ok base before result Hall) as [r ->].
    by apply concatenate_loop_error.
Qed.

Lemma metadata_result now files repository_url target_dir :
  fold_left (λ result kv, result ++ [kv.1 +:+ ": " +:+ kv.2])
    (metadata now files repository_url target_dir) ["# Metadata"]
  = metadata_lines now files repository_url target_dir.
Proof. done. Qed.

(** X2. When [concatenate_files] returns for a list that is not empty, its
    text is the six metadata lines, [file_count] being the number of input
    files whether or not they are kept, followed for each file that is
    neither binary nor undecodable, in the order of the list, by a blank
    line, the line [File: <relative path>] and the content, all joined by
    line feeds; the files passed over leave no trace. *)
Theorem concatenate_files_layout (now : string) (files : list string)
    (base_path repository_url target_dir text : string) :
  files ≠ [] →
  concatenate_files fs now files base_path repository_url target_dir
    = inr text →
  text
  = join_lines
      (metadata_lines now files repository_url target_dir
       ++ flat_map (section_lines fs base_path) files).
Proof.
  intros Hne. unfold concatenate_files.
  destruct files as [|f files]; [done|].
  rewrite metadata_result.
  destruct (concatenate_loop _ _ _ _) as [e|result] eqn:Hloop; [done|].
  intros [= <-]. f_equal.
  by apply concatenate_loop_sections in Hloop.
Qed.

(** X3. [concatenate_files] raises exactly when some file that is not
    binary makes [relative_to] or [read_text] raise something other than
    [UnicodeDecodeError]; the exception is that of the first such file of
    the list, and nothing is returned for the files before it. *)
Theorem concatenate_files_first_error (now : string) (files : list string)
    (base_path repository_url target_dir : string) (e : exception) :
  concatenate_files fs now files base_path repository_url target_dir
    = inl e
  ↔ ∃ before file after,
      files = before ++ file :: after
      ∧ Forall (λ f, file_error fs base_path f = None) before
      ∧ file_error fs base_path file = Some e.
Proof.
  unfold concatenate_files. destruct files as [|f files].
  - split; [done|]. intros (before & file & after & Heq & _).
    by destruct before.
  - rewrite metadata_result.
    rewrite <- (concatenate_loop_fails base_path (f :: files)
                  (metadata_lines now (f :: files) repository_url
                     target_dir) e).
    destruct (concatenate_loop fs base_path (f :: files)
                (metadata_lines now (f :: files) repository_url target_dir))
      as [e'|result]; split; intros H; congruence.
Qed.

End FilesMore.

Lemma glob_files_is_a_filter_witness :
  Forall (λ file, candidate_error demo_fs ["*.pyc"] file = None)
    ["/repo/src/a.txt"; "/repo/src/logo.txt"]
  ∧ ["/repo/src/a.txt"]
    = List.filter
        (λ file,
           Files.is_file demo_fs file
           && negb (matched demo_fs ["*.pyc"] file)
           && negb (Files.is_binary_file demo_fs file))
        ["/repo/src/a.txt"; "/repo/src/logo.txt"].
Proof.
  apply (glob_files_is_a_filter demo_fs "/repo" "/src" ["*.pyc"] false).
  reflexivity.
Defined.

(** With the empty pattern among the ignore patterns, [glob_files] raises on
    the first regular file. *)
Example glob_files_empty_pattern :
  Files.glob_files demo_fs "/repo" "/src" ["*.pyc"; ""] false
  = inl (Files.ValueError "empty pattern").
Proof. reflexivity. Qed.

Lemma concatenate_files_layout_witness :
  join_lines
    [ "# Metadata"; "total_tokens: 0"; "file_count: 2";
      "repository: https://github.com/test/repo";
      "target_directory: /test/dir";
      "generated: 2024-01-01T00:00:00"; "";
      "File: a.txt"; "hi" ]
  = join_lines
      (metadata_lines "2024-01-01T00:00:00"
         ["/repo/src/logo.txt"; "/repo/src/a.txt"]
         "https://github.com/test/repo" "/test/dir"
       ++ flat_map (section_lines demo_fs "/repo/src")
            ["/repo/src/logo.txt"; "/repo/src/a.txt"]).
Proof.
  apply (concatenate_files_layout demo_fs "2024-01-01T00:00:00"
           ["/repo/src/logo.txt"; "/repo/src/a.txt"] "/repo/src"
           "https://github.com/test/repo" "/test/dir").
  - discriminate.
  - vm_compute. reflexivity.
Defined.


(** ** More on [split_long_line] and [chunk_content] *)

Section ChunkerMore.

Variable count_tokens : string → nat.
Variable token_limit : Z.
Abbreviation tokens := (tokens count_tokens).

Lemma slice_from_all (s : string) : slice_from (String.length s) s = "".
Proof. induction s as [|c s IH]; [done|]. simpl. apply IH. Qed.

Lemma split_loop_done fuel line filename n line_chunks :
  split_loop count_tokens fuel line filename token_limit "" n line_chunks
  = Some line_chunks.
Proof. by destruct fuel. Qed.

(** X4. A line that is not empty and that fits what the header of part
    [part_number] leaves of the budget is not cut: [split_long_line]
    returns one chunk, that header followed by the whole line. *)
Theorem split_long_line_keeps_fitting_line (line filename : string)
    (n : nat) :
  line ≠ "" →
  tokens line ≤ token_limit - tokens (part_header n filename) →
  split_long_line count_tokens line filename n token_limit
  = Some [format_file_section (part_name n filename) line].
Proof.
  intros Hne Hfit. unfold split_long_line.
  destruct line as [|c s] eqn:Hline; [done|]. rewrite <- Hline in *.
  assert (String.length line = S (String.length s)) as -> by (by subst).
  cbn [split_loop]. assert (nonempty line = true) as -> by (by subst).
  assert (shrink count_tokens (S (String.length line)) line line
            (token_limit
             - tokens (format_file_section (pad3 n +:+ "_" +:+ filename) ""))
          = Some line) as ->.
  { cbn [shrink].
    destruct (Z.gtb_spec (tokens line)
                (token_limit
                 - tokens (format_file_section
                             (pad3 n +:+ "_" +:+ filename) "")));
      [|done].
    unfold part_header, part_name in Hfit. lia. }
  cbn [mbind option_bind]. rewrite slice_from_all.
  assert ((String.length "" =? String.length line)%nat = false) as ->
    by (by subst).
  by rewrite split_loop_done.
Qed.

Lemma fragments_length filename n remaining frags :
  fragments count_tokens token_limit filename n remaining frags →
  (length frags ≤ String.length remaining)%nat.
Proof.
  induction 1 as [n|n remaining k rest Hk Hfit _ IH]; simpl; [lia|].
  rewrite length_slice_from in IH. lia.
Qed.

Lemma numbered_lookup filename n bodies i chunk :
  numbered filename n bodies !! i = Some chunk →
  ∃ body,
    bodies !! i = Some body
    ∧ chunk = format_file_section (part_name (n + i) filename) body.
Proof.
  revert n i. induction bodies as [|b bodies IH]; intros n i; [done|].
  destruct i as [|i]; simpl.
  - intros [= <-]. exists b. by rewrite Nat.add_0_r.
  - intros (body & ? & ->)%IH. exists body. split; [done|].
    do 2 f_equal. lia.
Qed.

Lemma startswith_app (p s : string) : startswith p (p +:+ s) = true.
Proof.
  induction p as [|c p IH]; [done|]. rewrite str_app_cons. simpl.
  by rewrite Ascii.eqb_refl, IH.
Qed.

Lemma startswith_part_header filename n body :
  startswith (part_header n filename)
    (format_file_section (part_name n filename) body) = true.
Proof.
  replace (format_file_section (part_name n filename) body)
    with (part_header n filename +:+ body); [apply startswith_app|].
  unfold part_header, format_file_section.
  by rewrite !str_app_assoc.
Qed.

Lemma split_long_line_counted (line filename : string) (n : nat) :
  ∃ line_chunks,
    split_long_line count_tokens line filename n token_limit
      = Some line_chunks
    ∧ (length line_chunks ≤ String.length line)%nat
    ∧ (line ≠ "" → line_chunks ≠ [])
    ∧ ∀ i chunk,
        line_chunks !! i = Some chunk →
        startswith (part_header (n + i) filename) chunk = true.
Proof.
  destruct (split_long_line_spec count_tokens line filename n token_limit)
    as (frags & Hsplit & Hfrags).
  exists (numbered filename n frags). split; [done|]. split; [|split].
  - rewrite length_numbered. by eapply fragments_length.
  - intros Hne Hnil. destruct frags as [|frag frags]; [|done].
    apply fragments_concat in Hfrags. by subst line.
  - intros i chunk (body & _ & ->)%numbered_lookup.
    apply startswith_part_header.
Qed.

Lemma process_file_parts st filename content :
  has_long_lines count_tokens filename token_limit (split_lines content)
    = true
  ∨ token_limit < tokens (format_file_section filename content) →
  ∃ st', process_file count_tokens token_limit st filename content
           = Some st'
         ∧ parts_effect count_tokens token_limit filename content st st'.
Proof.
  intros Hmode. unfold process_file.
  destruct (has_long_lines _ _ _ _) eqn:Hlong.
  - destruct (split_lines_loop_ok count_tokens token_limit st filename
                (split_lines content) [] (PartState st 1 [] 0)
                (loop_ok_init count_tokens token_limit st filename))
      as (ps & -> & Hok).
    eexists; split; [done|]. by apply finish_parts_ok in Hok.
  - destruct Hmode as [?|Hbig]; [done|].
    destruct (Z.leb_spec (tokens (format_file_section filename content))
                token_limit); [lia|].
    eexists; split; [done|].
    apply (finish_parts_ok count_tokens token_limit st filename
             (split_lines content)).
    apply (accumulate_lines_ok count_tokens token_limit st filename
             (split_lines content) []);
      [apply loop_ok_init|by apply has_long_lines_false].
Qed.

Lemma sorted_keys_singleton (filename content : string) :
  sorted_keys {[ filename := content ]} = [filename].
Proof. unfold sorted_keys. by rewrite map_to_list_singleton. Qed.

Lemma single_file_total (filename content : string) :
  ∃ out,
    chunk_content count_tokens {[ filename := content ]} token_limit
      = Some out
    ∧ if has_long_lines count_tokens filename token_limit
           (split_lines content)
      then cut_into_parts count_tokens token_limit filename content out
      else if tokens (format_file_section filename content) <=? token_limit
      then out = [strip (format_file_section filename content)]
      else cut_into_parts count_tokens token_limit filename content out.
Proof.
  unfold chunk_content. rewrite sorted_keys_singleton.
  cbn [process_files]. rewrite lookup_singleton_eq. cbn [mbind option_bind].
  assert (∀ st',
    parts_effect count_tokens token_limit filename content
      (State [] "" 0) st' →
    cut_into_parts count_tokens token_limit filename content
      (chunks (flush_current_chunk st'))) as Hparts.
  { intros st' (bodies & Hp & l1 & fl & l2 & Hch & Hnum & Hacc).
    destruct Hacc as [[-> Hcc]|(_ & ? & _)]; [|done].
    exists bodies. split; [|split; [done|]].
    - destruct (flush_cases st') as [[_ ->]|[Hsp _]];
        [|by rewrite Hcc in Hsp].
      rewrite Hch. simpl. by rewrite Hnum.
    - rewrite (parts_of_text _ _ _ _ _ _ Hp), concat_split_lines;
        [done|apply split_lines_no_newline]. }
  destruct (has_long_lines _ _ _ _) eqn:Hlong.
  - destruct (process_file_parts (State [] "" 0) filename content)
      as (st' & -> & Heff); [by left|].
    eexists. split; [done|]. by apply Hparts.
  - destruct (Z.leb_spec (tokens (format_file_section filename content))
                token_limit) as [Hfit|Hbig].
    + destruct (process_file_whole count_tokens token_limit (State [] "" 0)
                  filename content Hlong Hfit) as (st' & -> & _ & Hw).
      eexists. split; [done|].
      destruct Hw as [(_ & Hch & Hcc)|[(? & _)|(? & _)]]; try done.
      destruct (flush_cases st') as [[Hsp _]|[_ ->]].
      * by rewrite Hcc in Hsp.
      * simpl in *. by rewrite Hch, Hcc.
    + destruct (process_file_parts (State [] "" 0) filename content)
        as (st' & -> & Heff); [by right|].
      eexists. split; [done|]. by apply Hparts.
Qed.

(** X7. Two files that each fit the budget as a whole, with no line too
    long, are packed into one chunk, their sections separated by a blank
    line, when the two sections together fit the budget, and are emitted
    as two chunks, the smaller filename first, when they do not. *)
Theorem two_files_packed_or_apart (a b x y : string) :
  a ≠ b →
  String.le a b →
  has_long_lines count_tokens a token_limit (split_lines x) = false →
  tokens (format_file_section a x) ≤ token_limit →
  has_long_lines count_tokens b token_limit (split_lines y) = false →
  tokens (format_file_section b y) ≤ token_limit →
  chunk_content count_tokens (<[a := x]> {[ b := y ]}) token_limit
  = Some
      (if tokens (format_file_section a x +:+ nl +:+ nl
                  +:+ format_file_section b y) <=? token_limit
       then [strip (format_file_section a x +:+ nl +:+ nl
                    +:+ format_file_section b y)]
       else [strip (format_file_section a x);
             strip (format_file_section b y)]).
Proof.
  intros Hne Hle Hla Hfa Hlb Hfb.
  unfold chunk_content. rewrite sorted_keys_pair by done.
  cbn [process_files]. rewrite lookup_insert_eq. cbn [mbind option_bind].
  destruct (process_file_whole count_tokens token_limit (State [] "" 0) a x
              Hla Hfa) as (st1 & -> & _ & Hw1).
  cbn [mbind option_bind].
  destruct Hw1 as [(_ & Hch1 & Hcc1)|[(? & _)|(? & _)]]; try done.
  simpl in Hch1.
  rewrite lookup_insert_ne, lookup_singleton_eq by done.
  cbn [mbind option_bind].
  destruct (process_file_whole count_tokens token_limit st1 b y Hlb Hfb)
    as (st2 & -> & _ & Hw2).
  cbn [mbind option_bind]. rewrite Hcc1 in Hw2. f_equal.
  destruct Hw2 as [(? & _)|[(_ & Hfit & Hch2 & Hcc2)|(_ & Hbig & Hch2 & Hcc2)]];
    [done|..].
  - destruct (Z.leb_spec
                (tokens (format_file_section a x +:+ nl +:+ nl
                         +:+ format_file_section b y)) token_limit);
      [|lia].
    destruct (flush_cases st2) as [[Hsp _]|[_ ->]].
    + rewrite Hcc2 in Hsp. by rewrite all_space_app in Hsp.
    + simpl. by rewrite Hch2, Hch1, Hcc2.
  - destruct (Z.leb_spec
                (tokens (format_file_section a x +:+ nl +:+ nl
                         +:+ format_file_section b y)) token_limit);
      [lia|].
    destruct (flush_cases st1) as [[Hsp _]|[_ Hfl1]];
      [by rewrite Hcc1 in Hsp|].
    rewrite Hfl1 in Hch2. simpl in Hch2.
    destruct (flush_cases st2) as [[Hsp _]|[_ ->]].
    + by rewrite Hcc2 in Hsp.
    + simpl. by rewrite Hch2, Hch1, Hcc1, Hcc2.
Qed.

End ChunkerMore.

Section ChunkerRaisingMore.

Variable count_tokens : string → Files.exception + nat.
Variable counts : string → nat.

(** X5. [split_long_line], run with a tokenizer that may raise, never
    runs out of steps: for every line, filename, part number and budget it
    either raises an exception that the tokenizer raised on some text, or
    returns a list of chunks.  The list has at most as many chunks as the
    line has characters, has at least one chunk when the line is not
    empty, and its chunk at index [i] starts with the part header numbered
    [n + i]. *)
Theorem split_long_line_chunk_count (line filename : string) (n : nat)
    (token_limit : Z) :
  (∃ line_chunks,
     Raising.split_long_line count_tokens line filename n token_limit
       = Some (inr line_chunks)
     ∧ (length line_chunks ≤ String.length line)%nat
     ∧ (line ≠ "" → line_chunks ≠ [])
     ∧ ∀ i chunk,
         line_chunks !! i = Some chunk →
         startswith (part_header (n + i) filename) chunk = true)
  ∨ (∃ e text,
       Raising.split_long_line count_tokens line filename n token_limit
         = Some (inl e)
       ∧ count_tokens text = inl e).
Proof.
  destruct (split_long_line_counted (answered count_tokens) token_limit
              line filename n) as (line_chunks & Hsplit & Hfacts).
  pose proof (refines_split_long_line count_tokens (answered count_tokens)
                (answered_agrees count_tokens) line filename n token_limit)
    as Href.
  rewrite Hsplit in Href.
  destruct (refines_total _ _ _ Href) as [Hret|Hraise]; [left|by right].
  by exists line_chunks.
Qed.

(** X6. For a mapping of one file, whenever [chunk_content] returns, its
    output is settled by the mode, [counts] being the number of tokens of
    each text that [count_tokens] answers on.  When some line of the file
    is too long for the budget next to the header of the file, or when the
    section of the file is over the budget, the output is the numbered
    parts of the file, and the bodies of the parts have the text of the
    file, line feeds apart.  Otherwise the output is the one chunk of the
    trimmed section of the file. *)
Theorem single_file_output (filename content : string) (token_limit : Z)
    (out : list string) :
  agrees count_tokens counts →
  Raising.chunk_content count_tokens {[ filename := content ]} token_limit
    = Some (inr out) →
  if has_long_lines counts filename token_limit (split_lines content)
  then cut_into_parts counts token_limit filename content out
  else if tokens counts (format_file_section filename content)
          <=? token_limit
  then out = [strip (format_file_section filename content)]
  else cut_into_parts counts token_limit filename content out.
Proof.
  intros Hagree Hrun.
  destruct (single_file_total counts token_limit filename content)
    as (out' & Htotal & Hmode).
  pose proof (refines_chunk_content count_tokens counts Hagree
                {[ filename := content ]} token_limit) as Href.
  apply (refines_returned _ _ _ _ Href) in Hrun.
  rewrite Htotal in Hrun. by injection Hrun as <-.
Qed.

End ChunkerRaisingMore.

Lemma split_long_line_keeps_fitting_line_witness :
  split_long_line char_tokens "abc" "f" 2 20
  = Some [format_file_section "002_f" "abc"].
Proof.
  apply (split_long_line_keeps_fitting_line char_tokens 20 "abc" "f" 2).
  - discriminate.
  - apply Z.leb_le. reflexivity.
Defined.

Lemma two_files_packed_or_apart_witness :
  chunk_content char_tokens
    (<["a.py" := "print('first')"]> {[ "b.py" := "print('second')" ]}) 60
  = Some [ format_file_section "a.py" "print('first')"
           +:+ nl +:+ nl
           +:+ format_file_section "b.py" "print('second')" ].
Proof.
  rewrite (two_files_packed_or_apart char_tokens 60 "a.py" "b.py"
             "print('first')" "print('second')").
  - reflexivity.
  - discriminate.
  - exact I.
  - reflexivity.
  - apply Z.leb_le. reflexivity.
  - reflexivity.
  - apply Z.leb_le. reflexivity.
Defined.

Lemma single_file_output_witness :
  cut_into_parts char_tokens 20 "f"
    ("aaaa" +:+ nl +:+ "bbbb" +:+ nl +:+ "cccccccccccccccccccc")
    [ format_file_section "001_f" ("aaaa" +:+ nl +:+ "bbbb");
      format_file_section "002_f" "cccccccc";
      format_file_section "003_f" "cccccccc";
      format_file_section "004_f" "cccc" ].
Proof.
  apply (single_file_output char_count char_tokens "f"
           ("aaaa" +:+ nl +:+ "bbbb" +:+ nl +:+ "cccccccccccccccccccc") 20).
  - intros text n [= <-]. reflexivity.
  - vm_compute. reflexivity.
Defined.


(** ** [split_text_into_chunks] and [truncate_text_by_tokens] *)

Section SpacyFacts.

Import Spacy.


Lemma counted_size_app l1 l2 :
  counted_size (l1 ++ l2) = counted_size l1 + counted_size l2.
Proof. induction l1 as [|a l1 IH]; simpl; lia. Qed.

Lemma length_join_lines (lines : list string) :
  lines ≠ [] →
  Z.of_nat (String.length (join_lines lines)) = counted_size lines - 1.
Proof.
  induction lines as [|a lines IH]; [done|]. intros _.
  destruct lines as [|b lines].
  - unfold join_lines. cbn [String.concat counted_size]. lia.
  - rewrite join_lines_cons by done.
    rewrite !str_length_app. change (String.length nl) with 1%nat.
    change (counted_size (a :: b :: lines))
      with (Z.of_nat (String.length a) + 1 + counted_size (b :: lines)).
    specialize (IH ltac:(done)). lia.
Qed.

Lemma str_upto_from (k : Z) (s : string) : str_upto k s +:+ str_from k s = s.
Proof. apply slice_to_from. Qed.

Lemma length_str_upto (k : Z) (s : string) :
  0 ≤ k → Z.of_nat (String.length (str_upto k s)) ≤ k.
Proof.
  intros Hk. unfold str_upto, slice_bound.
  destruct (Z.leb_spec 0 k); [|lia]. rewrite length_slice_to. lia.
Qed.

Lemma length_str_from (k : Z) (s : string) :
  1 ≤ k → s ≠ "" →
  (String.length (str_from k s) < String.length s)%nat.
Proof.
  intros Hk Hs. unfold str_from, slice_bound.
  destruct (Z.leb_spec 0 k); [|lia]. rewrite length_slice_from.
  destruct s; [done|]. simpl. lia.
Qed.

Lemma str_from_nonempty (k : Z) (s : string) :
  k ≤ 0 → s ≠ "" → str_from k s ≠ "".
Proof.
  intros Hk Hs Heq. apply (f_equal String.length) in Heq.
  unfold str_from, slice_bound in Heq. rewrite length_slice_from in Heq.
  destruct s as [|c s]; [done|]. simpl in Heq.
  destruct (Z.leb_spec 0 k); lia.
Qed.

Lemma cut_line_pieces fuel chunk_size line chunks0 chunks' :
  cut_line fuel chunk_size line chunks0 = Some chunks' →
  ∃ pieces,
    chunks' = chunks0 ++ pieces
    ∧ concat_bodies pieces = line
    ∧ (0 ≤ chunk_size →
       Forall (λ c, Z.of_nat (String.length c) ≤ chunk_size) pieces).
Proof.
  revert line chunks0. induction fuel as [|fuel IH]; intros line chunks0;
    simpl; destruct (nonempty line) eqn:Hne; try done.
  - apply nonempty_false in Hne as ->. intros [= <-]. exists [].
    by rewrite (right_id_L [] (++)).
  - intros (pieces & -> & Hcat & Hlen)%IH.
    exists (str_upto chunk_size line :: pieces). split; [|split].
    + by rewrite <- (assoc_L (++)).
    + rewrite concat_bodies_cons, Hcat. apply str_upto_from.
    + intros Hk. constructor; [by apply length_str_upto|by apply Hlen].
  - apply nonempty_false in Hne as ->. intros [= <-]. exists [].
    by rewrite (right_id_L [] (++)).
Qed.

Lemma cut_line_returns fuel chunk_size line chunks0 :
  1 ≤ chunk_size →
  (String.length line ≤ fuel)%nat →
  is_Some (cut_line fuel chunk_size line chunks0).
Proof.
  intros Hk. revert line chunks0.
  induction fuel as [|fuel IH]; intros line chunks0 Hfuel; simpl.
  - destruct line; [by eexists|simpl in Hfuel; lia].
  - destruct (nonempty line) eqn:Hne; [|by eexists].
    apply IH.
    assert (line ≠ "") as Hline by (by intros ->).
    pose proof (length_str_from chunk_size line Hk Hline). lia.
Qed.

Lemma cut_line_never_returns fuel chunk_size line chunks0 :
  chunk_size ≤ 0 → line ≠ "" →
  cut_line fuel chunk_size line chunks0 = None.
Proof.
  intros Hk. revert line chunks0.
  induction fuel as [|fuel IH]; intros line chunks0 Hline; simpl.
  - by destruct line.
  - destruct line as [|c s] eqn:Heq; [done|]. rewrite <- Heq in *.
    assert (nonempty line = true) as -> by (by subst).
    apply IH. by apply str_from_nonempty.
Qed.



Lemma held_text_save st :
  Forall no_newline (current_chunk st) →
  held_text (save_current st) = held_text st.
Proof.
  intros Hnl. unfold save_current, held_text.
  destruct (current_chunk st) as [|l ls] eqn:Hcur; [by rewrite Hcur|].
  simpl. rewrite concat_bodies_app, remove_newlines_app.
  change (concat_bodies [join_lines (l :: ls)])
    with (join_lines (l :: ls) +:+ "").
  by rewrite !str_app_nil_r, remove_newlines_join.
Qed.

Lemma current_chunk_save st :
  Forall no_newline (current_chunk (save_current st)).
Proof.
  unfold save_current. destruct (current_chunk st) eqn:Hcur; simpl;
    [by rewrite Hcur|done].
Qed.

Lemma held_text_push st line z :
  held_text (SplitState (chunks st) (current_chunk st ++ [line]) z)
  = held_text st +:+ line.
Proof.
  unfold held_text. simpl. rewrite concat_bodies_app.
  change (concat_bodies [line]) with (line +:+ "").
  by rewrite str_app_nil_r, str_app_assoc.
Qed.

Lemma split_step_text fuel chunk_size st line st' :
  Forall no_newline (current_chunk st) →
  no_newline line →
  split_step fuel chunk_size st line = Some st' →
  held_text st' = held_text st +:+ line
  ∧ Forall no_newline (current_chunk st').
Proof.
  intros Hcur Hline. unfold split_step.
  destruct (_ >? _).
  - destruct (_ >? _).
    + destruct (cut_line _ _ _ _) as [chunks'|] eqn:Hcut; [|done].
      simpl. intros [= <-].
      apply cut_line_pieces in Hcut as (pieces & -> & Hcat & _).
      split; [|apply current_chunk_save].
      rewrite <- (held_text_save st) by done.
      unfold held_text. simpl.
      pose proof (current_chunk_save st) as Hsaved.
      destruct (current_chunk (save_current st)) as [|? ?] eqn:Hc.
      * rewrite concat_bodies_app, remove_newlines_app, Hcat, Hline.
        change (concat_bodies []) with "". by rewrite !str_app_nil_r.
      * unfold save_current in Hc.
        destruct (current_chunk st) eqn:Hcs; simpl in Hc; [|done].
        by rewrite Hcs in Hc.
    + intros [= <-]. rewrite held_text_push, held_text_save by done.
      split; [done|]. simpl. apply Forall_app. split;
        [apply current_chunk_save|by constructor].
  - intros [= <-]. rewrite held_text_push. split; [done|].
    simpl. apply Forall_app. split; [done|by constructor].
Qed.

Lemma split_lines_loop_text fuel chunk_size lines st st' :
  Forall no_newline (current_chunk st) →
  Forall no_newline lines →
  split_lines_loop fuel chunk_size st lines = Some st' →
  held_text st' = held_text st +:+ concat_bodies lines
  ∧ Forall no_newline (current_chunk st').
Proof.
  revert st. induction lines as [|line lines IH]; intros st Hcur Hlines;
    simpl.
  - intros [= <-]. change (concat_bodies []) with "".
    by rewrite str_app_nil_r.
  - apply Forall_cons in Hlines as [Hline Hlines].
    destruct (split_step fuel chunk_size st line) as [st1|] eqn:Hstep;
      [|done].
    simpl. destruct (split_step_text _ _ _ _ _ Hcur Hline Hstep)
      as [Htext Hcur1].
    intros Hloop. destruct (IH st1 Hcur1 Hlines Hloop) as [Htext' Hcur'].
    split; [|done].
    by rewrite Htext', Htext, ?concat_bodies_cons, str_app_assoc.
Qed.

(** X9. Whenever [split_text_into_chunks] returns, the chunks, one after
    the other, are the text up to line feeds: only line feeds are lost,
    and nothing is repeated. *)
Theorem split_text_keeps_text (fuel : nat) (text : string)
    (chunk_size : Z) (result : list string) :
  split_text_into_chunks fuel text chunk_size = Some result →
  remove_newlines (concat_bodies result) = remove_newlines text.
Proof.
  unfold split_text_into_chunks. destruct (_ <=? _).
  - intros [= <-]. change (concat_bodies [text]) with (text +:+ "").
    by rewrite str_app_nil_r.
  - destruct (split_lines_loop _ _ _ _) as [st|] eqn:Hloop; [|done].
    simpl. intros [= <-].
    apply split_lines_loop_text in Hloop as [Htext Hcur];
      [|done|apply split_lines_no_newline].
    rewrite <- (held_text_save st) in Htext by done.
    unfold held_text in Htext. simpl in Htext.
    rewrite concat_split_lines in Htext.
    change (remove_newlines (concat_bodies []) +:+ concat_bodies [])
      with "" in Htext.
    rewrite str_app_nil_l in Htext. rewrite <- Htext.
    pose proof (current_chunk_save st) as Hsaved.
    assert (current_chunk (save_current st) = []) as ->.
    { unfold save_current. by destruct (current_chunk st) eqn:Hc. }
    change (concat_bodies []) with "". by rewrite str_app_nil_r.
Qed.


Lemma sizes_ok_save chunk_size st :
  0 ≤ chunk_size →
  sizes_ok chunk_size st →
  sizes_ok chunk_size (save_current st)
  ∧ current_chunk (save_current st) = []
  ∧ current_size (save_current st) = 0.
Proof.
  intros Hk (Hch & Hsize & Hle). unfold save_current.
  destruct (current_chunk st) as [|l ls] eqn:Hcur.
  - simpl in Hsize.
    split; [|by rewrite ?Hcur]. by split; [|split; [rewrite ?Hcur|]].
  - simpl. split; [|done]. split; [|split; [done|simpl; lia]].
    simpl. apply Forall_app. split; [done|]. constructor; [|done].
    rewrite length_join_lines by done. lia.
Qed.

Lemma split_step_sizes fuel chunk_size st line :
  1 ≤ chunk_size →
  (String.length line ≤ fuel)%nat →
  sizes_ok chunk_size st →
  ∃ st', split_step fuel chunk_size st line = Some st'
         ∧ sizes_ok chunk_size st'.
Proof.
  intros Hk Hfuel Hok. unfold split_step.
  destruct (Z.gtb_spec (current_size st + (Z.of_nat (String.length line) + 1))
              chunk_size) as [Hover|Hfits].
  - destruct (sizes_ok_save chunk_size st ltac:(lia) Hok)
      as ((Hch & Hsize & Hle) & Hcur & Hzero).
    destruct (Z.gtb_spec (Z.of_nat (String.length line) + 1) chunk_size)
      as [Hlong|Hshort].
    + destruct (cut_line_returns fuel chunk_size line
                  (chunks (save_current st)) Hk Hfuel) as [chunks' Hcut].
      rewrite Hcut. simpl. eexists. split; [done|].
      apply cut_line_pieces in Hcut as (pieces & -> & _ & Hlen).
      repeat split; simpl; try done.
      apply Forall_app. split; [done|]. apply Hlen. lia.
    + eexists. split; [done|]. repeat split; simpl; try done.
      * rewrite Hcur, Hzero. simpl. lia.
      * lia.
  - destruct Hok as (Hch & Hsize & Hle).
    eexists. split; [done|]. repeat split; simpl; try done.
    rewrite counted_size_app, Hsize. simpl. lia.
Qed.

Lemma split_lines_loop_sizes fuel chunk_size lines st :
  1 ≤ chunk_size →
  Forall (λ line, (String.length line ≤ fuel)%nat) lines →
  sizes_ok chunk_size st →
  ∃ st', split_lines_loop fuel chunk_size st lines = Some st'
         ∧ sizes_ok chunk_size st'.
Proof.
  intros Hk. revert st.
  induction lines as [|line lines IH]; intros st Hlines Hok; simpl;
    [by eexists|].
  apply Forall_cons in Hlines as [Hline Hlines].
  destruct (split_step_sizes fuel chunk_size st line Hk Hline Hok)
    as (st1 & -> & Hok1).
  simpl. by apply IH.
Qed.

Lemma split_lines_lengths (s : string) :
  Forall (λ line, (String.length line ≤ String.length s)%nat)
    (split_lines s).
Proof.
  induction s as [|c s IH]; simpl; [by repeat constructor|].
  destruct (Ascii.eqb c nl_char).
  - constructor; [simpl; lia|].
    eapply Forall_impl; [exact IH|]. simpl. intros; lia.
  - destruct (split_lines s) as [|line rest].
    + constructor; [simpl; lia|done].
    + apply Forall_cons in IH as [Hline Hrest]. constructor; [simpl; lia|].
      eapply Forall_impl; [exact Hrest|]. simpl. intros; lia.
Qed.

(** X8. For a chunk size of at least 1, [split_text_into_chunks] returns
    (the inner loop needs no more rounds than the text has characters),
    and no chunk it returns is longer than the chunk size. *)
Theorem split_text_within_size (fuel : nat) (text : string)
    (chunk_size : Z) :
  1 ≤ chunk_size →
  (String.length text ≤ fuel)%nat →
  ∃ result,
    split_text_into_chunks fuel text chunk_size = Some result
    ∧ Forall (λ c, Z.of_nat (String.length c) ≤ chunk_size) result.
Proof.
  intros Hk Hfuel. unfold split_text_into_chunks.
  destruct (Z.leb_spec (Z.of_nat (String.length text)) chunk_size).
  - eexists. split; [done|]. by repeat constructor.
  - destruct (split_lines_loop_sizes fuel chunk_size (split_lines text)
                (SplitState [] [] 0) Hk) as (st & -> & Hok).
    + eapply Forall_impl; [apply split_lines_lengths|]. simpl. intros; lia.
    + repeat split; simpl; [done|lia].
    + simpl. eexists. split; [done|].
      by destruct (sizes_ok_save chunk_size st ltac:(lia) Hok)
        as ((? & _) & _).
Qed.

Lemma split_step_blank fuel chunk_size st :
  chunk_size ≤ 0 →
  current_chunk st = [] → current_size st = 0 →
  split_step fuel chunk_size st "" = Some st.
Proof.
  intros Hk Hcur Hzero. unfold split_step, save_current.
  rewrite Hcur, Hzero.
  change (Z.of_nat (String.length "")) with 0.
  change (0 + (0 + 1)) with 1. change (0 + 1) with 1.
  destruct (Z.gtb_spec 1 chunk_size); [|lia].
  destruct fuel; simpl; destruct st; simpl in *; by subst.
Qed.

Lemma split_step_stuck fuel chunk_size st line :
  chunk_size ≤ 0 →
  current_chunk st = [] → current_size st = 0 →
  line ≠ "" →
  split_step fuel chunk_size st line = None.
Proof.
  intros Hk Hcur Hzero Hline. unfold split_step, save_current.
  rewrite Hcur, Hzero.
  destruct (Z.gtb_spec (0 + (Z.of_nat (String.length line) + 1)) chunk_size);
    [|lia].
  destruct (Z.gtb_spec (Z.of_nat (String.length line) + 1) chunk_size);
    [|lia].
  by rewrite cut_line_never_returns.
Qed.

Lemma split_lines_loop_stuck fuel chunk_size lines st :
  chunk_size ≤ 0 →
  current_chunk st = [] → current_size st = 0 →
  concat_bodies lines ≠ "" →
  split_lines_loop fuel chunk_size st lines = None.
Proof.
  intros Hk Hcur Hzero. induction lines as [|line lines IH]; [done|].
  intros Htext. simpl. destruct line as [|c s] eqn:Hline.
  - rewrite split_step_blank by done. simpl. apply IH.
    by rewrite concat_bodies_cons in Htext.
  - rewrite <- Hline. rewrite split_step_stuck; [done..|by subst].
Qed.

(** X10. For a chunk size of 0 or less and a text that has a character
    other than a line feed, [split_text_into_chunks] never returns: the
    inner loop cuts nothing off the first line that is not empty, whatever
    the number of rounds it is given. *)
Theorem split_text_never_returns (fuel : nat) (text : string)
    (chunk_size : Z) :
  chunk_size ≤ 0 →
  remove_newlines text ≠ "" →
  split_text_into_chunks fuel text chunk_size = None.
Proof.
  intros Hk Htext. unfold split_text_into_chunks.
  destruct (Z.leb_spec (Z.of_nat (String.length text)) chunk_size) as [Hle|].
  - destruct text; [done|]. simpl in Hle. lia.
  - rewrite split_lines_loop_stuck; [done..|].
    by rewrite concat_split_lines.
Qed.

Variable word_tokenize : string → list string.

(** X11. With [max_tokens] 0 or 1 and more tokens than that, nothing is
    cut: [half_tokens] is 0, [tokens[-0:]] is the whole list, and the
    result is ["... "] followed by all the tokens joined by spaces. *)
Theorem truncate_keeps_all_for_tiny_limit (text : string)
    (max_tokens : Z) :
  0 ≤ max_tokens ≤ 1 →
  max_tokens < Z.of_nat (length (word_tokenize text)) →
  truncate_text_by_tokens word_tokenize text max_tokens
  = "... " +:+ String.concat " " (word_tokenize text).
Proof.
  intros Hmax Hlen. unfold truncate_text_by_tokens.
  destruct (Z.leb_spec (Z.of_nat (length (word_tokenize text))) max_tokens);
    [lia|].
  assert (max_tokens / 2 = 0) as -> by (apply Z.div_small; lia).
  unfold list_upto, list_from, slice_bound. simpl.
  rewrite ?take_0, ?drop_0. reflexivity.
Qed.

(** X12. With [max_tokens] at least 2 and more tokens than that, the
    result is the first [max_tokens // 2] tokens joined by spaces, then
    ["... "], then the last [max_tokens // 2] tokens joined by spaces: no
    more than [max_tokens] tokens are kept. *)
Theorem truncate_keeps_both_ends (text : string) (max_tokens : Z) :
  2 ≤ max_tokens →
  max_tokens < Z.of_nat (length (word_tokenize text)) →
  ∃ start_tokens middle end_tokens,
    word_tokenize text = start_tokens ++ middle ++ end_tokens
    ∧ Z.of_nat (length start_tokens) = max_tokens / 2
    ∧ Z.of_nat (length end_tokens) = max_tokens / 2
    ∧ Z.of_nat (length start_tokens + length end_tokens) ≤ max_tokens
    ∧ truncate_text_by_tokens word_tokenize text max_tokens
      = String.concat " " start_tokens +:+ "... "
        +:+ String.concat " " end_tokens.
Proof.
  intros Hmax Hlen. unfold truncate_text_by_tokens.
  destruct (Z.leb_spec (Z.of_nat (length (word_tokenize text))) max_tokens);
    [lia|].
  set (tokens := word_tokenize text) in *.
  set (h := max_tokens / 2).
  assert (1 ≤ h ∧ 2 * h ≤ max_tokens) as [Hh1 Hh2].
  { unfold h. pose proof (Z.div_mod max_tokens 2 ltac:(lia)).
    pose proof (Z.mod_pos_bound max_tokens 2 ltac:(lia)). lia. }
  unfold list_upto, list_from, slice_bound.
  destruct (Z.leb_spec 0 h); [|lia].
  destruct (Z.leb_spec 0 (- h)); [lia|].
  exists (take (Z.to_nat h) tokens),
    (drop (Z.to_nat h)
       (take (Z.to_nat (0 `max` (Z.of_nat (length tokens) + - h))) tokens)),
    (drop (Z.to_nat (0 `max` (Z.of_nat (length tokens) + - h))) tokens).
  split; [|split; [|split; [|split; [|done]]]].
  - rewrite (assoc_L (++)).
    rewrite <- (take_drop (Z.to_nat (0 `max` (Z.of_nat (length tokens) + - h)))
                  tokens) at 1.
    f_equal.
    rewrite <- (take_drop (Z.to_nat h)
                  (take (Z.to_nat (0 `max` (Z.of_nat (length tokens) + - h)))
                     tokens)) at 1.
    f_equal. rewrite take_take. f_equal. lia.
  - rewrite length_take. lia.
  - rewrite length_drop. lia.
  - rewrite length_take, length_drop. lia.
Qed.

End SpacyFacts.

Lemma split_text_keeps_text_witness :
  remove_newlines
    (concat_bodies ["aaaa"; "bb"; "ccccc"; "ccccc"; "d"])
  = remove_newlines
      ("aaaa" +:+ nl +:+ "bb" +:+ nl +:+ "cccccccccc" +:+ nl +:+ "d").
Proof.
  apply (split_text_keeps_text 20
           ("aaaa" +:+ nl +:+ "bb" +:+ nl +:+ "cccccccccc" +:+ nl +:+ "d") 5).
  vm_compute. reflexivity.
Defined.

Lemma split_text_within_size_witness :
  ∃ result,
    Spacy.split_text_into_chunks 20
      ("aaaa" +:+ nl +:+ "bb" +:+ nl +:+ "cccccccccc" +:+ nl +:+ "d") 5
    = Some result
    ∧ Forall (λ c, Z.of_nat (String.length c) ≤ 5) result.
Proof.
  apply split_text_within_size.
  - lia.
  - vm_compute. lia.
Defined.

Lemma split_text_never_returns_witness :
  Spacy.split_text_into_chunks 1000 ("aaaa" +:+ nl +:+ "bb") 0 = None.
Proof.
  apply split_text_never_returns.
  - lia.
  - discriminate.
Defined.

Lemma truncate_keeps_all_for_tiny_limit_witness :
  Spacy.truncate_text_by_tokens space_tokens "a b c d e f g" 1
  = "... a b c d e f g".
Proof.
  rewrite (truncate_keeps_all_for_tiny_limit space_tokens "a b c d e f g" 1).
  - reflexivity.
  - lia.
  - vm_compute. reflexivity.
Defined.

Lemma truncate_keeps_both_ends_witness :
  ∃ start_tokens middle end_tokens,
    space_tokens "a b c d e f g" = start_tokens ++ middle ++ end_tokens
    ∧ Z.of_nat (length start_tokens) = 4 / 2
    ∧ Z.of_nat (length end_tokens) = 4 / 2
    ∧ Z.of_nat (length start_tokens + length end_tokens) ≤ 4
    ∧ Spacy.truncate_text_by_tokens space_tokens "a b c d e f g" 4
      = String.concat " " start_tokens +:+ "... "
        +:+ String.concat " " end_tokens.
Proof.
  apply (truncate_keeps_both_ends space_tokens "a b c d e f g" 4).
  - lia.
  - vm_compute. reflexivity.
Defined.


(** ** [parse_github_url] *)

Section GitFacts.

Import Git.

Lemma rstrip_char_app_sep (c : ascii) (s : string) :
  rstrip_char c (s +:+ String c "") = rstrip_char c s.
Proof.
  induction s as [|a s IH].
  - simpl. by rewrite Ascii.eqb_refl.
  - rewrite str_app_cons. simpl. by rewrite IH.
Qed.

Lemma split_char_not_nil (c : ascii) (s : string) : split_char c s ≠ [].
Proof.
  induction s as [|a s IH]; simpl; [done|].
  destruct (Ascii.eqb a c); [done|]. by destruct (split_char c s).
Qed.

Lemma join_slash_cons (a : string) (l : list string) :
  l ≠ [] → join_slash (a :: l) = a +:+ "/" +:+ join_slash l.
Proof. by destruct l. Qed.

Lemma join_split_char (s : string) :
  join_slash (split_char slash s) = s.
Proof.
  induction s as [|a s IH]; [done|]. simpl.
  destruct (Ascii.eqb_spec a slash) as [->|Hne].
  - rewrite join_slash_cons by apply split_char_not_nil.
    by rewrite IH.
  - pose proof (split_char_not_nil slash s) as Hnil.
    destruct (split_char slash s) as [|part rest]; [done|].
    destruct rest as [|part' rest].
    + change (join_slash [part]) with part in IH.
      change (join_slash [String a part]) with (String a part).
      by rewrite IH.
    + rewrite join_slash_cons in * by done.
      rewrite str_app_cons. by rewrite IH.
Qed.

Lemma split_char_lacks (c : ascii) (s : string) :
  Forall (λ part, lacks c part = true) (split_char c s).
Proof.
  induction s as [|a s IH]; simpl; [by repeat constructor|].
  destruct (Ascii.eqb a c) eqn:Hac; [by constructor|].
  destruct (split_char c s) as [|part rest]; simpl.
  - constructor; [|done]. simpl. by rewrite Hac.
  - apply Forall_cons in IH as [Hpart Hrest]. constructor; [|done].
    simpl. by rewrite Hac, Hpart.
Qed.

Lemma split_char_sep (c : ascii) (a b : string) :
  lacks c a = true →
  split_char c (a +:+ String c b) = a :: split_char c b.
Proof.
  induction a as [|x a IH]; intros Ha.
  - rewrite str_app_nil_l. simpl. by rewrite Ascii.eqb_refl.
  - simpl in Ha. apply andb_true_iff in Ha as [Hx Ha].
    apply negb_true_iff in Hx.
    rewrite str_app_cons. simpl. by rewrite Hx, IH.
Qed.

Lemma split_char_whole (c : ascii) (a : string) :
  lacks c a = true → split_char c a = [a].
Proof.
  induction a as [|x a IH]; intros Ha; [done|].
  simpl in Ha. apply andb_true_iff in Ha as [Hx Ha].
  apply negb_true_iff in Hx. simpl. by rewrite Hx, IH.
Qed.

Lemma startswith_inv (p s : string) :
  startswith p s = true → ∃ rest, s = p +:+ rest.
Proof.
  revert s. induction p as [|a p IH]; intros s.
  - exists s. by rewrite str_app_nil_l.
  - destruct s as [|b s]; [done|]. simpl.
    intros [Hab Hps]%andb_true_iff.
    apply Ascii.eqb_eq in Hab as ->.
    destruct (IH _ Hps) as [rest ->]. exists rest.
    by rewrite str_app_cons.
Qed.

Lemma split_github (rest : string) :
  split_char slash (github +:+ rest)
  = "https:" :: "" :: "github.com" :: split_char slash rest.
Proof.
  change (github +:+ rest)
    with ("https:" +:+ String slash ("" +:+ String slash
            ("github.com" +:+ String slash rest))).
  by rewrite !split_char_sep.
Qed.

Lemma join_github (owner repo : string) :
  join_slash ["https:"; ""; "github.com"; owner; repo]
  = github +:+ owner +:+ "/" +:+ repo.
Proof. reflexivity. Qed.

Variable path_str : string → string.

(** What [parse_github_url] does on a GitHub URL, by the number of parts
    after [https://github.com/]. *)
Lemma parse_github_url_cases (url rest : string) :
  rstrip_char slash url = github +:+ rest →
  match split_char slash rest with
  | [] => False
  | [_] =>
      parse_github_url path_str url
      = inl (invalid_url (rstrip_char slash url))
  | [owner; repo] =>
      parse_github_url path_str url
      = inr (github +:+ owner +:+ "/" +:+ repo, None, "")
  | owner :: repo :: p5 :: more =>
      if String.eqb p5 "tree" then
        match more with
        | [] =>
            parse_github_url path_str url
            = inl (invalid_url (rstrip_char slash url))
        | [branch] =>
            parse_github_url path_str url
            = inr (github +:+ owner +:+ "/" +:+ repo, Some branch, "")
        | branch :: dirs =>
            parse_github_url path_str url
            = inr (github +:+ owner +:+ "/" +:+ repo, Some branch,
                   "/" +:+ join_slash dirs)
        end
      else
        parse_github_url path_str url
        = inr (github +:+ owner +:+ "/" +:+ repo, None,
               "/" +:+ join_slash (p5 :: more))
  end.
Proof.
  intros Hurl. unfold parse_github_url. rewrite Hurl.
  rewrite startswith_app. cbn [negb]. rewrite split_github.
  pose proof (split_char_not_nil slash rest) as Hnil.
  destruct (split_char slash rest) as [|owner [|repo [|p5 more]]];
    [done|done|done|].
  cbn [length Nat.ltb Nat.leb take lookup list_lookup drop].
  rewrite join_github.
  destruct (String.eqb p5 "tree"); [|done].
  by destruct more as [|branch [|dir dirs]].
Qed.

(** X13. A GitHub URL that [parse_github_url] accepts is put together
    again from what it returns: the repository URL, then [/tree/] and the
    branch when there is one, then the target directory, give the URL
    without its trailing slashes.  Nothing of the URL is dropped. *)
Theorem parse_github_url_rebuilds (url repo_url target_dir : string)
    (branch : option string) :
  startswith github (rstrip_char slash url) = true →
  parse_github_url path_str url = inr (repo_url, branch, target_dir) →
  repo_url +:+ tree_part branch +:+ target_dir = rstrip_char slash url.
Proof.
  intros [rest Hurl]%startswith_inv Hparse.
  pose proof (parse_github_url_cases url rest Hurl) as Hcases.
  rewrite Hurl. rewrite <- (join_split_char rest).
  destruct (split_char slash rest) as [|owner [|repo [|p5 more]]];
    [done|congruence|..].
  - rewrite Hcases in Hparse. injection Hparse as <- <- <-.
    unfold tree_part. rewrite ?str_app_nil_r, ?str_app_assoc.
    reflexivity.
  - destruct (String.eqb_spec p5 "tree") as [->|Hp5].
    + destruct more as [|branch' [|dir dirs]]; [congruence|..];
        rewrite Hcases in Hparse; injection Hparse as <- <- <-;
        unfold tree_part;
        rewrite ?str_app_nil_r, ?str_app_assoc; reflexivity.
    + rewrite Hcases in Hparse. injection Hparse as <- <- <-.
      unfold tree_part.
      rewrite ?str_app_nil_r, ?str_app_assoc. reflexivity.
Qed.

(** X14. What [parse_github_url] returns for a GitHub URL has a fixed
    shape: the repository URL is [https://github.com/<owner>/<repo>] with
    no slash inside the owner or the repository name, the branch has no
    slash (a branch name with a slash is cut at its first slash), and the
    target directory is empty or starts with a slash. *)
Theorem parse_github_url_shape (url repo_url target_dir : string)
    (branch : option string) :
  startswith github (rstrip_char slash url) = true →
  parse_github_url path_str url = inr (repo_url, branch, target_dir) →
  (∃ owner repo,
      repo_url = github +:+ owner +:+ "/" +:+ repo
      ∧ lacks slash owner = true ∧ lacks slash repo = true)
  ∧ (∀ b, branch = Some b → lacks slash b = true)
  ∧ (target_dir = "" ∨ startswith "/" target_dir = true).
Proof.
  intros [rest Hurl]%startswith_inv Hparse.
  pose proof (parse_github_url_cases url rest Hurl) as Hcases.
  pose proof (split_char_lacks slash rest) as Hlacks.
  destruct (split_char slash rest) as [|owner [|repo [|p5 more]]];
    [done|congruence|..].
  - rewrite Hcases in Hparse. injection Hparse as <- <- <-.
    apply Forall_cons in Hlacks as [Ho Hlacks].
    apply Forall_cons in Hlacks as [Hr _].
    split; [by exists owner, repo|]. split; [done|by left].
  - apply Forall_cons in Hlacks as [Ho Hlacks].
    apply Forall_cons in Hlacks as [Hr Hlacks].
    apply Forall_cons in Hlacks as [_ Hlacks].
    destruct (String.eqb p5 "tree").
    + destruct more as [|branch' [|dir dirs]]; [congruence|..];
        rewrite Hcases in Hparse; injection Hparse as <- <- <-;
        apply Forall_cons in Hlacks as [Hb _];
        (split; [by exists owner, repo|]);
        (split; [by intros b [= <-]|]); [by left|by right].
    + rewrite Hcases in Hparse. injection Hparse as <- <- <-.
      split; [by exists owner, repo|]. split; [done|by right].
Qed.

(** X15. [parse_github_url] raises in two cases only, both for GitHub
    URLs: no repository after the owner, and [/tree] with no branch after
    it.  What it raises is then a [ValueError] that quotes the URL without
    its trailing slashes.  A path that is not a GitHub URL never
    raises. *)
Theorem parse_github_url_errors (url : string) (e : exception) :
  parse_github_url path_str url = inl e ↔
  e = ValueError ("Invalid URL or path: " +:+ rstrip_char slash url)
  ∧ ((∃ owner,
        rstrip_char slash url = github +:+ owner
        ∧ lacks slash owner = true)
     ∨ (∃ owner repo,
          rstrip_char slash url
          = github +:+ owner +:+ "/" +:+ repo +:+ "/tree"
          ∧ lacks slash owner = true ∧ lacks slash repo = true)).
Proof.
  split.
  - intros Hparse.
    destruct (startswith github (rstrip_char slash url)) eqn:Hgit.
    + apply startswith_inv in Hgit as [rest Hurl].
      pose proof (parse_github_url_cases url rest Hurl) as Hcases.
      pose proof (split_char_lacks slash rest) as Hlacks.
      pose proof (join_split_char rest) as Hjoin.
      destruct (split_char slash rest) as [|owner [|repo [|p5 more]]];
        [done|..].
      * apply Forall_cons in Hlacks as [Ho _].
        change (join_slash [owner]) with owner in Hjoin. subst rest.
        rewrite Hcases in Hparse. injection Hparse as <-.
        split; [done|]. left. by exists owner.
      * congruence.
      * apply Forall_cons in Hlacks as [Ho Hlacks].
        apply Forall_cons in Hlacks as [Hr _].
        destruct (String.eqb_spec p5 "tree") as [->|Hp5]; [|congruence].
        destruct more as [|branch' [|dir dirs]]; [|congruence..].
        rewrite Hcases in Hparse. injection Hparse as <-.
        split; [done|]. right. exists owner, repo.
        split; [|done]. rewrite Hurl, <- Hjoin. reflexivity.
    + unfold parse_github_url in Hparse. by rewrite Hgit in Hparse.
  - intros [-> [(owner & Hurl & Ho)|(owner & repo & Hurl & Ho & Hr)]].
    + pose proof (parse_github_url_cases url owner Hurl) as Hcases.
      by rewrite split_char_whole in Hcases.
    + pose proof (parse_github_url_cases url _ Hurl) as Hcases.
      change (owner +:+ "/" +:+ repo +:+ "/tree")
        with (owner +:+ String slash (repo +:+ String slash "tree"))
        in Hcases.
      by rewrite !split_char_sep in Hcases.
Qed.

(** X16. One more slash at the end of the argument changes nothing, in
    the result or in the error raised. *)
Theorem parse_github_url_trailing_slash (url : string) :
  parse_github_url path_str (url +:+ "/") = parse_github_url path_str url.
Proof.
  unfold parse_github_url.
  change (url +:+ "/") with (url +:+ String slash "").
  by rewrite rstrip_char_app_sep.
Qed.

End GitFacts.

Lemma parse_github_url_rebuilds_witness :
  "https://github.com/user/repo" +:+ tree_part (Some "master") +:+ "/dir/sub"
  = Git.rstrip_char Git.slash "https://github.com/user/repo/tree/master/dir/sub//".
Proof.
  apply (parse_github_url_rebuilds id); reflexivity.
Defined.

Lemma parse_github_url_shape_witness :
  (∃ owner repo,
      "https://github.com/user/repo" = Git.github +:+ owner +:+ "/" +:+ repo
      ∧ lacks Git.slash owner = true ∧ lacks Git.slash repo = true)
  ∧ (∀ b, Some "feature" = Some b → lacks Git.slash b = true)
  ∧ ("/x/dir" = "" ∨ startswith "/" "/x/dir" = true).
Proof.
  apply (parse_github_url_shape id
           "https://github.com/user/repo/tree/feature/x/dir");
    reflexivity.
Defined.


(** ** [collect_files], [process_directory], [validate_directories] and
    [combine_results] *)

Section MultiDirFacts.

Import MultiDir.

Variable fs : Files.filesystem.
Variable is_dir : string → bool.
Variable walk : string → list (string * list string).
Variable path_of : string → string.

Lemma skipped_matched (ignore_patterns : option (list string))
    (file_path : string) (b : bool) :
  skipped fs ignore_patterns file_path = inr b →
  matched fs (default [] ignore_patterns) file_path = b.
Proof.
  unfold skipped, matched.
  destruct ignore_patterns as [[|p ps]|]; cbn [given default].
  - by intros [= <-].
  - by intros ->.
  - by intros [= <-].
Qed.

Lemma skipped_not_given (ignore_patterns : option (list string))
    (file_path : string) :
  given ignore_patterns = false →
  skipped fs ignore_patterns file_path = inr false.
Proof. unfold skipped. by intros ->. Qed.

Lemma collected_nil ignore_patterns files :
  collected fs ignore_patterns [] files (inr files).
Proof. split; [done|]. cbn [List.filter]. by rewrite (right_id_L [] (++)). Qed.

Lemma collected_raise ignore_patterns file paths files e :
  skipped fs ignore_patterns file = inl e →
  collected fs ignore_patterns (file :: paths) files (inl e).
Proof. intros He. exists [], file, paths. by repeat split. Qed.

Lemma collected_cons ignore_patterns file paths files b outcome :
  skipped fs ignore_patterns file = inr b →
  collected fs ignore_patterns paths
    (if b then files else files ++ [file]) outcome →
  collected fs ignore_patterns (file :: paths) files outcome.
Proof.
  intros Hb. pose proof (skipped_matched _ _ _ Hb) as Hm.
  destruct outcome as [e|result]; cbn [collected].
  - intros (before & f & after & -> & Hall & Hf).
    exists (file :: before), f, after. split; [done|].
    split; [|done]. constructor; [by exists b|done].
  - intros [Hall ->]. split; [constructor; [by exists b|done]|].
    cbn [List.filter]. rewrite Hm.
    destruct b; cbn [negb]; [done|]. by rewrite <- (assoc_L (++)).
Qed.

Lemma collected_app ignore_patterns paths1 paths2 files outcome1 outcome :
  collected fs ignore_patterns paths1 files outcome1 →
  match outcome1 with
  | inl e => outcome = inl e
  | inr files1 => collected fs ignore_patterns paths2 files1 outcome
  end →
  collected fs ignore_patterns (paths1 ++ paths2) files outcome.
Proof.
  destruct outcome1 as [e|files1]; cbn [collected].
  - intros (before & f & after & -> & Hall & Hf) ->.
    exists before, f, (after ++ paths2). split; [|done].
    by rewrite <- (assoc_L (++)).
  - intros [Hall1 ->]. destruct outcome as [e|result]; cbn [collected].
    + intros (before & f & after & -> & Hall & Hf).
      exists (paths1 ++ before), f, after. split; [|split; [|done]].
      * by rewrite <- (assoc_L (++)).
      * by apply Forall_app.
    + intros [Hall2 ->]. split; [by apply Forall_app|].
      by rewrite List.filter_app, (assoc_L (++)).
Qed.

Lemma collect_names_collected ignore_patterns root filenames files :
  collected fs ignore_patterns (map (Files.joinpath fs root) filenames) files
    (collect_names fs ignore_patterns root filenames files).
Proof.
  revert files. induction filenames as [|name names IH]; intros files.
  - apply collected_nil.
  - cbn [collect_names map].
    destruct (skipped fs ignore_patterns (Files.joinpath fs root name))
      as [e|b] eqn:Hskip.
    + by apply collected_raise.
    + apply (collected_cons _ _ _ _ b); [done|]. destruct b; apply IH.
Qed.

Lemma collect_walk_collected ignore_patterns walked files :
  collected fs ignore_patterns
    (flat_map
       (λ '(root, filenames), map (Files.joinpath fs root) filenames)
       walked)
    files (collect_walk fs ignore_patterns walked files).
Proof.
  revert files. induction walked as [|[root names] walked IH];
    intros files.
  - apply collected_nil.
  - cbn [collect_walk flat_map].
    eapply collected_app; [apply collect_names_collected|].
    destruct (collect_names fs ignore_patterns root names files)
      as [e|files1]; [done|apply IH].
Qed.

Lemma collect_files_closed (directory : string)
    (ignore_patterns : option (list string)) :
  Files.path_exists fs directory = true →
  ∃ outcome,
    collected fs ignore_patterns (walked_files fs walk directory) []
      outcome
    ∧ collect_files fs walk directory ignore_patterns
      = match outcome with
        | inl e => inl (Raised e)
        | inr files => inr files
        end.
Proof.
  intros Hex. unfold collect_files. rewrite Hex. cbn [negb].
  exists (collect_walk fs ignore_patterns (walk directory) []).
  split; [apply collect_walk_collected|done].
Qed.

Lemma collect_files_not_given (directory : string)
    (ignore_patterns : option (list string)) :
  Files.path_exists fs directory = true →
  given ignore_patterns = false →
  collect_files fs walk directory ignore_patterns
  = inr (walked_files fs walk directory).
Proof.
  intros Hex Hgiven.
  destruct (collect_files_closed directory ignore_patterns Hex)
    as ([e|files] & Hclosed & ->); cbn [collected] in Hclosed.
  - destruct Hclosed as (before & file & after & Heq & Hall & Hfile).
    by rewrite skipped_not_given in Hfile.
  - destruct Hclosed as [_ ->]. f_equal. cbn [app].
    induction (walked_files fs walk directory) as [|f l IH]; [done|].
    cbn [List.filter].
    rewrite (skipped_matched ignore_patterns f false)
      by by apply skipped_not_given.
    cbn [negb]. by rewrite IH.
Qed.

(** X17. For a directory that exists, [collect_files] either returns or
    raises what [Path.match] raises on an ignore pattern.  It returns when
    the test on the patterns raises on no file, and the result is then, in
    the order of [os.walk], the files under the directory that match none
    of the patterns; it raises the exception of the first file, in that
    order, on which the test raises.  With [None] or an empty list no
    pattern is tried and every file is returned.  Unlike [glob_files] it
    keeps the binary files. *)
Theorem collect_files_is_a_filter (directory : string)
    (ignore_patterns : option (list string)) :
  Files.path_exists fs directory = true →
  match collect_files fs walk directory ignore_patterns with
  | inr files =>
      Forall (λ file, ∃ b, skipped fs ignore_patterns file = inr b)
        (walked_files fs walk directory)
      ∧ files
        = List.filter
            (λ file, negb (matched fs (default [] ignore_patterns) file))
            (walked_files fs walk directory)
  | inl e =>
      ∃ before file after e',
        walked_files fs walk directory = before ++ file :: after
        ∧ Forall (λ file, ∃ b, skipped fs ignore_patterns file = inr b)
            before
        ∧ skipped fs ignore_patterns file = inl e'
        ∧ e = Raised e'
  end
  ∧ (given ignore_patterns = false →
     collect_files fs walk directory ignore_patterns
     = inr (walked_files fs walk directory)).
Proof.
  intros Hex. split; [|by apply collect_files_not_given].
  destruct (collect_files_closed directory ignore_patterns Hex)
    as ([e|files] & Hclosed & ->); cbn [collected] in Hclosed.
  - destruct Hclosed as (before & file & after & Heq & Hall & Hfile).
    by exists before, file, after, e.
  - by destruct Hclosed as [Hall ->].
Qed.

(** X18. [process_directory] on a directory that exists and whose files
    raise nothing: the files it reports are all the files under the
    directory, binary ones included; the content is empty when there is no
    file, and else the metadata lines, [file_count] counting every file
    reported, followed by the sections of the files that are neither
    binary nor undecodable. *)
Theorem process_directory_reports_all_files
    (now directory repo_url target_dir : string) :
  Files.path_exists fs directory = true →
  Forall (λ file, file_error fs directory file = None)
    (walked_files fs walk directory) →
  process_directory fs walk now directory repo_url target_dir
  = inr
      (Result (walked_files fs walk directory)
         match walked_files fs walk directory with
         | [] => ""
         | found =>
             join_lines
               (metadata_lines now found repo_url target_dir
                ++ flat_map (section_lines fs directory) found)
         end).
Proof.
  intros Hex Hok. unfold process_directory.
  rewrite (collect_files_not_given directory None Hex) by done.
  destruct (walked_files fs walk directory) as [|f found] eqn:Hfound;
    [done|].
  unfold Files.concatenate_files. rewrite metadata_result.
  destruct (concatenate_loop_ok fs directory (f :: found)
              (metadata_lines now (f :: found) repo_url target_dir) Hok)
    as [lines Hloop].
  rewrite Hloop. do 3 f_equal.
  by apply concatenate_loop_sections in Hloop.
Qed.

Lemma validate_loop_app l1 l2 validated :
  validate_loop fs is_dir path_of (l1 ++ l2) validated
  = match validate_loop fs is_dir path_of l1 validated with
    | inl e => inl e
    | inr validated' => validate_loop fs is_dir path_of l2 validated'
    end.
Proof.
  revert validated. induction l1 as [|d l1 IH]; intros validated; simpl;
    [done|].
  destruct (negb _); [done|]. destruct (negb _); [done|]. apply IH.
Qed.

Lemma validate_loop_ok directories validated :
  Forall (λ d, directory_error fs is_dir path_of d = None) directories →
  validate_loop fs is_dir path_of directories validated
  = inr (validated ++ map path_of directories).
Proof.
  revert validated. induction directories as [|d ds IH];
    intros validated Hall; simpl.
  - by rewrite (right_id_L [] (++)).
  - apply Forall_cons in Hall as [Hd Hall]. unfold directory_error in Hd.
    destruct (negb (Files.path_exists fs (path_of d))); [done|].
    destruct (negb (is_dir (path_of d))); [done|].
    rewrite IH by done. by rewrite <- (assoc_L (++)).
Qed.

Lemma validate_loop_error d directories validated e :
  directory_error fs is_dir path_of d = Some e →
  validate_loop fs is_dir path_of (d :: directories) validated = inl e.
Proof.
  unfold directory_error. simpl.
  destruct (negb (Files.path_exists fs (path_of d))); [by intros [= <-]|].
  destruct (negb (is_dir (path_of d))); [by intros [= <-]|done].
Qed.


End MultiDirFacts.

Section CombineFacts.

Import MultiDir.

Lemma fold_combine_step (results : list result)
    (combined_files combined_content : list string) :
  fold_left combine_step results (combined_files, combined_content)
  = (combined_files ++ List.concat (map files results),
     combined_content
     ++ List.filter nonempty (map content results)).
Proof.
  revert combined_files combined_content.
  induction results as [|r rs IH]; intros combined_files combined_content;
    simpl.
  - by rewrite !(right_id_L [] (++)).
  - destruct (nonempty (content r)); rewrite IH;
      by rewrite <- ?(assoc_L (++)).
Qed.

Lemma combine_results_closed (results : list result) :
  combine_results results
  = Result (List.concat (map files results))
      (String.concat (nl +:+ nl)
         (List.filter nonempty (map content results))).
Proof. unfold combine_results. by rewrite fold_combine_step. Qed.

Lemma filter_nonempty_all (l : list string) :
  Forall (λ s, nonempty s = true) (List.filter nonempty l).
Proof.
  induction l as [|a l IH]; simpl; [done|].
  destruct (nonempty a) eqn:Ha; [by constructor|done].
Qed.

(** X20. What [combine_results] returns: the files of all the results,
    in order, and the contents that are not empty joined by a blank line;
    a result without content adds its files and no separator. *)
Theorem combine_results_joins_contents (results : list result) :
  files (combine_results results) = List.concat (map files results)
  ∧ content (combine_results results)
    = String.concat (nl +:+ nl)
        (List.filter nonempty (map content results))
  ∧ (nonempty (content (combine_results results)) = false ↔
     Forall (λ r, content r = "") results).
Proof.
  rewrite combine_results_closed. cbn [files content].
  split; [done|]. split; [done|].
  split.
  - intros Hempty. induction results as [|r rs IH]; [done|].
    simpl in Hempty. destruct (nonempty (content r)) eqn:Hr.
    + rewrite str_concat_nonempty in Hempty; [done|done|].
      pose proof (filter_nonempty_all (content r :: map content rs))
        as Hall.
      simpl in Hall. by rewrite Hr in Hall.
    + constructor; [by apply nonempty_false|by apply IH].
  - intros Hall. induction Hall as [|r rs Hr Hall IH]; [done|].
    simpl. by rewrite Hr.
Qed.

(** X21. Combining in two stages gives the same as combining at once:
    the combination of two lists of results put end to end is the
    combination of their two combinations. *)
Theorem combine_results_in_stages (results1 results2 : list result) :
  combine_results (results1 ++ results2)
  = combine_results [combine_results results1; combine_results results2].
Proof.
  rewrite (combine_results_closed [_; _]), !combine_results_closed.
  cbn [map files content List.concat].
  rewrite !map_app, concat_app, List.filter_app, (right_id_L [] (++)).
  f_equal.
  pose proof (filter_nonempty_all (map content results1)) as Hall1.
  pose proof (filter_nonempty_all (map content results2)) as Hall2.
  destruct (List.filter nonempty (map content results1)) as [|a l1] eqn:H1;
    destruct (List.filter nonempty (map content results2)) as [|b l2]
      eqn:H2.
  - done.
  - cbn [List.filter]. change (String.concat (nl +:+ nl) []) with "".
    cbn [nonempty]. rewrite str_concat_nonempty by done. done.
  - cbn [List.filter]. change (String.concat (nl +:+ nl) []) with "".
    cbn [nonempty]. rewrite str_concat_nonempty by done.
    by rewrite (right_id_L [] (++)).
  - cbn [List.filter]. rewrite !str_concat_nonempty by done.
    by rewrite str_concat_app.
Qed.

End CombineFacts.

Lemma collect_files_is_a_filter_witness :
  (Forall (λ file, ∃ b, MultiDir.skipped demo_fs (Some ["*.pyc"]) file = inr b)
     ["/repo/src/a.txt"; "/repo/src/logo.txt"]
   ∧ ["/repo/src/a.txt"; "/repo/src/logo.txt"]
     = List.filter
         (λ file, negb (matched demo_fs (default [] (Some ["*.pyc"])) file))
         ["/repo/src/a.txt"; "/repo/src/logo.txt"])
  ∧ (MultiDir.given (Some ["*.pyc"]) = false →
     MultiDir.collect_files demo_fs demo_walk "/repo/src" (Some ["*.pyc"])
     = inr ["/repo/src/a.txt"; "/repo/src/logo.txt"]).
Proof.
  exact (collect_files_is_a_filter demo_fs demo_walk "/repo/src"
           (Some ["*.pyc"]) eq_refl).
Defined.

(** With the empty pattern among the ignore patterns, [collect_files] raises
    on the first file; with no pattern at all it returns every file. *)
Example collect_files_empty_pattern :
  MultiDir.collect_files demo_fs demo_walk "/repo/src" (Some [""])
  = inl (MultiDir.Raised (Files.ValueError "empty pattern"))
  ∧ MultiDir.collect_files demo_fs demo_walk "/repo/src" None
    = inr ["/repo/src/a.txt"; "/repo/src/logo.txt"].
Proof. split; reflexivity. Qed.

Lemma process_directory_reports_all_files_witness :
  MultiDir.process_directory demo_fs demo_walk "2024-01-01T00:00:00"
    "/repo/src" "" ""
  = inr
      (MultiDir.Result ["/repo/src/a.txt"; "/repo/src/logo.txt"]
         (join_lines
            [ "# Metadata"; "total_tokens: 0"; "file_count: 2";
              "repository: "; "target_directory: ";
              "generated: 2024-01-01T00:00:00"; "";
              "File: a.txt"; "hi" ])).
Proof.
  rewrite (process_directory_reports_all_files demo_fs demo_walk
             "2024-01-01T00:00:00" "/repo/src" "" "").
  - reflexivity.
  - reflexivity.
  - vm_compute. repeat constructor.
Defined.


(** ** [parse_multi_urls] *)

Section GitMultiFacts.

Import Git.

Lemma split_skip_slice (sep : string) (k : nat) (s : string) :
  split_skip sep k s = split_skip sep 0 (slice_from k s).
Proof.
  revert k. induction s as [|a s IH]; intros k.
  - by destruct k.
  - destruct k as [|k]; [done|]. cbn [split_skip slice_from]. apply IH.
Qed.

Lemma split_skip_not_nil (sep : string) (k : nat) (s : string) :
  split_skip sep k s ≠ [].
Proof.
  revert k. induction s as [|a s IH]; intros k; [done|].
  cbn [split_skip]. destruct k as [|k]; [|apply IH].
  destruct (startswith sep (String a s)); [done|].
  specialize (IH 0%nat). by destruct (split_skip sep 0 s).
Qed.

Lemma slice_from_app (p s : string) :
  slice_from (String.length p) (p +:+ s) = s.
Proof.
  induction p as [|a p IH]; [by rewrite str_app_nil_l|].
  rewrite str_app_cons. simpl. apply IH.
Qed.

Lemma str_concat_head (sep : string) (a : ascii) (part : string)
    (rest : list string) :
  String.concat sep (String a part :: rest)
  = String a (String.concat sep (part :: rest)).
Proof. destruct rest; [done|]. cbn [String.concat]. by rewrite str_app_cons. Qed.

(** Joining what [split] gives restores the string. *)
Lemma concat_split_str (sep s : string) :
  sep ≠ "" → String.concat sep (split_str sep s) = s.
Proof.
  intros Hsep. unfold split_str.
  remember (String.length s) as n eqn:Hn.
  revert s Hn. induction (lt_wf n) as [n _ IH]. intros s Hn.
  destruct s as [|a s]; [done|]. cbn [split_skip].
  destruct (startswith sep (String a s)) eqn:Hstart.
  - apply startswith_inv in Hstart as [rest Hrest].
    destruct sep as [|c sep]; [done|].
    rewrite str_app_cons in Hrest. injection Hrest as -> ->.
    replace (String.length (String c sep) - 1)%nat
      with (String.length sep) by (simpl; lia).
    rewrite split_skip_slice, slice_from_app.
    rewrite str_concat_cons by apply split_skip_not_nil.
    rewrite str_app_nil_l.
    rewrite (IH (String.length rest)); [done| |done].
    subst n. simpl. rewrite str_length_app. lia.
  - pose proof (split_skip_not_nil sep 0 s) as Hnil.
    destruct (split_skip sep 0 s) as [|part more] eqn:Hsplit; [done|].
    rewrite str_concat_head. f_equal.
    rewrite <- Hsplit. apply (IH (String.length s)); [|done].
    subst n. simpl. lia.
Qed.

Lemma split_str_two (sep s a b : string) :
  sep ≠ "" → split_str sep s = [a; b] → s = a +:+ sep +:+ b.
Proof.
  intros Hsep Hsplit. rewrite <- (concat_split_str sep s Hsep).
  by rewrite Hsplit.
Qed.

(** [split(c, 1)] gives the string itself when it has no [c], and else
    what is before and what is after the first [c]. *)
Lemma split_once_cases (c : ascii) (s : string) :
  (split_once c s = [s] ∧ lacks c s = true)
  ∨ (∃ a b,
       split_once c s = [a; b] ∧ s = a +:+ String c b
       ∧ lacks c a = true).
Proof.
  induction s as [|x s IH]; [by left|]. cbn [split_once lacks].
  destruct (Ascii.eqb_spec x c) as [->|Hne].
  - right. exists "", s. by rewrite str_app_nil_l.
  - cbn [negb andb].
    destruct IH as [[-> Hs]|(a & b & -> & -> & Ha)].
    + by left.
    + right. exists (String x a), b. rewrite str_app_cons.
      split; [done|]. split; [done|]. cbn [lacks].
      destruct (Ascii.eqb_spec x c); [done|]. done.
Qed.

Lemma lacks_sep (c : ascii) (a b : string) :
  lacks c (a +:+ String c b) = false.
Proof.
  induction a as [|x a IH].
  - rewrite str_app_nil_l. cbn [lacks]. by rewrite Ascii.eqb_refl.
  - rewrite str_app_cons. cbn [lacks]. rewrite IH. apply andb_false_r.
Qed.

Lemma tree_url_rebuilt (repo after branch target_dir url : string) :
  split_str "/tree/" url = [repo; after] →
  split_once slash after !! 0%nat = Some branch →
  split_once slash after !! 1%nat = Some target_dir →
  url = repo +:+ "/tree/" +:+ branch +:+ "/" +:+ target_dir
  ∧ lacks slash branch = true.
Proof.
  intros Hsplit%split_str_two Hb Hd; [|done].
  destruct (split_once_cases slash after)
    as [[Hone _]|(a & b & Hone & -> & Ha)];
    rewrite Hone in Hb, Hd; [done|].
  injection Hb as <-. injection Hd as <-. by subst url.
Qed.

Lemma check_urls_ok (repo branch : string) (urls : list string) u :
  check_urls repo branch urls = inr u →
  Forall (tree_url repo branch) urls.
Proof.
  induction urls as [|url urls IH]; [done|]. cbn [check_urls].
  destruct (split_str "/tree/" url) as [|r [|after [|? ?]]] eqn:Hsplit;
    try done.
  cbn [length Nat.eqb negb lookup list_lookup].
  destruct (split_once slash after !! 0%nat) as [b|] eqn:Hb; [|done].
  destruct (String.eqb_spec r repo) as [->|]; [|done].
  destruct (String.eqb_spec b branch) as [->|]; [|done].
  cbn [negb]. intros Hrest. constructor; [|by apply IH].
  by exists after.
Qed.

Lemma check_urls_passes (repo branch : string) (urls : list string) :
  Forall (tree_url repo branch) urls →
  check_urls repo branch urls = inr tt.
Proof.
  induction 1 as [|url urls (after & Hsplit & Hb) _ IH]; [done|].
  cbn [check_urls]. rewrite Hsplit.
  cbn [length Nat.eqb negb lookup list_lookup]. rewrite Hb.
  by rewrite !String.eqb_refl.
Qed.

Lemma tree_dirs_ok (urls dirs : list string) :
  tree_dirs urls = inr dirs →
  Forall2
    (λ url target_dir,
       ∃ after,
         split_str "/tree/" url !! 1%nat = Some after
         ∧ split_once slash after !! 1%nat = Some target_dir)
    urls dirs.
Proof.
  revert dirs. induction urls as [|url urls IH]; intros dirs.
  - intros [= <-]. constructor.
  - cbn [tree_dirs].
    destruct (split_str "/tree/" url !! 1%nat) as [after|] eqn:Hafter;
      [|done].
    destruct (split_once slash after !! 1%nat) as [d|] eqn:Hd; [|done].
    destruct (tree_dirs urls) as [e|ds]; [done|].
    intros [= <-]. constructor; [by exists after|by apply IH].
Qed.

Lemma tree_dirs_branch_only (urls : list string) :
  Exists branch_only urls →
  Forall (λ url, length (split_str "/tree/" url) = 2%nat) urls →
  tree_dirs urls = inl IndexError.
Proof.
  induction 1 as [url urls (repo & after & Hsplit & Hlacks)
                 |url urls _ IH]; intros [Hlen Hall]%Forall_cons.
  - cbn [tree_dirs]. rewrite Hsplit. cbn [lookup list_lookup].
    destruct (split_once_cases slash after)
      as [[-> _]|(a & b & _ & -> & _)]; [done|].
    by rewrite lacks_sep in Hlacks.
  - cbn [tree_dirs].
    destruct (split_str "/tree/" url) as [|r [|after [|? ?]]]; try done.
    cbn [lookup list_lookup].
    destruct (split_once slash after !! 1%nat); [|done].
    by rewrite IH.
Qed.

Variable pl : pathlib.

(** X22. When [parse_multi_urls] returns for GitHub URLs, each URL, its
    leading [@] removed, is put together again from the result: the
    repository, [/tree/], the branch, a slash and the target directory at
    the same index; there is one target directory for each URL, and the
    branch has no slash. *)
Theorem parse_multi_urls_rebuilds (urls : list string) (info : RepoInfo) :
  forallb (startswith github) (map strip_at urls) = true →
  parse_multi_urls pl urls = inr info →
  Forall2
    (λ url target_dir,
       strip_at url
       = repo_url info +:+ "/tree/" +:+ branch info +:+ "/"
         +:+ target_dir)
    urls (target_dirs info)
  ∧ lacks slash (branch info) = true.
Proof.
  intros Hgit. unfold parse_multi_urls.
  destruct urls as [|url urls]; [done|].
  rewrite Hgit. cbn [orb negb].
  cbn [map].
  destruct (split_str "/tree/" (strip_at url))
    as [|repo [|after [|? ?]]] eqn:Hsplit; try done.
  cbn [length Nat.eqb negb lookup list_lookup].
  destruct (split_once slash after !! 0%nat) as [b|] eqn:Hb; [|done].
  destruct (check_urls repo b (map strip_at urls)) as [e|u] eqn:Hcheck;
    [done|].
  destruct (tree_dirs (strip_at url :: map strip_at urls)) as [e|dirs]
    eqn:Hdirs; [done|].
  intros [= <-]. cbn [repo_url branch target_dirs].
  apply check_urls_ok in Hcheck. apply tree_dirs_ok in Hdirs.
  assert (Forall (tree_url repo b) (map strip_at (url :: urls))) as Hall.
  { constructor; [by exists after|done]. }
  change (strip_at url :: map strip_at urls)
    with (map strip_at (url :: urls)) in Hdirs.
  clear Hsplit Hb Hcheck Hgit.
  split.
  - revert Hall Hdirs. generalize (url :: urls) as l. clear.
    intros l. revert dirs.
    induction l as [|x l IH]; intros dirs Hall Hdirs.
    + inversion Hdirs. constructor.
    + cbn [map] in *. apply Forall_cons in Hall as [Hx Hall].
      inversion Hdirs as [|? d ? ds Hd Hds]; subst.
      constructor; [|by apply IH].
      destruct Hx as (aft & Hsplit & Hb).
      destruct Hd as (after' & Hafter & Hd).
      rewrite Hsplit in Hafter. injection Hafter as <-.
      by destruct (tree_url_rebuilt _ _ _ _ _ Hsplit Hb Hd).
  - cbn [map] in *. apply Forall_cons in Hall as [Hx _].
    inversion Hdirs as [|? d ? ds Hd Hds]; subst.
    destruct Hx as (aft & Hsplit & Hb).
    destruct Hd as (after' & Hafter & Hd).
    rewrite Hsplit in Hafter. injection Hafter as <-.
    by destruct (tree_url_rebuilt _ _ _ _ _ Hsplit Hb Hd).
Qed.

(** X23. GitHub URLs of one repository and one branch, one of which
    stops at the branch, make [parse_multi_urls] raise [IndexError]: the
    target directory is read at index 1 of a list of one element. *)
Theorem parse_multi_urls_branch_only (urls : list string)
    (repo branch : string) :
  forallb (startswith github) (map strip_at urls) = true →
  Forall (tree_url repo branch) (map strip_at urls) →
  Exists branch_only (map strip_at urls) →
  parse_multi_urls pl urls = inl IndexError.
Proof.
  intros Hgit Hall Hex. unfold parse_multi_urls.
  destruct urls as [|url urls]; [by apply Exists_nil in Hex|].
  rewrite Hgit. cbn [orb negb]. cbn [map] in *.
  pose proof Hall as Hall'.
  apply Forall_cons in Hall as [(after & Hsplit & Hb) Hall].
  rewrite Hsplit. cbn [length Nat.eqb negb lookup list_lookup].
  rewrite Hb. rewrite check_urls_passes by done.
  rewrite tree_dirs_branch_only; [done|done|].
  eapply Forall_impl; [exact Hall'|].
  by intros x (a & -> & _).
Qed.

(** X24. A list that mixes GitHub URLs and other paths is refused with
    the [ValueError] of the repository check, whatever else the URLs
    are. *)
Theorem parse_multi_urls_mixed (urls : list string) :
  Exists (λ url, startswith github (strip_at url) = true) urls →
  Exists (λ url, startswith github (strip_at url) = false) urls →
  parse_multi_urls pl urls
  = inl (ValueError "All URLs must be from the same repository").
Proof.
  intros Hgit Hloc. unfold parse_multi_urls.
  destruct urls as [|url urls]; [by apply Exists_nil in Hgit|].
  assert (forallb (startswith github) (map strip_at (url :: urls)) = false)
    as ->.
  { apply not_true_is_false. intros Hall.
    rewrite forallb_forall in Hall.
    apply Exists_exists in Hloc as (x & Hx & Hfalse).
    rewrite Hall in Hfalse; [done|].
    apply in_map. by apply list_elem_of_In. }
  assert (forallb (λ u, negb (startswith github u))
            (map strip_at (url :: urls)) = false) as ->.
  { apply not_true_is_false. intros Hall.
    rewrite forallb_forall in Hall.
    apply Exists_exists in Hgit as (x & Hx & Htrue).
    specialize (Hall (strip_at x)). rewrite Htrue in Hall.
    discriminate Hall. apply in_map. by apply list_elem_of_In. }
  done.
Qed.

Lemma relative_dirs_length base urls dirs :
  relative_dirs pl base urls = inr dirs → length dirs = length urls.
Proof.
  revert dirs. induction urls as [|url urls IH]; intros dirs;
    cbn [relative_dirs].
  - by intros [= <-].
  - destruct (relative_to pl url base); [done|].
    destruct (relative_dirs pl base urls) as [|ds]; [done|].
    intros [= <-]. simpl. by rewrite (IH ds).
Qed.

(** X25. When [parse_multi_urls] returns for paths that are not GitHub
    URLs, the branch is [master] and there is one target directory for
    each path. *)
Theorem parse_multi_urls_local (urls : list string) (info : RepoInfo) :
  forallb (startswith github) (map strip_at urls) = false →
  parse_multi_urls pl urls = inr info →
  branch info = "master"
  ∧ length (target_dirs info) = length urls.
Proof.
  intros Hgit. unfold parse_multi_urls.
  destruct urls as [|url urls]; [done|].
  rewrite Hgit. cbn [orb].
  destruct (forallb (λ u, negb (startswith github u)) _); cbn [negb];
    [|done].
  cbn [map].
  destruct urls as [|url' urls].
  - cbn [map]. destruct (is_absolute pl (strip_at url)).
    + by intros [= <-].
    + destruct (split_once slash (str_of pl (strip_at url)) !! 0%nat);
        [|done].
      intros [= <-]. cbn [branch target_dirs]. split; [done|].
      by destruct (_ !! 1%nat).
  - cbn [map].
    destruct (commonpath pl _) as [e|common_parent]; [done|].
    destruct (negb (nonempty common_parent) || String.eqb common_parent ".").
    + destruct (split_once slash (str_of pl (strip_at url)) !! 0%nat)
        as [r|]; [|done].
      destruct (relative_dirs pl r _) as [e|dirs] eqn:Hdirs; [done|].
      intros [= <-]. cbn [branch target_dirs]. split; [done|].
      apply relative_dirs_length in Hdirs. rewrite Hdirs.
      simpl. by rewrite length_map.
    + destruct (relative_dirs pl common_parent _) as [e|dirs] eqn:Hdirs;
        [done|].
      intros [= <-]. cbn [branch target_dirs]. split; [done|].
      apply relative_dirs_length in Hdirs. rewrite Hdirs.
      simpl. by rewrite length_map.
Qed.

End GitMultiFacts.

Lemma parse_multi_urls_rebuilds_witness :
  Forall2
    (λ url target_dir,
       Git.strip_at url
       = "https://github.com/u/r" +:+ "/tree/" +:+ "main" +:+ "/"
         +:+ target_dir)
    ["@https://github.com/u/r/tree/main/src";
     "https://github.com/u/r/tree/main/docs/x"]
    ["src"; "docs/x"]
  ∧ lacks Git.slash "main" = true.
Proof.
  apply (parse_multi_urls_rebuilds demo_pathlib
           ["@https://github.com/u/r/tree/main/src";
            "https://github.com/u/r/tree/main/docs/x"]
           {| Git.repo_url := "https://github.com/u/r";
              Git.branch := "main";
              Git.target_dirs := ["src"; "docs/x"] |});
    reflexivity.
Defined.

Lemma parse_multi_urls_branch_only_witness :
  Git.parse_multi_urls demo_pathlib
    ["https://github.com/u/r/tree/main/src";
     "https://github.com/u/r/tree/main"]
  = inl Git.IndexError.
Proof.
  apply (parse_multi_urls_branch_only demo_pathlib _
           "https://github.com/u/r" "main").
  - reflexivity.
  - repeat constructor.
    + by exists "main/src".
    + by exists "main".
  - apply Exists_cons_tl, Exists_cons_hd.
    by exists "https://github.com/u/r", "main".
Defined.

Lemma parse_multi_urls_mixed_witness :
  Git.parse_multi_urls demo_pathlib
    ["https://github.com/u/r/tree/main/src"; "/local/dir"]
  = inl (Git.ValueError "All URLs must be from the same repository").
Proof.
  apply parse_multi_urls_mixed.
  - apply Exists_cons_hd. reflexivity.
  - apply Exists_cons_tl, Exists_cons_hd. reflexivity.
Defined.

Lemma parse_multi_urls_local_witness :
  Git.branch
    {| Git.repo_url := "/local"; Git.branch := "master";
       Git.target_dirs := ["dir"] |} = "master"
  ∧ length ["dir"] = length ["/local/dir"].
Proof.
  apply (parse_multi_urls_local demo_pathlib ["/local/dir"]
           {| Git.repo_url := "/local"; Git.branch := "master";
              Git.target_dirs := ["dir"] |});
    reflexivity.
Defined.


(** ** [collect_content] *)

Section CollectFacts.

Import Collect.

Variable os : os_view.

Lemma remove_char_only (c : ascii) (s : string) :
  only c s = true → remove_char c s = "".
Proof.
  induction s as [|a s IH]; [done|]. cbn [only remove_char].
  intros [-> Hs]%andb_true_iff. by apply IH.
Qed.

Lemma contains_empty (s : string) : contains "" s = true.
Proof. by destruct s. Qed.

Lemma ignored_by_stars (ignore_patterns : list string)
    (file_path : string) :
  Exists (λ pattern, only star pattern = true) ignore_patterns →
  ignored ignore_patterns file_path = true.
Proof.
  intros (pattern & Hin & Honly)%Exists_exists. unfold ignored.
  apply existsb_exists. exists pattern.
  split; [by apply list_elem_of_In|].
  by rewrite remove_char_only, contains_empty.
Qed.

Lemma read_file_into_app (directory file_path content : string) :
  read_file_into os directory file_path content
  = content +:+ read_file_into os directory file_path "".
Proof.
  unfold read_file_into.
  destruct (read_head os file_path) as [head|];
    [|by rewrite str_app_nil_r].
  destruct (Files.has_null_byte head); [by rewrite str_app_nil_r|].
  destruct (negb (opens os file_path)); [by rewrite str_app_nil_r|].
  destruct (relpath os file_path directory) as [rel|];
    [|by rewrite str_app_nil_r].
  destruct (read os file_path) as [text|];
    rewrite str_app_nil_l, ?str_app_assoc; reflexivity.
Qed.

Lemma collect_root_closed directory ignore_patterns root files content :
  collect_root os directory ignore_patterns root files content
  = if existsb (size_fails os ignore_patterns) (map (join os root) files)
    then inl Files.OSError
    else
      inr (content
           +:+ concat_bodies
                 (map (piece os directory ignore_patterns)
                    (map (join os root) files))).
Proof.
  revert content. induction files as [|file files IH]; intros content.
  - cbn. by rewrite str_app_nil_r.
  - cbn [collect_root map existsb]. unfold size_fails at 1, piece at 1.
    destruct (ignored ignore_patterns (join os root file)).
    + cbn [negb andb orb]. rewrite IH.
      by rewrite concat_bodies_cons, str_app_nil_l.
    + cbn [negb andb orb].
      destruct (getsize os (join os root file)) as [size|]; [|done].
      cbn [orb]. destruct (size >? 1024 * 1024).
      * rewrite IH. by rewrite concat_bodies_cons, str_app_nil_l.
      * rewrite IH. destruct (existsb _ _); [done|].
        rewrite concat_bodies_cons, read_file_into_app.
        by rewrite str_app_assoc.
Qed.

Lemma collect_walk_closed directory ignore_patterns walked content :
  collect_walk os directory ignore_patterns walked content
  = if existsb (size_fails os ignore_patterns)
         (flat_map (λ '(root, files), map (join os root) files) walked)
    then inl Files.OSError
    else
      inr (content
           +:+ concat_bodies
                 (map (piece os directory ignore_patterns)
                    (flat_map (λ '(root, files), map (join os root) files)
                       walked))).
Proof.
  revert content. induction walked as [|[root files] walked IH];
    intros content.
  - cbn. by rewrite str_app_nil_r.
  - cbn [collect_walk flat_map]. rewrite collect_root_closed.
    rewrite existsb_app, map_app, concat_bodies_app.
    destruct (existsb _ (map (join os root) files)); [done|].
    cbn [orb]. rewrite IH. destruct (existsb _ _); [done|].
    by rewrite str_app_assoc.
Qed.

(** X26. An ignore pattern made of [*] only, or empty, ignores every
    file: with the stars removed it is the empty string, which is found
    in every path, and [collect_content] returns the empty string without
    reading or sizing anything. *)
Theorem collect_content_star_ignores_all (directory : string)
    (ignore_patterns : list string) :
  Exists (λ pattern, only star pattern = true) ignore_patterns →
  collect_content os directory ignore_patterns = inr "".
Proof.
  intros Hstar. unfold collect_content. rewrite collect_walk_closed.
  fold (walked_paths os directory).
  assert (∀ paths,
    existsb (size_fails os ignore_patterns) paths = false
    ∧ concat_bodies (map (piece os directory ignore_patterns) paths) = "")
    as Hall.
  { induction paths as [|p paths [IH1 IH2]]; [done|].
    cbn [existsb map]. unfold size_fails at 1, piece at 1.
    rewrite (ignored_by_stars _ p Hstar). cbn [negb andb orb].
    split; [done|]. by rewrite concat_bodies_cons, IH2. }
  destruct (Hall (walked_paths os directory)) as [-> ->]. done.
Qed.

(** X27. When [os.path.getsize] raises on no file that is not ignored,
    [collect_content] returns the trimmed concatenation, in the order of
    [os.walk], of what each file adds: nothing for a file that is
    ignored, larger than 1 MiB, with a null byte in its first 1024 bytes
    or that cannot be opened; the header [=== <relative path> ===] between
    blank lines and the text for a file that is read; and the header alone
    for a file whose [read] raises. *)
Theorem collect_content_pieces (directory : string)
    (ignore_patterns : list string) :
  existsb (size_fails os ignore_patterns) (walked_paths os directory)
    = false →
  collect_content os directory ignore_patterns
  = inr
      (strip
         (concat_bodies
            (map (piece os directory ignore_patterns)
               (walked_paths os directory)))).
Proof.
  intros Hsize. unfold collect_content. rewrite collect_walk_closed.
  fold (walked_paths os directory). rewrite Hsize.
  by rewrite str_app_nil_l.
Qed.

(** X28. The only exception that leaves [collect_content] is the one
    [os.path.getsize] raises on a file that is not ignored; whatever is
    raised while a file is opened or read is swallowed. *)
Theorem collect_content_raises (directory : string)
    (ignore_patterns : list string) (e : Files.exception) :
  collect_content os directory ignore_patterns = inl e ↔
  e = Files.OSError
  ∧ ∃ file_path,
      file_path ∈ walked_paths os directory
      ∧ ignored ignore_patterns file_path = false
      ∧ getsize os file_path = None.
Proof.
  unfold collect_content. rewrite collect_walk_closed.
  fold (walked_paths os directory).
  destruct (existsb _ _) eqn:Hex.
  - apply existsb_exists in Hex as (p & Hin & Hp).
    unfold size_fails in Hp. apply andb_true_iff in Hp as [Hig Hsz].
    apply negb_true_iff in Hig.
    split; [|by intros [-> _]].
    intros [= <-]. split; [done|]. exists p.
    split; [by apply list_elem_of_In|]. split; [done|].
    by destruct (getsize os p).
  - split; [done|]. intros [_ (p & Hin & Hig & Hsz)].
    assert (existsb (size_fails os ignore_patterns)
              (walked_paths os directory) = true) as Htrue.
    { apply existsb_exists. exists p.
      split; [by apply list_elem_of_In|].
      unfold size_fails. by rewrite Hig, Hsz. }
    congruence.
Qed.

End CollectFacts.

Lemma collect_content_star_ignores_all_witness :
  Collect.collect_content demo_os "/repo/src" ["*.pyc"; "**"] = inr "".
Proof.
  apply collect_content_star_ignores_all.
  apply Exists_cons_tl, Exists_cons_hd. reflexivity.
Defined.

Lemma collect_content_pieces_witness :
  Collect.collect_content demo_os "/repo/src" ["*.pyc"]
  = inr ("=== a.txt ===" +:+ nl +:+ nl +:+ "hi").
Proof.
  rewrite (collect_content_pieces demo_os "/repo/src" ["*.pyc"]);
    reflexivity.
Defined.
